(** * Orbital point sampler and overlay fitting of [sketch.js]

    A shallow embedding of the sampling core of the 3-D atomic-orbital
    viewer: the associated-Legendre recurrence, the radial scale, the chunked
    rejection sampler with its session counter, the outward-push normaliser
    and the overlay fitting for s, p and dz2 clouds.

    Conventions of the embedding.
    - JavaScript numbers that hold measurements are real numbers ([R]):
      rounding of IEEE doubles and of [Float32Array] cells is not modelled,
      and neither are NaN and the infinities.  A value that the source tests
      with [isNaN] or [isFinite] is an [option], [None] standing for the
      non-number.
    - Quantum numbers and counters are integers ([Z], [nat]).
    - The host generator [random()] is a stream [rnd : nat -> R] of draws in
      [0,1); every operation threads the index of the next draw.
    - One point of the cloud occupies the cells [3i], [3i+1], [3i+2] of the
      flat position buffer; the buffer is a list of [Vec3]. *)

From Stdlib Require Import String.
From Stdlib Require Import Reals Lra Lia ZArith List Bool Psatz.
Import ListNotations.
Open Scope R_scope.

(** ** Tuning constants (sketch.js, lines 1732-1918) *)

Definition a0 : R := 40.
Definition CHUNK_SAMPLES : nat := 1500.
Definition ATTEMPTS_PER_CHUNK : nat := 25 * 1000.
Definition NUCLEUS_RADIUS : R := 18.
Definition ELECTRON_MIN_GAP : R := 6.
Definition ELECTRON_DISTANCE_MULTIPLIER : R := 16 / 10.
Definition GLOBAL_RADIAL_PUSH : R := 115 / 100.
Definition EQ_RADIAL_PUSH : R := 135 / 100.
Definition NEAR_NUCLEAR_PUSH_MULT : R := 2.
Definition NEAR_THRESHOLD_MULT : R := 15 / 10.
Definition NEAR_THRESHOLD_ABS : R := 80.
Definition NEAR_THRESHOLD_EQ_ABS : R := 120.
Definition S_OVERLAY_SCALE : R := 98 / 100.
Definition DZ_LOBE_SCALE : R := 78 / 100.
Definition LOBE_Z_SHRINK : R := 1.
Definition LOBE_AXIAL_EXTEND : R := 142 / 100.
Definition LOBE_Z_OFFSET_MULT : R := 18 / 100.
Definition P_PX_AXIAL_BOOST : R := 115 / 100.
Definition P_PX_RADIAL_BOOST : R := 110 / 100.
Definition LOBE_RADIAL_PERCENTILE_MULT : R := 54 / 100.
Definition LOBE_RADIAL_EXTRA_GROW : R := 84 / 100.
Definition RING_DEFAULT_INNER_DIAM : R := 120.
Definition RING_DEFAULT_OUTER_DIAM : R := 180.
Definition DZ2_RING_SHRINK_FACTOR : R := 92 / 100.
Definition DZ2_AXIAL_OFFSET_SCALE : R := 75 / 100.
Definition OVERLAY_PERCENTILE : R := 95 / 100.
Definition OVERLAY_RING_INNER_P : R := 10 / 100.
Definition OVERLAY_RING_OUTER_P : R := 90 / 100.
Definition MAX_ELECTRONS : Z := 30000.
Definition TWO_PI : R := 2 * PI.

(** The clearance every finished point must keep from the origin. *)
Definition minAllowed : R := NUCLEUS_RADIUS + ELECTRON_MIN_GAP.

(** ** Wavefunction helpers (lines 5213-5241 and 5343-5347) *)

(** [for (i = 1; i <= m; i++) { pmm *= -fact * somx2; fact += 2.0; }] *)
Fixpoint pmmLoop (iters : nat) (pmm fact somx2 : R) : R :=
  match iters with
  | O => pmm
  | S k => pmmLoop k (pmm * (- fact * somx2)) (fact + 2) somx2
  end.

(** [for (ll = m + 2; ll <= l; ll++) { ... }], with [iters] the number of
    values [ll] takes. *)
Fixpoint plmLoop (iters : nat) (ll m : Z) (x plmPrev plm : R) : R :=
  match iters with
  | O => plm
  | S k =>
      let plnew :=
        ((2 * IZR ll - 1) * x * plm - (IZR ll + IZR m - 1) * plmPrev)
        / (IZR ll - IZR m) in
      plmLoop k (ll + 1) m x plm plnew
  end.

Definition associatedLegendre (l m : Z) (x : R) : R :=
  if (m >? l)%Z then 0
  else
    let pmm :=
      if (m >? 0)%Z
      then pmmLoop (Z.to_nat m) 1 1 (sqrt (Rmax 0 (1 - x * x)))
      else 1 in
    if (l =? m)%Z then pmm
    else
      let pmmp1 := x * (2 * IZR m + 1) * pmm in
      if (l =? m + 1)%Z then pmmp1
      else plmLoop (Z.to_nat (l - (m + 1))) (m + 2) m x pmm pmmp1.

Definition angularProb (theta phi : R) (l m : Z) : R :=
  let x := cos theta in
  let mm := Z.abs m in
  let Plm := associatedLegendre l mm x in
  let ang :=
    if (m >? 0)%Z then Plm * cos (IZR m * phi)
    else if (m <? 0)%Z then Plm * sin (IZR mm * phi)
    else Plm in
  ang * ang + / 10 ^ 30.

Definition radialLScale (l : Z) : R :=
  if (l <=? 0)%Z then 1
  else Rmax (6 / 10) (1 - 6 / 100 * IZR l).

(** The three constants every sampling run fixes before its first chunk
    (lines 5093-5097). *)
Definition kOf (l : Z) : nat := Z.to_nat (Z.max 1 (2 * l + 3)).
Definition thetaScale (n : Z) : R := IZR n * a0 / 2.
Definition radialScale (l : Z) : R := radialLScale l * ELECTRON_DISTANCE_MULTIPLIER.

(** The radius an attempt proposes before any rejection, from the sum of its
    exponential variates: [r = thetaScale * sumExp * radialScale]. *)
Definition proposedRadius (n l : Z) (sumExp : R) : R :=
  thetaScale n * sumExp * radialScale l.

Definition Rsum (xs : list R) : R := fold_right Rplus 0 xs.
Definition mean (xs : list R) : R := Rsum xs / INR (length xs).

(** ** Points, sorting and percentiles (lines 3061-3067) *)

Record Vec3 : Type := mkVec3 { vx : R; vy : R; vz : R }.

Definition origin : Vec3 := mkVec3 0 0 0.

(** [Math.sqrt(x*x + y*y + z*z)] *)
Definition r3D (p : Vec3) : R :=
  sqrt (vx p * vx p + vy p * vy p + vz p * vz p).

(** [Math.sqrt(x*x + y*y)] *)
Definition rXY (p : Vec3) : R := sqrt (vx p * vx p + vy p * vy p).

Definition scaleVec (s : R) (p : Vec3) : Vec3 :=
  mkVec3 (vx p * s) (vy p * s) (vz p * s).

(** [copy.sort((a, b) => a - b)]: the ascending order of the values. *)
Fixpoint insertSorted (x : R) (xs : list R) : list R :=
  match xs with
  | [] => [x]
  | y :: ys => if Rle_dec x y then x :: y :: ys else y :: insertSorted x ys
  end.

Definition sortAsc (xs : list R) : list R := fold_right insertSorted [] xs.

(** [Math.floor] on a non-negative real, as an index. *)
Definition floorNat (x : R) : nat := Z.to_nat (Zfloor x).

(** [percentile(arr, p)] for a fraction [p >= 0], as the call sites
    modelled here pass it.  For [p < 0] the script's index
    [Math.min(copy.length - 1, Math.floor(p * copy.length))] is negative and
    the read [copy[idx]] gives [undefined]; that case is outside this
    definition. *)
Definition percentile (arr : list R) (p : R) : R :=
  match arr with
  | [] => 0
  | _ =>
      let copy := sortAsc arr in
      let idx := Nat.min (length copy - 1) (floorNat (p * INR (length copy))) in
      nth idx copy 0
  end.

(** The axial split both the normaliser and the dz2 fit start with:
    [if (z >= 0) posAxial.push(z); else negAxial.push(-z)]. *)
Fixpoint posAxialOf (pts : list Vec3) : list R :=
  match pts with
  | [] => []
  | p :: rest =>
      if Rge_dec (vz p) 0 then vz p :: posAxialOf rest else posAxialOf rest
  end.

Fixpoint negAxialOf (pts : list Vec3) : list R :=
  match pts with
  | [] => []
  | p :: rest =>
      if Rge_dec (vz p) 0 then negAxialOf rest else - vz p :: negAxialOf rest
  end.

(** [arr.length ? percentile(arr, p) : dflt] *)
Definition percentileOr (dflt : R) (arr : list R) (p : R) : R :=
  match arr with
  | [] => dflt
  | _ => percentile arr p
  end.

(** ** The host generator *)

Section Generator.

(** The draws of [random()], in the order the program asks for them. *)
Variable rnd : nat -> R.

(** [random()] and [random(lo, hi)], each consuming one draw. *)
Definition random (c : nat) : R * nat := (rnd c, S c).
Definition randomRange (lo hi : R) (c : nat) : R * nat :=
  (rnd c * (hi - lo) + lo, S c).

(** ** Outward-push normaliser (lines 3577-3655) *)

Definition EPS : R := / 10 ^ 6.

Record PushArgs : Type := mkPushArgs {
  globalFactor : R;
  equatorialFactor : R;
  applyNearMultiplier : bool;
  nearMultiplier : R;
  nearThresholdParam : option R;
  nearEquatorialThresholdParam : option R
}.

Definition eqThresholdOf (pts : list Vec3) : R :=
  let t80posRaw := percentileOr 0 (posAxialOf pts) (80 / 100) in
  let t80negRaw := percentileOr 0 (negAxialOf pts) (80 / 100) in
  Rmax (2 / 10 * Rmax t80posRaw t80negRaw) 1.

Definition nearThresholdOf (a : PushArgs) : R :=
  match nearThresholdParam a with
  | Some t => t
  | None => minAllowed * NEAR_THRESHOLD_MULT
  end.

Definition nearEqThresholdOf (a : PushArgs) : R :=
  match nearEquatorialThresholdParam a with
  | Some t => t
  | None => nearThresholdOf a
  end.

(** One iteration of the main loop: the new content of point [i] and the
    index of the next draw.  The coordinates are the values the iteration
    computes, [x * s], [y * s], [z * s], before they are written to the
    cells; the cells are single precision and round them, which
    [storeFloat32] and [pushElectronsOutwardStored] add. *)
Definition pushPoint (a : PushArgs) (eqThreshold : R) (p : Vec3) (c : nat)
  : Vec3 * nat :=
  let nearThreshold := nearThresholdOf a in
  let nearEqThreshold := nearEqThresholdOf a in
  let isEquatorial := if Rle_dec (Rabs (vz p)) eqThreshold then true else false in
  let factor0 := if isEquatorial then equatorialFactor a else globalFactor a in
  let '(factor, targetMinDistance) :=
    if applyNearMultiplier a then
      if isEquatorial && (if Rle_dec (r3D p) nearEqThreshold then true else false)
      then (factor0 * nearMultiplier a, Rmax minAllowed nearEqThreshold)
      else if negb isEquatorial && (if Rle_dec (r3D p) nearThreshold then true else false)
      then (factor0 * nearMultiplier a, Rmax minAllowed nearThreshold)
      else (factor0, minAllowed)
    else (factor0, minAllowed) in
  if applyNearMultiplier a then
    if Rle_dec (r3D p) EPS then
      let '(ang, c1) := randomRange 0 TWO_PI c in
      let newR := Rmax targetMinDistance (5 / 10 * factor) in
      (mkVec3 (cos ang * newR) (sin ang * newR) 0, c1)
    else
      let newR3D := Rmax targetMinDistance (r3D p * factor) in
      (scaleVec (newR3D / r3D p) p, c)
  else
    if Rle_dec (rXY p) EPS then
      if Rle_dec (r3D p) EPS then
        let '(u, c1) := randomRange (-1) 1 c in
        let theta := acos u in
        let '(phi, c2) := randomRange 0 TWO_PI c1 in
        let sr := sin theta in
        (mkVec3 (minAllowed * sr * cos phi)
                (minAllowed * sr * sin phi)
                (minAllowed * cos theta), c2)
      else
        let newR3D := Rmax minAllowed (r3D p * factor) in
        (scaleVec (newR3D / r3D p) p, c)
    else
      let newR3D := Rmax minAllowed (r3D p * factor) in
      (scaleVec (newR3D / r3D p) p, c).

(** [for (i = 0; i < sampleCount; i++)], rewriting the first [count]
    points in place. *)
Fixpoint pushLoop (a : PushArgs) (eqThreshold : R) (count : nat)
    (pts : list Vec3) (c : nat) : list Vec3 * nat :=
  match count, pts with
  | S k, p :: rest =>
      let '(p', c1) := pushPoint a eqThreshold p c in
      let '(rest', c2) := pushLoop a eqThreshold k rest c1 in
      (p' :: rest', c2)
  | _, _ => (pts, c)
  end.

(** The whole call on the global buffer ([None] is [null]). *)
Definition pushElectronsOutward (a : PushArgs) (positions : option (list Vec3))
    (sampleCount : nat) (c : nat) : option (list Vec3) * nat :=
  match positions, sampleCount with
  | None, _ => (None, c)
  | Some pts, O => (Some pts, c)
  | Some pts, _ =>
      let eqThreshold := eqThresholdOf (firstn sampleCount pts) in
      let '(pts', c') := pushLoop a eqThreshold sampleCount pts c in
      (Some pts', c')
  end.

End Generator.

(** ** k-means clustering (lines 3069-3150) *)

Section Clustering.

Variable rnd : nat -> R.

(** [points[idx*3 .. idx*3+2]]; an index past the end cannot arise from
    draws in [0,1) and reads as the origin here. *)
Definition pointAt (pts : list Vec3) (idx : nat) : Vec3 := nth idx pts origin.

(** [Math.floor(random() * n)] *)
Definition randomIndex (n : nat) (c : nat) : nat * nat :=
  let '(u, c1) := random rnd c in (floorNat (u * INR n), c1).

(** [do { idx = ...; tries++; } while (used.has(idx) && tries < 10)];
    [retries] is the number of further turns still allowed. *)
Fixpoint pickUnused (retries : nat) (used : list nat) (n : nat) (c : nat)
  : nat * nat :=
  let '(idx, c1) := randomIndex n c in
  match retries with
  | O => (idx, c1)
  | S r =>
      if existsb (Nat.eqb idx) used then pickUnused r used n c1 else (idx, c1)
  end.

Fixpoint initCentroids (k : nat) (used : list nat) (pts : list Vec3)
    (n : nat) (c : nat) : list Vec3 * nat :=
  match k with
  | O => ([], c)
  | S k' =>
      let '(idx, c1) := pickUnused 9 used n c in
      let '(rest, c2) := initCentroids k' (idx :: used) pts n c1 in
      (pointAt pts idx :: rest, c2)
  end.

Definition sqDist (p q : Vec3) : R :=
  (vx p - vx q) * (vx p - vx q) + (vy p - vy q) * (vy p - vy q)
  + (vz p - vz q) * (vz p - vz q).

(** The inner [for c] loop: the first centroid at the least distance;
    [bestD = None] is the initial [Infinity]. *)
Fixpoint nearestFrom (p : Vec3) (cents : list Vec3) (c best : nat)
    (bestD : option R) : nat :=
  match cents with
  | [] => best
  | q :: rest =>
      let d := sqDist p q in
      let closer :=
        match bestD with
        | None => true
        | Some b => if Rlt_dec d b then true else false
        end in
      if closer then nearestFrom p rest (S c) c (Some d)
      else nearestFrom p rest (S c) best bestD
  end.

Definition nearest (p : Vec3) (cents : list Vec3) : nat :=
  nearestFrom p cents 0 0 None.

(** Indices [i < n] currently assigned to cluster [c], ascending. *)
Definition membersOf (assignments : list nat) (c : nat) : list nat :=
  filter (fun i => Nat.eqb (nth i assignments 0%nat) c)
         (seq 0 (length assignments)).

Definition centroidOf (pts : list Vec3) (idxs : list nat) : Vec3 :=
  let cnt := INR (length idxs) in
  mkVec3 (Rsum (map (fun i => vx (pointAt pts i)) idxs) / cnt)
         (Rsum (map (fun i => vy (pointAt pts i)) idxs) / cnt)
         (Rsum (map (fun i => vz (pointAt pts i)) idxs) / cnt).

(** The centroid update of one iteration, cluster by cluster; an empty
    cluster takes a freshly drawn point. *)
Fixpoint updateCentroids (pts : list Vec3) (n : nat) (assignments : list nat)
    (cents : list Vec3) (cIdx : nat) (c : nat) : list Vec3 * nat :=
  match cents with
  | [] => ([], c)
  | _ :: rest =>
      let idxs := membersOf assignments cIdx in
      let '(q, c1) :=
        match idxs with
        | [] => let '(idx, c') := randomIndex n c in (pointAt pts idx, c')
        | _ => (centroidOf pts idxs, c)
        end in
      let '(rest', c2) := updateCentroids pts n assignments rest (S cIdx) c1 in
      (q :: rest', c2)
  end.

Definition natListEqb (xs ys : list nat) : bool :=
  if list_eq_dec Nat.eq_dec xs ys then true else false.

Fixpoint kmeansIter (maxIter : nat) (pts : list Vec3) (n : nat)
    (assignments : list nat) (cents : list Vec3) (c : nat) : list nat * nat :=
  match maxIter with
  | O => (assignments, c)
  | S it =>
      let assignments' :=
        map (fun i => nearest (pointAt pts i) cents) (seq 0 n) in
      let moved := negb (natListEqb assignments assignments') in
      let '(cents', c1) := updateCentroids pts n assignments' cents 0 c in
      if moved then kmeansIter it pts n assignments' cents' c1
      else (assignments', c1)
  end.

(** The clusters as lists of point indices. *)
Definition kmeans (pts : list Vec3) (count k maxIter : nat) (c : nat)
  : list (list nat) * nat :=
  match count with
  | O => ([], c)
  | _ =>
      let '(cents, c1) := initCentroids k [] pts count c in
      let '(assignments, c2) :=
        kmeansIter maxIter pts count (repeat 0%nat count) cents c1 in
      (map (membersOf assignments) (seq 0 k), c2)
  end.

End Clustering.

(** ** Overlay fitting (lines 3657-4106) *)

(** One lobe of the p overlay: [{ axisUnit, t95, r95 }]. *)
Record PLobe : Type := mkPLobe { axisUnit : Vec3; t95 : R; r95 : R }.

(** The torus of the dz2 overlay (colour and alpha are render constants and
    are left out). *)
Record Ring : Type := mkRing {
  innerRadius : R;
  outerRadius : R;
  majorRadius : R;
  tubeRadius : R
}.

Record Dz2Data : Type := mkDz2Data {
  t80pos : R;
  t80neg : R;
  lobeRadial : R;
  axialOffsetPos : R;
  axialOffsetNeg : R;
  ring : Ring
}.

(** The descriptor [cache]: its [type] tag with its [data]. [OvUntyped] is
    the object whose [type] stays [null] (no branch matched); [OvD] carries
    the clustered-lobes result of the remaining d orbitals. *)
Inductive Overlay (D : Type) : Type :=
| OvUntyped : Overlay D
| OvS : R -> Overlay D
| OvP : list PLobe -> Overlay D
| OvDz2 : Dz2Data -> Overlay D
| OvD : D -> Overlay D.

Arguments OvUntyped {D}.
Arguments OvS {D} _.
Arguments OvP {D} _.
Arguments OvDz2 {D} _.
Arguments OvD {D} _.

(** [for (i = 0; i < n; i += step)] over the first [n] points: [skip] counts
    the points to pass over before the next one is copied. *)
Fixpoint everyNth (step skip : nat) (pts : list Vec3) : list Vec3 :=
  match pts with
  | [] => []
  | p :: rest =>
      match skip with
      | O => p :: everyNth step (step - 1) rest
      | S s => everyNth step s rest
      end
  end.

Definition subsample (pts : list Vec3) (n : nat) : list Vec3 :=
  let step := Nat.max 1 (n / 3000) in
  everyNth step 0 (firstn n pts).

(** *** l = 0 *)

Definition overlayS (sampled : list Vec3) : R :=
  Rmax (5 / 10) (percentile (map r3D sampled) OVERLAY_PERCENTILE * S_OVERLAY_SCALE).

(** *** l = 1 *)

(** [Math.sqrt(...) || 1.0] *)
Definition orOne (v : R) : R := if Req_dec_T v 0 then 1 else v.

Definition dot3 (p q : Vec3) : R := vx p * vx q + vy p * vy q + vz p * vz q.

(** The lobe fitted to one cluster, or nothing for a cluster of fewer than
    six points. *)
Definition lobeOfCluster (sampled : list Vec3) (idxs : list nat) : option PLobe :=
  if (length idxs <? 6)%nat then None
  else
    let axis := centroidOf sampled idxs in
    let axisLen := orOne (r3D axis) in
    let unit := mkVec3 (vx axis / axisLen) (vy axis / axisLen) (vz axis / axisLen) in
    let axialVals :=
      map (fun i => Rabs (dot3 (pointAt sampled i) unit)) idxs in
    let radialVals :=
      map (fun i =>
             let p := pointAt sampled i in
             let t := dot3 p unit in
             sqrt (Rmax 0 (vx p * vx p + vy p * vy p + vz p * vz p - t * t)))
          idxs in
    Some (mkPLobe unit
            (Rmax (/ 100) (percentile axialVals OVERLAY_PERCENTILE))
            (Rmax (/ 100) (percentile radialVals OVERLAY_PERCENTILE))).

Fixpoint lobesOfClusters (sampled : list Vec3) (clusters : list (list nat))
  : list PLobe :=
  match clusters with
  | [] => []
  | idxs :: rest =>
      match lobeOfCluster sampled idxs with
      | Some lobe => lobe :: lobesOfClusters sampled rest
      | None => lobesOfClusters sampled rest
      end
  end.

(** The extents measured along x over the whole sample, boosted. *)
Definition xExtents (sampled : list Vec3) : R * R :=
  let absX := map (fun p => Rabs (vx p)) sampled in
  let rPerpX := map (fun p => sqrt (vy p * vy p + vz p * vz p)) sampled in
  (Rmax (/ 100) (percentileOr 8 absX OVERLAY_PERCENTILE * P_PX_AXIAL_BOOST),
   Rmax (/ 100) (percentileOr 2 rPerpX OVERLAY_PERCENTILE * P_PX_RADIAL_BOOST)).

Definition xLobes (sampled : list Vec3) : list PLobe :=
  let '(t, r) := xExtents sampled in
  [mkPLobe (mkVec3 1 0 0) t r; mkPLobe (mkVec3 (-1) 0 0) t r].

(** [if (lobesComputed.length < 2) { push; push }] *)
Definition withXFallback (sampled : list Vec3) (lobesComputed : list PLobe)
  : list PLobe :=
  if (length lobesComputed <? 2)%nat then lobesComputed ++ xLobes sampled
  else lobesComputed.

(** The search for the lobe most aligned with x: [bestIdx] starts at -1 and
    [bestAlign] at -1, and only a strictly larger alignment replaces them. *)
Fixpoint bestAligned (lobes : list PLobe) (i : Z) (bestIdx : Z) (bestAlign : R)
  : Z :=
  match lobes with
  | [] => bestIdx
  | lobe :: rest =>
      let align := Rabs (vx (axisUnit lobe)) in
      if Rgt_dec align bestAlign then bestAligned rest (i + 1) i align
      else bestAligned rest (i + 1) bestIdx bestAlign
  end.

Definition canonicalExtents (sampled : list Vec3) (lobesComputed : list PLobe)
  : R * R :=
  let bestIdx := bestAligned lobesComputed 0 (-1) (-1) in
  if (bestIdx >=? 0)%Z then
    match nth_error lobesComputed (Z.to_nat bestIdx) with
    | Some lobe => (t95 lobe, r95 lobe)
    | None => xExtents sampled
    end
  else xExtents sampled.

Definition negVec (p : Vec3) : Vec3 := mkVec3 (- vx p) (- vy p) (- vz p).

Definition lobesFinalOf (sampled : list Vec3) (lobesComputed : list PLobe)
  : list PLobe :=
  let '(canonicalT, canonicalR) := canonicalExtents sampled lobesComputed in
  let lobesFinal :=
    map (fun lobe => mkPLobe (axisUnit lobe) canonicalT canonicalR) lobesComputed in
  match lobesFinal with
  | [only] => [only; mkPLobe (negVec (axisUnit only)) canonicalT canonicalR]
  | _ => lobesFinal
  end.

Definition overlayP (rnd : nat -> R) (sampled : list Vec3) (c : nat)
  : list PLobe * nat :=
  if (length sampled <? 6)%nat then
    ([mkPLobe (mkVec3 1 0 0) 8 2; mkPLobe (mkVec3 (-1) 0 0) 8 2], c)
  else
    let '(clusters, c1) := kmeans rnd sampled (length sampled) 2 30 c in
    let lobesComputed := withXFallback sampled (lobesOfClusters sampled clusters) in
    (lobesFinalOf sampled lobesComputed, c1).

(** *** l = 2, m = 0 *)

Definition ringOf (radialXYEquatorial : list R) : Ring :=
  let '(inner0, outer0) :=
    if (8 <=? length radialXYEquatorial)%nat then
      let inner := Rmax (NUCLEUS_RADIUS + ELECTRON_MIN_GAP)
                        (percentile radialXYEquatorial OVERLAY_RING_INNER_P) in
      (inner, Rmax (inner + / 1000)
                   (percentile radialXYEquatorial OVERLAY_RING_OUTER_P))
    else (RING_DEFAULT_INNER_DIAM * (5 / 10), RING_DEFAULT_OUTER_DIAM * (5 / 10)) in
  let ringInnerRadius := inner0 * DZ2_RING_SHRINK_FACTOR in
  let ringOuterRadius := outer0 * DZ2_RING_SHRINK_FACTOR in
  mkRing ringInnerRadius ringOuterRadius
         ((ringInnerRadius + ringOuterRadius) * (5 / 10))
         (Rmax 1 ((ringOuterRadius - ringInnerRadius) * (5 / 10))).

Definition overlayDz2 (sampled : list Vec3) : Dz2Data :=
  let posAxial := posAxialOf sampled in
  let negAxial := negAxialOf sampled in
  let radialXYAll := map rXY sampled in
  let t95posRaw := percentileOr 0 posAxial OVERLAY_PERCENTILE in
  let t95negRaw := percentileOr 0 negAxial OVERLAY_PERCENTILE in
  let t95pos := Rmax 1 (t95posRaw * DZ_LOBE_SCALE * LOBE_Z_SHRINK * LOBE_AXIAL_EXTEND) in
  let t95neg := Rmax 1 (t95negRaw * DZ_LOBE_SCALE * LOBE_Z_SHRINK * LOBE_AXIAL_EXTEND) in
  let lobeRadial95 :=
    match radialXYAll with
    | [] => 2
    | _ => percentile radialXYAll OVERLAY_PERCENTILE * LOBE_RADIAL_PERCENTILE_MULT
    end in
  let lobeRadial := Rmax (9 / 10) (lobeRadial95 * LOBE_RADIAL_EXTRA_GROW) in
  let eqThreshold := Rmax (2 / 10 * Rmax t95posRaw t95negRaw) 1 in
  let radialXYEquatorial :=
    map rXY (filter (fun p => if Rle_dec (Rabs (vz p)) eqThreshold then true else false)
                    sampled) in
  mkDz2Data t95pos t95neg lobeRadial
            (t95pos * LOBE_Z_OFFSET_MULT * DZ2_AXIAL_OFFSET_SCALE)
            (t95neg * LOBE_Z_OFFSET_MULT * DZ2_AXIAL_OFFSET_SCALE)
            (ringOf radialXYEquatorial).

(** *** The dispatcher *)

Section ComputeOverlay.

Variable rnd : nat -> R.

(** The clustered-lobes fit of the d orbitals with m <> 0 (lines
    3905-4100): none of the properties below depends on it, so it is kept
    abstract and every result holds whatever it returns. *)
Variable D : Type.
Variable overlayD : list Vec3 -> nat -> D * nat.

(** [computeOverlay()]: the value [overlayCache] ends with ([None] is
    [null]); [l] and [m] are the parsed inputs, [None] being NaN. *)
Definition computeOverlay (overlayEnabled : bool)
    (positions : option (list Vec3)) (sampleCount : nat)
    (l m : option Z) (c : nat) : option (Overlay D) * nat :=
  if negb overlayEnabled then (None, c)
  else
    match positions, sampleCount with
    | None, _ => (None, c)
    | Some _, O => (None, c)
    | Some pts, _ =>
        let sampled := subsample pts sampleCount in
        match l with
        | Some 0%Z => (Some (OvS (overlayS sampled)), c)
        | Some 1%Z =>
            let '(lobes, c1) := overlayP rnd sampled c in (Some (OvP lobes), c1)
        | Some 2%Z =>
            match m with
            | Some 0%Z => (Some (OvDz2 (overlayDz2 sampled)), c)
            | _ => let '(d, c1) := overlayD sampled c in (Some (OvD d), c1)
            end
        | _ => (Some OvUntyped, c)
        end
    end.

End ComputeOverlay.

(** ** Global state of the sampler *)

(** The parsed values of the five inputs and [window.orbitalMode];
    [None] is what [parseInt]/[parseFloat] return for a non-number. *)
Record UIInputs : Type := mkUIInputs {
  nInput : option Z;
  lInput : option Z;
  mInput : option Z;
  electronSizeInput : option R;
  numElectronsInput : option Z;
  orbitalMode : string
}.

(** The fields interpolated into [uiHash]. *)
Record UIHash : Type := mkUIHash {
  h_n : Z; h_l : Z; h_m : Z; h_electronSize : R; h_numElectrons : Z;
  h_orbitalMode : string
}.

Definition uiHashEqb (a b : UIHash) : bool :=
  (h_n a =? h_n b)%Z && (h_l a =? h_l b)%Z && (h_m a =? h_m b)%Z
  && (if Req_dec_T (h_electronSize a) (h_electronSize b) then true else false)
  && (h_numElectrons a =? h_numElectrons b)%Z
  && (if string_dec (h_orbitalMode a) (h_orbitalMode b) then true else false).

(** What one sampling run captures: the arguments of
    [sampleOrbitalChunked]. *)
Record Session : Type := mkSession {
  s_n : Z;
  s_l : Z;
  s_m : Z;
  numSamples : nat;
  electronSize : R;
  samplingId : Z
}.

(** A pending [setTimeout]: the deferred start of a run, or the next
    [chunk] of a run together with the [maxAngular] its closure holds. *)
Inductive Task : Type :=
| TStart : Session -> Task
| TChunk : Session -> R -> Task.

(** The globals the sampler reads and writes.  Display buffers, inner
    orbitals, camera and overlay cache are render state and are left out. *)
Record World : Type := mkWorld {
  positions : option (list Vec3);
  sizes : option (list R);
  sampleCount : nat;
  sampleTarget : nat;
  sampling : bool;
  currentSamplingId : Z;
  lastUIHash : option UIHash;
  ui : option UIInputs;
  timers : list Task
}.

Definition setBuffers (w : World) (p : option (list Vec3)) (s : option (list R))
    (cnt : nat) : World :=
  mkWorld p s cnt (sampleTarget w) (sampling w) (currentSamplingId w)
          (lastUIHash w) (ui w) (timers w).

Definition setSampling (w : World) (b : bool) : World :=
  mkWorld (positions w) (sizes w) (sampleCount w) (sampleTarget w) b
          (currentSamplingId w) (lastUIHash w) (ui w) (timers w).

Definition addTimer (w : World) (t : Task) : World :=
  mkWorld (positions w) (sizes w) (sampleCount w) (sampleTarget w) (sampling w)
          (currentSamplingId w) (lastUIHash w) (ui w) (timers w ++ [t]).

Definition setUI (w : World) (u : option UIInputs) : World :=
  mkWorld (positions w) (sizes w) (sampleCount w) (sampleTarget w) (sampling w)
          (currentSamplingId w) (lastUIHash w) u (timers w).

(** A typed-array store: a write past the end is dropped. *)
Fixpoint store {A : Type} (i : nat) (v : A) (xs : list A) : list A :=
  match xs, i with
  | [], _ => []
  | _ :: rest, O => v :: rest
  | x :: rest, S j => x :: store j v rest
  end.

(** [pow(u, 1/3)] for a draw [u] in [0,1). *)
Definition cbrtDraw (u : R) : R := if Req_dec_T u 0 then 0 else Rpower u (1 / 3).

(** ** Chunked sampler (lines 5085-5211) *)

Section Sampler.

Variable rnd : nat -> R.

(** [for (i = 0; i < k; i++) { u = random(); if (u <= 1e-12) u = 1e-12;
    sumExp += -Math.log(u); }] *)
Fixpoint sumExpLoop (k : nat) (sumExp : R) (c : nat) : R * nat :=
  match k with
  | O => (sumExp, c)
  | S k' =>
      let '(u, c1) := random rnd c in
      let u' := if Rle_dec u (/ 10 ^ 12) then / 10 ^ 12 else u in
      sumExpLoop k' (sumExp + - ln u') c1
  end.

(** The angular sub-attempts: the accepted angles, if any. *)
Fixpoint angularTries (tries : nat) (l m : Z) (maxAngular : R) (c : nat)
  : option (R * R) * nat :=
  match tries with
  | O => (None, c)
  | S t =>
      let '(cosT, c1) := randomRange rnd (-1) 1 c in
      let thetaS := acos cosT in
      let '(phiS, c2) := randomRange rnd 0 TWO_PI c1 in
      let ang := angularProb thetaS phiS l m in
      let '(v, c3) := random rnd c2 in
      if Rlt_dec v (ang / maxAngular) then (Some (thetaS, phiS), c3)
      else angularTries t l m maxAngular c3
  end.

(** The body of the [while] loop after [attemptsThisChunk++]: the accepted
    point, or nothing when the turn ends in [continue]. *)
Definition attempt (s : Session) (maxAngular : R) (c : nat)
  : option Vec3 * nat :=
  let '(sumExp, c1) := sumExpLoop (kOf (s_l s)) 0 c in
  let r := proposedRadius (s_n s) (s_l s) sumExp in
  if Rlt_dec r minAllowed then (None, c1)
  else
    match angularTries 20 (s_l s) (s_m s) maxAngular c1 with
    | (None, c2) => (None, c2)
    | (Some (thetaS, phiS), c2) =>
        (Some (mkVec3 (r * sin thetaS * cos phiS)
                      (r * sin thetaS * sin phiS)
                      (r * cos thetaS)), c2)
    end.

(** How the [while] loop of a chunk ends. *)
Inductive LoopEnd : Type :=
| LoopAborted : World -> LoopEnd             (* [return] on a stale id *)
| LoopThrew : World -> LoopEnd               (* a store into [null] *)
| LoopDone : World -> nat -> nat -> LoopEnd. (* world, attempts left, next draw *)

(** [budget] is [ATTEMPTS_PER_CHUNK - attemptsThisChunk]. *)
Fixpoint chunkLoop (budget : nat) (s : Session) (maxAngular : R)
    (stopIndex : nat) (w : World) (c : nat) : LoopEnd :=
  if (sampleCount w <? stopIndex)%nat then
    match budget with
    | O => LoopDone w 0 c
    | S b =>
        if negb (samplingId s =? currentSamplingId w)%Z then LoopAborted w
        else
          match attempt s maxAngular c with
          | (None, c1) => chunkLoop b s maxAngular stopIndex w c1
          | (Some p, c1) =>
              match positions w, sizes w with
              | Some buf, Some sz =>
                  let w' := setBuffers w
                              (Some (store (sampleCount w) p buf))
                              (Some (store (sampleCount w) (electronSize s) sz))
                              (S (sampleCount w)) in
                  chunkLoop b s maxAngular stopIndex w' c1
              | Some buf, None =>
                  LoopThrew (setBuffers w (Some (store (sampleCount w) p buf))
                                        None (sampleCount w))
              | None, _ => LoopThrew w
              end
          end
    end
  else LoopDone w budget c.

(** One point of the fallback fill (lines 5150-5158). *)
Definition fallbackPoint (s : Session) (c : nat) : Vec3 * nat :=
  let rMax := Rmax 1 (IZR (s_n s) * IZR (s_n s) * a0 * (18 / 10)) in
  let '(u1, c1) := random rnd c in
  let rr0 := rMax * cbrtDraw u1 * radialScale (s_l s) in
  let '(rr, c2) :=
    if Rlt_dec rr0 minAllowed then
      let '(u2, c') := random rnd c1 in
      (minAllowed + (rMax - minAllowed) * cbrtDraw u2, c')
    else (rr0, c1) in
  let '(u3, c3) := randomRange rnd (-1) 1 c2 in
  let theta2 := acos u3 in
  let '(phi2, c4) := randomRange rnd 0 TWO_PI c3 in
  (mkVec3 (rr * sin theta2 * cos phi2) (rr * sin theta2 * sin phi2)
          (rr * cos theta2), c4).

(** [for (i = sampleCount; i < numSamples; i++)], [slots] being the number
    of turns. *)
Fixpoint fallbackFill (slots : nat) (s : Session) (i : nat)
    (buf : list Vec3) (sz : list R) (c : nat) : list Vec3 * list R * nat :=
  match slots with
  | O => (buf, sz, c)
  | S k =>
      let '(p, c1) := fallbackPoint s c in
      fallbackFill k s (S i) (store i p buf) (store i (electronSize s) sz) c1
  end.

(** The completion callback [createOrbitalFromUI] hands to the sampler
    (lines 4877-4885), up to the normaliser; what follows it only touches
    render state. *)
Definition onDone (s : Session) (w : World) (c : nat) : World * nat :=
  if negb (samplingId s =? currentSamplingId w)%Z then (w, c)
  else
    let w1 := setSampling w false in
    let applyNearDoubling := ((s_l s =? 2)%Z && (s_m s =? 0)%Z)%bool in
    let args :=
      mkPushArgs GLOBAL_RADIAL_PUSH EQ_RADIAL_PUSH applyNearDoubling
                 NEAR_NUCLEAR_PUSH_MULT
                 (if applyNearDoubling then Some NEAR_THRESHOLD_ABS else None)
                 (if applyNearDoubling then Some NEAR_THRESHOLD_EQ_ABS else None) in
    let '(p', c') :=
      pushElectronsOutward rnd args (positions w1) (sampleCount w1) c in
    (setBuffers w1 p' (sizes w1) (sampleCount w1), c').

(** How a call of [chunk] ends. *)
Inductive ChunkEnd : Type :=
| Aborted : ChunkEnd              (* stale id: nothing done *)
| Threw : ChunkEnd                (* uncaught TypeError *)
| Rescheduled : nat -> ChunkEnd   (* [setTimeout(chunk, delay)] *)
| FallbackFilled : ChunkEnd       (* fallback fill, then [onDone] *)
| Finished : ChunkEnd.            (* quota met, then [onDone] *)

Definition chunk (s : Session) (maxAngular : R) (w : World) (c : nat)
  : World * ChunkEnd :=
  if negb (samplingId s =? currentSamplingId w)%Z then (w, Aborted)
  else
    let stopIndex := Nat.min (numSamples s) (sampleCount w + CHUNK_SAMPLES) in
    let startCount := sampleCount w in
    match chunkLoop ATTEMPTS_PER_CHUNK s maxAngular stopIndex w c with
    | LoopAborted w1 => (w1, Aborted)
    | LoopThrew w1 => (w1, Threw)
    | LoopDone w1 budgetLeft c1 =>
        if (sampleCount w1 <? numSamples s)%nat then
          if ((budgetLeft =? 0)%nat && (sampleCount w1 =? startCount)%nat)%bool then
            match positions w1, sizes w1 with
            | Some buf, Some sz =>
                let '(buf', sz', c2) :=
                  fallbackFill (numSamples s - sampleCount w1) s
                               (sampleCount w1) buf sz c1 in
                let w2 := setBuffers w1 (Some buf') (Some sz') (numSamples s) in
                (fst (onDone s w2 c2), FallbackFilled)
            | Some buf, None =>
                let '(p, _) := fallbackPoint s c1 in
                (setBuffers w1 (Some (store (sampleCount w1) p buf)) None
                            (sampleCount w1), Threw)
            | None, _ => (w1, Threw)
            end
          else if negb (samplingId s =? currentSamplingId w1)%Z then (w1, Aborted)
          else if (budgetLeft =? 0)%nat
               then (addTimer w1 (TChunk s maxAngular), Rescheduled 10)
               else (addTimer w1 (TChunk s maxAngular), Rescheduled 0)
        else (fst (onDone s w1 c1), Finished)
    end.

(** [estimateMaxAngular(l, m, trialCount)] *)
Fixpoint estimateLoop (trials : nat) (l m : Z) (maxVal : R) (c : nat)
  : R * nat :=
  match trials with
  | O => (maxVal, c)
  | S t =>
      let '(cosT, c1) := randomRange rnd (-1) 1 c in
      let theta := acos cosT in
      let '(phi, c2) := randomRange rnd 0 TWO_PI c1 in
      let v := angularProb theta phi l m in
      estimateLoop t l m (if Rgt_dec v maxVal then v else maxVal) c2
  end.

Definition estimateMaxAngular (l m : Z) (trialCount : nat) (c : nat) : R * nat :=
  estimateLoop trialCount l m (/ 10 ^ 20) c.

Definition sampleOrbitalChunked (s : Session) (w : World) (c : nat)
  : World * ChunkEnd :=
  match numSamples s with
  | O => (fst (onDone s w c), Finished)
  | _ =>
      let '(est, c1) := estimateMaxAngular (s_l s) (s_m s) 500 c in
      chunk s (est * (12 / 10)) w c1
  end.

End Sampler.

(** ** Starting a session (lines 4787-4876) *)

(** The five values after the input guards of lines 4799-4821. *)
Definition guardedN (u : UIInputs) : Z :=
  match nInput u with
  | Some v => if (v <? 1)%Z then 1%Z else v
  | None => 1%Z
  end.

Definition guardedL (u : UIInputs) : Z :=
  match lInput u with
  | Some v => if (v <? 0)%Z then 0%Z else v
  | None => 0%Z
  end.

Definition guardedM (u : UIInputs) : Z :=
  match mInput u with
  | Some v => v
  | None => 0%Z
  end.

Definition guardedSize (u : UIInputs) : R :=
  match electronSizeInput u with
  | Some v => if Rle_dec v 0 then 1 else v
  | None => 1
  end.

Definition guardedCount (u : UIInputs) : Z :=
  let ne :=
    match numElectronsInput u with
    | Some v => if (v <? 0)%Z then 0%Z else v
    | None => 0%Z
    end in
  if (ne >? MAX_ELECTRONS)%Z then MAX_ELECTRONS else ne.

Definition createOrbitalFromUI (w : World) : World :=
  match ui w with
  | None => w
  | Some u =>
      let n := guardedN u in
      let l := guardedL u in
      let m := guardedM u in
      let size := guardedSize u in
      let numElectrons := guardedCount u in
      (* the guards write the replaced values back into the inputs *)
      let w1 := setUI w (Some (mkUIInputs (Some n) (Some l) (Some m) (Some size)
                                          (Some numElectrons) (orbitalMode u))) in
      if (l >=? n)%Z then w1
      else if (Z.abs m >? l)%Z then w1
      else
        let uiHash := mkUIHash n l m size numElectrons (orbitalMode u) in
        let same :=
          match lastUIHash w1 with
          | Some h => uiHashEqb uiHash h
          | None => false
          end in
        if same then w1
        else if (numElectrons =? 0)%Z then
          mkWorld None None 0 0 false (currentSamplingId w1) (Some uiHash)
                  (ui w1) (timers w1)
        else
          let mySamplingId := (currentSamplingId w1 + 1)%Z in
          let cnt := Z.to_nat numElectrons in
          mkWorld (Some (repeat origin cnt)) (Some (repeat 0 cnt)) 0 cnt true
                  mySamplingId (Some uiHash) (ui w1)
                  (timers w1 ++ [TStart (mkSession n l m cnt size mySamplingId)])
  end.

(** [onNumChanged(0)] (lines 2751-2765): the count field was emptied. *)
Definition clearSamples (w : World) : World :=
  mkWorld None None 0 0 false (currentSamplingId w) (lastUIHash w) (ui w)
          (timers w).

(** ** The cooperative schedule *)

(** What can happen next: the inputs change and a session is requested, the
    count is emptied, or one pending timer fires and draws from [rnd]. *)
Inductive Event : Type :=
| EvRequest : UIInputs -> Event
| EvClear : Event
| EvFire : nat -> (nat -> R) -> Event.

Fixpoint dropNth {A : Type} (i : nat) (xs : list A) : list A :=
  match xs, i with
  | [], _ => []
  | _ :: rest, O => rest
  | x :: rest, S j => x :: dropNth j rest
  end.

Definition setTimers (w : World) (ts : list Task) : World :=
  mkWorld (positions w) (sizes w) (sampleCount w) (sampleTarget w) (sampling w)
          (currentSamplingId w) (lastUIHash w) (ui w) ts.

Definition runTask (rnd : nat -> R) (t : Task) (w : World) : World * ChunkEnd :=
  match t with
  | TStart s => sampleOrbitalChunked rnd s w 0
  | TChunk s maxAngular => chunk rnd s maxAngular w 0
  end.

Definition step (w : World) (ev : Event) : World :=
  match ev with
  | EvRequest u => createOrbitalFromUI (setUI w (Some u))
  | EvClear => clearSamples w
  | EvFire i rnd =>
      match nth_error (timers w) i with
      | None => w
      | Some t => fst (runTask rnd t (setTimers w (dropNth i (timers w))))
      end
  end.

Definition run (w : World) (evs : list Event) : World := fold_left step evs w.

(** Whether running a task invoked the completion callback. *)
Definition firedCallback (e : ChunkEnd) : bool :=
  match e with
  | FallbackFilled | Finished => true
  | _ => false
  end.

Definition taskSession (t : Task) : Session :=
  match t with
  | TStart s => s
  | TChunk s _ => s
  end.

(** ** Auxiliary definitions used by the statements *)

(** What a point within [EPS] of the origin is replaced by. *)
Definition reseeded (rnd : nat -> R) (a : PushArgs) (eqThreshold : R) (p : Vec3) (c : nat) : Vec3 :=
  if applyNearMultiplier a then
    let isEquatorial := if Rle_dec (Rabs (vz p)) eqThreshold then true else false in
    let factor0 := if isEquatorial then equatorialFactor a else globalFactor a in
    let '(factor, target) :=
      if isEquatorial && (if Rle_dec (r3D p) (nearEqThresholdOf a) then true else false)
      then (factor0 * nearMultiplier a, Rmax minAllowed (nearEqThresholdOf a))
      else if negb isEquatorial
              && (if Rle_dec (r3D p) (nearThresholdOf a) then true else false)
      then (factor0 * nearMultiplier a, Rmax minAllowed (nearThresholdOf a))
      else (factor0, minAllowed) in
    let ang := rnd c * (TWO_PI - 0) + 0 in
    let newR := Rmax target (5 / 10 * factor) in
    mkVec3 (cos ang * newR) (sin ang * newR) 0
  else
    let theta := acos (rnd c * (1 - -1) + -1) in
    let phi := rnd (S c) * (TWO_PI - 0) + 0 in
    mkVec3 (minAllowed * sin theta * cos phi) (minAllowed * sin theta * sin phi)
           (minAllowed * cos theta).

(** The arguments [pushElectronsOutward] receives for every orbital other
    than dz2 (line 4885 with [applyNearDoubling = false]). *)
Definition plainPushArgs : PushArgs :=
  mkPushArgs GLOBAL_RADIAL_PUSH EQ_RADIAL_PUSH false NEAR_NUCLEAR_PUSH_MULT
             None None.

(** A generator whose every draw is 1/2. *)
Definition halfDraws : nat -> R := fun _ => 1 / 2.

(** A point off the origin, but within [EPS] of it. *)
Definition nearOriginPoint : Vec3 := mkVec3 (/ 10 ^ 7) 0 0.

(** Eight samples on the x axis at distance 25 from the nucleus. *)
Definition eightOnX : list Vec3 := repeat (mkVec3 25 0 0) 8.

(** A stand-in for the clustered-lobes fit where a concrete run needs one. *)
Definition noClusteredFit : list Vec3 -> nat -> unit * nat := fun _ c => (tt, c).



(** The alignment of a lobe with the x axis: [Math.abs(ax[0])]. *)
Definition xAlignment (lobe : PLobe) : R := Rabs (vx (axisUnit lobe)).

(** The globals as the script declares them (lines 1698-1853), before the
    inputs exist. *)
Definition initialWorld : World :=
  mkWorld None None 0 0 false 0 None None [].

(** Whether (n, l, m) violates 1 <= n, 0 <= l < n, |m| <= l. *)
Definition invalidQuantum (n l m : Z) : Prop :=
  (n < 1 \/ l < 0 \/ l >= n \/ Z.abs m > l)%Z.

(** A request for 100 points of the state (0, 0, 0), and its world. *)
Definition zeroShellInputs : UIInputs :=
  mkUIInputs (Some 0%Z) (Some 0%Z) (Some 0%Z) (Some 1) (Some 100%Z) "basic".

(** A request for two points of the state (1, 1, 0). *)
Definition badSubshellInputs : UIInputs :=
  mkUIInputs (Some 1%Z) (Some 1%Z) (Some 0%Z) (Some 1) (Some 2%Z) "basic".

(** A request for 40000 points of the 1s state. *)
Definition hugeCountInputs : UIInputs :=
  mkUIInputs (Some 1%Z) (Some 0%Z) (Some 0%Z) (Some 1) (Some 40000%Z) "basic".

(** Whether a call of [createOrbitalFromUI] started a session. *)
Definition startedSession (before after : World) : Prop :=
  currentSamplingId after = (currentSamplingId before + 1)%Z.

Definition bufferSize (w : World) : nat :=
  match positions w with
  | Some buf => length buf
  | None => 0
  end.

(** The hash, the inputs as written back and the freshness test of a call
    that passes every guard. *)
Definition uiHashOf (u : UIInputs) : UIHash :=
  mkUIHash (guardedN u) (guardedL u) (guardedM u) (guardedSize u)
           (guardedCount u) (orbitalMode u).

Definition guardedInputs (u : UIInputs) : UIInputs :=
  mkUIInputs (Some (guardedN u)) (Some (guardedL u)) (Some (guardedM u))
             (Some (guardedSize u)) (Some (guardedCount u)) (orbitalMode u).

Definition hashIsNew (w : World) (u : UIInputs) : Prop :=
  match lastUIHash w with
  | Some h => uiHashEqb (uiHashOf u) h = false
  | None => True
  end.

(** Two worlds that differ at most in the content of the buffers, the sample
    count and the [sampling] flag. *)
Definition sameControl (w w' : World) : Prop :=
  currentSamplingId w' = currentSamplingId w
  /\ sampleTarget w' = sampleTarget w
  /\ lastUIHash w' = lastUIHash w
  /\ ui w' = ui w
  /\ bufferSize w' = bufferSize w.

(** What holds of every world the schedule can reach: the buffer and the
    target stay within [MAX_ELECTRONS], and every pending timer belongs to a
    session that asked for at least one sample and was started no later than
    the current one. *)
Definition taskOk (current : Z) (t : Task) : Prop :=
  numSamples (taskSession t) <> 0%nat
  /\ (samplingId (taskSession t) <= current)%Z.

Definition reachableInv (w : World) : Prop :=
  (bufferSize w <= Z.to_nat MAX_ELECTRONS)%nat
  /\ (sampleTarget w <= Z.to_nat MAX_ELECTRONS)%nat
  /\ Forall (taskOk (currentSamplingId w)) (timers w).

(** Two successive requests: two points of 1s, then two points of 2p. *)
Definition firstInputs : UIInputs :=
  mkUIInputs (Some 1%Z) (Some 0%Z) (Some 0%Z) (Some 1) (Some 2%Z) "basic".

Definition secondInputs : UIInputs :=
  mkUIInputs (Some 2%Z) (Some 1%Z) (Some 0%Z) (Some 1) (Some 2%Z) "basic".

(** The session the first of them starts from the initial world. *)
Definition firstSession : Session := mkSession 1 0 0 2 1 1.

(** A generator whose every draw is 9/10. *)
Definition highDraws : nat -> R := fun _ => 9 / 10.

(** A generator that draws 1/10 six times, from its 1000th draw on, and 9/10
    at every other draw. *)
Definition oneHitDraws : nat -> R :=
  fun j => if ((1000 <=? j)%nat && (j <? 1006)%nat)%bool then 1 / 10 else 9 / 10.

(** The world right after the first request, its start timer taken off the
    queue. *)
Definition firstWorld : World :=
  mkWorld (Some (repeat origin 2)) (Some (repeat 0 2)) 0 2 true 1
          (Some (uiHashOf firstInputs)) (Some (guardedInputs firstInputs)) [].

(** The bound on the radius of a fallback point: [rMax] times the largest
    radial scale. *)
Definition fallbackCutoff (n : Z) : R :=
  ELECTRON_DISTANCE_MULTIPLIER * (IZR n * IZR n * a0 * (18 / 10)).

(** The buffer right after the fallback fill of a chunk, before the
    completion callback normalises it. *)
Definition filledBuffer (rnd : nat -> R) (s : Session) (w : World)
    (buf : list Vec3) (sz : list R) (c : nat) : list Vec3 :=
  fst (fst (fallbackFill rnd (numSamples s - sampleCount w) s (sampleCount w)
                         buf sz c)).

(** The envelope [estimateMaxAngular(0, 0, 500) * 1.2] of an s orbital. *)
Definition sEnvelope : R := (1 + / 10 ^ 30) * (12 / 10).

(** * Further functions of the script *)

From Stdlib Require Import Sorted Permutation.

(** ** Vector helpers (lines 2014-2037 and 5447-5450) *)

Definition dot (a b : Vec3) : R := vx a * vx b + vy a * vy b + vz a * vz b.

Definition cross (a b : Vec3) : Vec3 :=
  mkVec3 (vy a * vz b - vz a * vy b)
         (vz a * vx b - vx a * vz b)
         (vx a * vy b - vy a * vx b).

(** [normalizeVec3] and [_overlayNormalize] share this body. *)
Definition normalizeVec3 (v : Vec3) : Vec3 :=
  let len := orOne (r3D v) in
  mkVec3 (vx v / len) (vy v / len) (vz v / len).

Definition makePerpBasis (axisUnit : Vec3) : Vec3 * Vec3 :=
  let arbitrary :=
    if Rlt_dec (Rabs (vx axisUnit)) (9 / 10) then mkVec3 1 0 0 else mkVec3 0 1 0 in
  let v1raw := cross axisUnit arbitrary in
  let v1len := orOne (r3D v1raw) in
  let v1 := mkVec3 (vx v1raw / v1len) (vy v1raw / v1len) (vz v1raw / v1len) in
  let v2raw := cross axisUnit v1 in
  let v2len := orOne (r3D v2raw) in
  let v2 := mkVec3 (vx v2raw / v2len) (vy v2raw / v2len) (vz v2raw / v2len) in
  (v1, v2).

(** ** Torus tessellation (lines 3169-3184) *)

Definition APP_SAFE_MAX_TORUS_U : Z := 768.
Definition APP_SAFE_MAX_TORUS_V : Z := 384.
Definition MAX_TORUS_VERTEX_COUNT : Z := 200000.

(** [Math.round]: the nearest integer, halves going up. *)
Definition jsRound (x : R) : Z := Zfloor (x + 5 / 10).

Definition computeTorusSegments (majorR tubeR : R) : Z * Z :=
  let u0 := Z.max 8 (Z.min APP_SAFE_MAX_TORUS_U
                           (jsRound (256 * Rmax (4 / 10) (majorR / 200)))) in
  let v0 := Z.max 4 (Z.min APP_SAFE_MAX_TORUS_V
                           (jsRound (64 * Rmax (5 / 10) (tubeR / 6)))) in
  let prod := (u0 * v0)%Z in
  let '(u1, v1) :=
    if (prod >? MAX_TORUS_VERTEX_COUNT)%Z then
      let scale := sqrt (IZR MAX_TORUS_VERTEX_COUNT / IZR prod) in
      (Z.max 8 (Zfloor (IZR u0 * scale)), Z.max 4 (Zfloor (IZR v0 * scale)))
    else (u0, v0) in
  (Z.max 8 (Z.min APP_SAFE_MAX_TORUS_U u1), Z.max 4 (Z.min APP_SAFE_MAX_TORUS_V v1)).

(** The squared length of a vector. *)
Definition normSq (p : Vec3) : R := vx p * vx p + vy p * vy p + vz p * vz p.

(** The direction the [i]-th trial of [estimateMaxAngular] evaluates when
    the first draw of the call has index [c]. *)
Definition trialTheta (rnd : nat -> R) (c i : nat) : R :=
  acos (rnd (c + 2 * i)%nat * (1 - -1) + -1).

Definition trialPhi (rnd : nat -> R) (c i : nat) : R :=
  rnd (c + 2 * i + 1)%nat * (TWO_PI - 0) + 0.


(** ** Driving a session to its end *)

(** The oldest pending timer fires, drawing from [rnd]. *)
Definition fireHead (w : World) (rnd : nat -> R) : World := step w (EvFire 0 rnd).

(** It fires once for each generator of the list. *)
Definition fireAll (w : World) (rnds : list (nat -> R)) : World :=
  fold_left fireHead rnds w.

(** A point keeps the clearance from the nucleus. *)
Definition clear (p : Vec3) : Prop := minAllowed <= r3D p.

(** The session [s] has ended: the count is the requested one, the
    [sampling] flag is down, nothing is pending and every sample keeps the
    clearance. *)
Definition sessionDone (s : Session) (w : World) : Prop :=
  sampleCount w = numSamples s
  /\ sampling w = false
  /\ timers w = []
  /\ exists pts, positions w = Some pts
                 /\ Forall clear (firstn (numSamples s) pts).

(** A chunk of the current session may run on [w]: the buffers are
    allocated and the count has not passed the request. *)
Definition chunkReady (s : Session) (w : World) : Prop :=
  samplingId s = currentSamplingId w
  /\ (exists buf, positions w = Some buf)
  /\ (exists sz, sizes w = Some sz)
  /\ (sampleCount w <= numSamples s)%nat.


(** A request for no point at all, for the 1s orbital. *)
Definition zeroCountInputs : UIInputs :=
  mkUIInputs (Some 1%Z) (Some 0%Z) (Some 0%Z) (Some 1) (Some 0%Z) "basic".

(** ** What every reachable world looks like *)

(** The two buffers are both null with nothing counted, or both allocated
    with exactly [sampleTarget] slots of which [sampleCount] are written. *)
Definition bufferShape (w : World) : Prop :=
  match positions w, sizes w with
  | Some buf, Some sz =>
      length buf = sampleTarget w /\ length sz = sampleTarget w
      /\ (sampleCount w <= sampleTarget w)%nat
  | None, None => sampleCount w = 0%nat /\ sampleTarget w = 0%nat
  | _, _ => False
  end.

(** A pending task of the current session was started for the current
    buffer. *)
Definition taskFits (w : World) (t : Task) : Prop :=
  samplingId (taskSession t) = currentSamplingId w ->
  positions w <> None ->
  numSamples (taskSession t) = sampleTarget w.

(** With the [sampling] flag down, an allocated buffer is full and
    normalised. *)
Definition settled (w : World) : Prop :=
  sampling w = false ->
  forall buf, positions w = Some buf ->
              sampleCount w = sampleTarget w
              /\ Forall clear (firstn (sampleCount w) buf).

Definition coherent (w : World) : Prop :=
  bufferShape w /\ settled w /\ Forall (taskFits w) (timers w).

(** A request for two points of 1s, served by two timer firings. *)
Definition servedSchedule : list Event :=
  EvRequest firstInputs :: map (EvFire 0) [halfDraws; halfDraws].

(** The factor of the normaliser for a point, outside the near-nucleus
    mode: [isEquatorial ? equatorialFactor : globalFactor]. *)
Definition pushFactor (a : PushArgs) (eqThreshold : R) (p : Vec3) : R :=
  if Rle_dec (Rabs (vz p)) eqThreshold then equatorialFactor a
  else globalFactor a.

(** Three buffer slots of which the first two are written: one point on the
    axis, one in the equatorial plane, and a slot still at the origin. *)
Definition twoWritten : list Vec3 :=
  [mkVec3 0 0 30; mkVec3 40 0 0; origin].

(** A lobe the renderer can draw: both extents at least 0.01 and an axis
    that is a unit vector (or the zero vector, for a cluster centred on the
    nucleus). *)
Definition wellFormedLobe (lobe : PLobe) : Prop :=
  / 100 <= t95 lobe /\ / 100 <= r95 lobe
  /\ (r3D (axisUnit lobe) = 1 \/ r3D (axisUnit lobe) = 0).

(** Two centroids on the x axis, one on each side of the nucleus. *)
Definition twoCentroids : list Vec3 := [mkVec3 30 0 0; mkVec3 (-30) 0 0].

(** ** Input validation (lines 2751-2820) *)

(** [parseInt(...) || d] *)
Definition orElse (v : option Z) (d : Z) : Z :=
  match v with
  | Some x => if (x =? 0)%Z then d else x
  | None => d
  end.

(** The values [inputChangedHandler] leaves in the input fields: each field
    is read, and written back only where the check fails; the checks of l
    and m read the fields already rewritten. *)
Definition inputChangedHandler (u : UIInputs) : UIInputs :=
  let nField :=
    match nInput u with
    | Some n => if (n <? 1)%Z then Some 1%Z else Some n
    | None => Some 1%Z
    end in
  let lField :=
    let n := Z.max 1 (orElse nField 1) in
    let f1 :=
      match lInput u with
      | Some l => if (l <? 0)%Z then Some 0%Z else Some l
      | None => Some 0%Z
      end in
    match lInput u with
    | Some l => if (l >? n - 1)%Z then Some (Z.max 0 (n - 1)) else f1
    | None => f1
    end in
  let mField :=
    let l := Z.max 0 (orElse lField 0) in
    match mInput u with
    | Some m => if (Z.abs m >? l)%Z then Some 0%Z else Some m
    | None => Some 0%Z
    end in
  let neField :=
    match numElectronsInput u with
    | Some ne =>
        let ne1 := if (ne <? 0)%Z then 0%Z else ne in
        Some (if (ne1 >? MAX_ELECTRONS)%Z then MAX_ELECTRONS else ne1)
    | None => Some 0%Z
    end in
  mkUIInputs nField lField mField (electronSizeInput u) neField (orbitalMode u).

(** ** Inner orbitals (lines 1765-1768 and 1937-1989) *)

(** [{ n, l, m }] *)
Record QState : Type := mkQState { q_n : Z; q_l : Z; q_m : Z }.

Definition AUFBAU_ORDER : list (Z * Z) :=
  [(1, 0); (2, 0); (2, 1); (3, 0); (3, 1); (4, 0); (3, 2); (4, 1); (5, 0);
   (4, 2); (5, 1); (6, 0); (4, 3); (5, 2); (6, 1); (7, 0); (5, 3); (6, 2);
   (7, 1)]%Z.

(** The values of [for (v = lo; v < hi; v++)]. *)
Definition zRange (lo hi : Z) : list Z :=
  map (fun i => (lo + Z.of_nat i)%Z) (seq 0 (Z.to_nat (hi - lo))).

(** [for (let m = -l; m <= l; m++) orbitals.push({ n, l, m })] *)
Definition subshell (n l : Z) : list QState :=
  map (fun m => mkQState n l m) (zRange (- l) (l + 1)).

Definition getAllInnerOrbitalsSimple (targetN targetL targetM : Z)
  : list QState :=
  flat_map (fun n => flat_map (fun l => subshell n l) (zRange 0 n))
           (zRange 1 targetN)
  ++ flat_map (fun l => subshell targetN l) (zRange 0 targetL)
  ++ [mkQState targetN targetL targetM].

(** The search for the target in the filling order; [i] is the index of the
    head of [order]. *)
Fixpoint findTarget (order : list (Z * Z)) (i : nat) (targetN targetL : Z)
  : option nat :=
  match order with
  | [] => None
  | (n, l) :: rest =>
      if ((n =? targetN) && (l =? targetL))%Z%bool then Some i
      else findTarget rest (S i) targetN targetL
  end.

(** [for (let i = 0; i <= targetIndex; i++)] over the filling order. *)
Fixpoint aufbauLoop (order : list (Z * Z)) (i targetIndex : nat)
    (targetN targetL targetM : Z) : list QState :=
  match order with
  | [] => []
  | (n, l) :: rest =>
      if (targetIndex <? i)%nat then []
      else
        (if (n >? targetN)%Z then []
         else if (i <? targetIndex)%nat then subshell n l
              else [mkQState targetN targetL targetM])
        ++ aufbauLoop rest (S i) targetIndex targetN targetL targetM
  end.

Definition getAllInnerOrbitalsAufbau (targetN targetL targetM : Z)
  : list QState :=
  match findTarget AUFBAU_ORDER 0 targetN targetL with
  | None => getAllInnerOrbitalsSimple targetN targetL targetM
  | Some targetIndex =>
      aufbauLoop AUFBAU_ORDER 0 targetIndex targetN targetL targetM
  end.

(** Whether every entry of the filling order is a valid subshell and the
    entries before an entry that are not of a higher shell are of a lower
    shell, or of the same shell and a lower subshell. *)
Fixpoint orderedBefore (order : list (Z * Z)) : bool :=
  match order with
  | [] => true
  | (n, l) :: rest =>
      ((1 <=? n) && (0 <=? l) && (l <? n))%Z
      && forallb (fun '(n', l') =>
                    ((n' <? n) || (n <? n') || ((n' =? n) && (l <? l')))%Z)
                 rest
      && orderedBefore rest
  end.

(** ** Inner orbital objects (lines 2338-2361 and 4937-5083) *)

Definition MAX_INNER_ELECTRONS : Z := 8000.

(** The fields of an [Orbital] the sampler reads and writes. *)
Record Orbital : Type := mkOrbital {
  o_n : Z;
  o_l : Z;
  o_m : Z;
  electronCount : Z;
  o_electronSize : R;
  o_positions : option (list Vec3);
  o_sizes : option (list R);
  o_sampleCount : nat;
  distanceScale : R
}.

Definition calculateDistanceScale (n : Z) : R :=
  ELECTRON_DISTANCE_MULTIPLIER * (7 / 10 + 2 / 10 * IZR n).

(** [new Orbital(n, l, m, electronCount, electronSize)] *)
Definition newOrbital (n l m electronCount : Z) (electronSize : R) : Orbital :=
  mkOrbital n l m electronCount electronSize None None 0
            (calculateDistanceScale n).

Section ObjectSampler.

Variable rnd : nat -> R.

(** One turn of the [while] loop of [sampleOrbitalForObject] after
    [attempts++]. *)
Definition objAttempt (orbital : Orbital) (maxAngular : R) (c : nat)
  : option Vec3 * nat :=
  let thetaScale := IZR (o_n orbital) * a0 / (25 / 10) in
  let radialScale := radialLScale (o_l orbital) * distanceScale orbital in
  let '(sumExp, c1) := sumExpLoop rnd (kOf (o_l orbital)) 0 c in
  let r := thetaScale * sumExp * radialScale in
  if Rlt_dec r minAllowed then (None, c1)
  else
    match angularTries rnd 10 (o_l orbital) (o_m orbital) maxAngular c1 with
    | (None, c2) => (None, c2)
    | (Some (thetaS, phiS), c2) =>
        (Some (mkVec3 (r * sin thetaS * cos phiS)
                      (r * sin thetaS * sin phiS)
                      (r * cos thetaS)), c2)
    end.

(** How the [while] loop ends: by [return] on a stale id, or by its
    condition, with the buffers, the count and the next draw. *)
Inductive ObjLoopEnd : Type :=
| ObjReturned : list Vec3 -> list R -> ObjLoopEnd
| ObjDone : list Vec3 -> list R -> nat -> nat -> ObjLoopEnd.

(** [budget] is [maxAttempts - attempts]; [stale] is
    [samplingId !== currentSamplingId]. *)
Fixpoint objLoop (budget : nat) (stale : bool) (orbital : Orbital)
    (maxAngular : R) (numSamples : nat) (buf : list Vec3) (sz : list R)
    (sampleCount c : nat) : ObjLoopEnd :=
  if (sampleCount <? numSamples)%nat then
    match budget with
    | O => ObjDone buf sz sampleCount c
    | S b =>
        if stale then ObjReturned buf sz
        else
          match objAttempt orbital maxAngular c with
          | (None, c1) =>
              objLoop b stale orbital maxAngular numSamples buf sz sampleCount c1
          | (Some p, c1) =>
              objLoop b stale orbital maxAngular numSamples
                      (store sampleCount p buf)
                      (store sampleCount (o_electronSize orbital) sz)
                      (S sampleCount) c1
          end
    end
  else ObjDone buf sz sampleCount c.

(** One point of the fallback fill. *)
Definition objFallbackPoint (orbital : Orbital) (c : nat) : Vec3 * nat :=
  let radialScale := radialLScale (o_l orbital) * distanceScale orbital in
  let rMax := Rmax 1 (IZR (o_n orbital) * IZR (o_n orbital) * a0 * (14 / 10)) in
  let '(u1, c1) := random rnd c in
  let rr0 := rMax * cbrtDraw u1 * radialScale in
  let '(rr, c2) :=
    if Rlt_dec rr0 minAllowed then
      let '(u2, c') := random rnd c1 in
      (minAllowed + (rMax - minAllowed) * cbrtDraw u2, c')
    else (rr0, c1) in
  let '(u3, c3) := randomRange rnd (-1) 1 c2 in
  let theta2 := acos u3 in
  let '(phi2, c4) := randomRange rnd 0 TWO_PI c3 in
  (mkVec3 (rr * sin theta2 * cos phi2) (rr * sin theta2 * sin phi2)
          (rr * cos theta2), c4).

Fixpoint objFallbackFill (slots : nat) (orbital : Orbital) (i : nat)
    (buf : list Vec3) (sz : list R) (c : nat) : list Vec3 * list R * nat :=
  match slots with
  | O => (buf, sz, c)
  | S k =>
      let '(p, c1) := objFallbackPoint orbital c in
      objFallbackFill k orbital (S i) (store i p buf)
                      (store i (o_electronSize orbital) sz) c1
  end.

(** One turn of the closing push loop. *)
Definition objPushPoint (p : Vec3) (c : nat) : Vec3 * nat :=
  let globalFactor := GLOBAL_RADIAL_PUSH * (95 / 100) in
  if Rle_dec (r3D p) EPS then
    let '(ang, c1) := randomRange rnd 0 TWO_PI c in
    let newR := Rmax minAllowed (5 / 10 * globalFactor) in
    (mkVec3 (cos ang * newR) (sin ang * newR) 0, c1)
  else
    let newR3D := Rmax minAllowed (r3D p * globalFactor) in
    (scaleVec (newR3D / r3D p) p, c).

Fixpoint objPushLoop (count : nat) (pts : list Vec3) (c : nat)
  : list Vec3 * nat :=
  match count, pts with
  | S k, p :: rest =>
      let '(p', c1) := objPushPoint p c in
      let '(rest', c2) := objPushLoop k rest c1 in
      (p' :: rest', c2)
  | _, _ => (pts, c)
  end.

(** [sampleOrbitalForObject(orbital, samplingId)], run while the global
    counter is [currentSamplingId]. *)
Definition sampleOrbitalForObject (orbital : Orbital)
    (samplingId currentSamplingId : Z) (c : nat) : Orbital * nat :=
  if (electronCount orbital <=? 0)%Z then (orbital, c)
  else
    let numSamples := Z.to_nat (electronCount orbital) in
    let allocated (pos : list Vec3) (sz : list R) (count : nat) :=
      mkOrbital (o_n orbital) (o_l orbital) (o_m orbital)
                (electronCount orbital) (o_electronSize orbital)
                (Some pos) (Some sz) count (distanceScale orbital) in
    let '(est, c1) :=
      estimateMaxAngular rnd (o_l orbital) (o_m orbital) 500 c in
    let maxAngular := est * (12 / 10) in
    let stale := negb (samplingId =? currentSamplingId)%Z in
    match objLoop (ATTEMPTS_PER_CHUNK * 5) stale orbital maxAngular numSamples
                  (repeat origin numSamples) (repeat 0 numSamples) 0 c1 with
    | ObjReturned buf sz => (allocated buf sz 0%nat, c1)
    | ObjDone buf sz sampleCount c2 =>
        let '(buf1, sz1, count1, c3) :=
          if (sampleCount <? numSamples)%nat then
            let '(b, s, c') :=
              objFallbackFill (numSamples - sampleCount) orbital sampleCount
                              buf sz c2 in
            (b, s, numSamples, c')
          else (buf, sz, sampleCount, c2) in
        let '(buf2, c4) := objPushLoop count1 buf1 c3 in
        (allocated buf2 sz1 count1, c4)
    end.

(** The electron count [createAllInnerOrbitals] gives the state [q].  The
    products under [Math.floor] are exact here, while the script forms them
    in doubles: where the exact product is an integer the double one can
    fall just below it and the floor be one less (1285 * 1.4 floors to 1799
    here and to 1798 in the script).  The range of the count is the same
    for both; no statement below depends on an exact count. *)
Definition innerElectronCount (outerN outerL outerM numElectrons : Z)
    (totalOrbitals : nat) (q : QState) : Z :=
  let baseElectronCount :=
    Z.max 800 (Zfloor (IZR numElectrons * (15 / 10) / INR totalOrbitals)) in
  let shellDistance := (outerN - q_n q)%Z in
  let isMainOrbital :=
    ((q_n q =? outerN) && (q_l q =? outerL) && (q_m q =? outerM))%Z%bool in
  let raw :=
    if isMainOrbital then
      Z.min MAX_INNER_ELECTRONS (Zfloor (IZR numElectrons * (25 / 100)))
    else
      let scaleFactor :=
        if (shellDistance =? 0)%Z then 12 / 10
        else if (shellDistance =? 1)%Z then 14 / 10
        else if (shellDistance =? 2)%Z then 16 / 10
        else 18 / 10 in
      let scaled := Zfloor (IZR baseElectronCount * scaleFactor) in
      if (q_n q =? 1)%Z then Zfloor (IZR scaled * 2)
      else if (q_n q =? 2)%Z then Zfloor (IZR scaled * (15 / 10))
      else scaled in
  Z.max 800 (Z.min raw MAX_INNER_ELECTRONS).

(** The loop of [createAllInnerOrbitals] over the listed states: each
    orbital is sampled and pushed onto [innerOrbitals]. *)
Fixpoint createInnerLoop (states : list QState)
    (outerN outerL outerM numElectrons : Z) (totalOrbitals : nat)
    (electronSize : R) (samplingId currentSamplingId : Z)
    (innerOrbitals : list Orbital) (c : nat) : list Orbital * nat :=
  match states with
  | [] => (innerOrbitals, c)
  | q :: rest =>
      let innerCount :=
        innerElectronCount outerN outerL outerM numElectrons totalOrbitals q in
      if (innerCount <=? 0)%Z then
        createInnerLoop rest outerN outerL outerM numElectrons totalOrbitals
                        electronSize samplingId currentSamplingId
                        innerOrbitals c
      else
        let orbital := newOrbital (q_n q) (q_l q) (q_m q) innerCount electronSize in
        let '(sampled, c1) :=
          sampleOrbitalForObject orbital samplingId currentSamplingId c in
        createInnerLoop rest outerN outerL outerM numElectrons totalOrbitals
                        electronSize samplingId currentSamplingId
                        (innerOrbitals ++ [sampled]) c1
  end.

Definition createAllInnerOrbitals (outerN outerL outerM numElectrons : Z)
    (electronSize : R) (samplingId currentSamplingId : Z)
    (innerOrbitals : list Orbital) (c : nat) : list Orbital * nat :=
  let allOrbitals := getAllInnerOrbitalsAufbau outerN outerL outerM in
  createInnerLoop allOrbitals outerN outerL outerM numElectrons
                  (length allOrbitals) electronSize samplingId
                  currentSamplingId innerOrbitals c.

End ObjectSampler.

(** An orbital whose sampling ran to the end: as many points as electrons,
    each outside the clearance. *)
Definition fullySampled (o : Orbital) : Prop :=
  o_sampleCount o = Z.to_nat (electronCount o)
  /\ exists pts sz,
       o_positions o = Some pts /\ o_sizes o = Some sz
       /\ length pts = o_sampleCount o /\ length sz = o_sampleCount o
       /\ Forall clear pts.

(** An orbital whose sampling returned at once: buffers allocated and
    zeroed, nothing counted. *)
Definition leftEmpty (o : Orbital) : Prop :=
  o_sampleCount o = 0%nat
  /\ o_positions o = Some (repeat origin (Z.to_nat (electronCount o)))
  /\ o_sizes o = Some (repeat 0 (Z.to_nat (electronCount o))).

(** What an orbital created for the state [q] looks like after
    [createAllInnerOrbitals]. *)
Definition createdFor (samplingId currentSamplingId : Z) (q : QState)
    (o : Orbital) : Prop :=
  o_n o = q_n q /\ o_l o = q_l q /\ o_m o = q_m q
  /\ (800 <= electronCount o <= MAX_INNER_ELECTRONS)%Z
  /\ (samplingId = currentSamplingId -> fullySampled o)
  /\ (samplingId <> currentSamplingId -> leftEmpty o).

(** ** View helpers (lines 5269-5341) *)

Definition VIEW_MARGIN : R := 92 / 100.

(** [if (r > maxR) maxR = r] over the points scanned. *)
Definition maxRadius (maxR : R) (pts : list Vec3) : R :=
  fold_left (fun acc p => if Rgt_dec (r3D p) acc then r3D p else acc) pts maxR.

Definition computeAxisMax (positions : option (list Vec3)) (sampleCount : nat)
    (innerOrbitals : list Orbital) : R :=
  let maxR1 :=
    match positions, sampleCount with
    | Some pts, S _ =>
        let n := sampleCount in
        let sampleCountMax := Nat.min n (100 * 1000) in
        let step := Nat.max 1 (n / sampleCountMax) in
        maxRadius NUCLEUS_RADIUS (everyNth step 0 (firstn n pts))
    | _, _ => NUCLEUS_RADIUS
    end in
  let maxR2 :=
    fold_left
      (fun acc orbital =>
         match o_positions orbital, o_sampleCount orbital with
         | Some pts, S _ =>
             let innerStep := Nat.max 1 (o_sampleCount orbital / (10 * 1000)) in
             maxRadius acc (everyNth innerStep 0
                                     (firstn (o_sampleCount orbital) pts))
         | _, _ => acc
         end)
      innerOrbitals maxR1 in
  Rmax (maxR2 * (102 / 100)) 120.

(** The two zoom globals. *)
Record Camera : Type := mkCamera { camZoom : R; camZoomTarget : R }.

(** p5's [constrain(x, lo, hi)] *)
Definition constrain (x lo hi : R) : R := Rmax (Rmin x hi) lo.

Definition fitViewToAxisLen (windowWidth windowHeight : R) (axisLen : R)
    (immediate allowZoomIn : bool) (cam : Camera) : Camera :=
  if Rle_dec axisLen 0 then cam
  else
    let halfScreen := Rmin windowWidth windowHeight * (5 / 10) in
    let targetZoom := constrain (halfScreen * VIEW_MARGIN / axisLen) (/ 100) 40 in
    let newTarget :=
      if negb allowZoomIn && (if Rgt_dec targetZoom (camZoomTarget cam)
                              then true else false)
      then camZoomTarget cam else targetZoom in
    if immediate then mkCamera newTarget newTarget
    else mkCamera (camZoom cam) newTarget.

Definition fitViewToPoints (windowWidth windowHeight : R)
    (positions : option (list Vec3)) (sampleCount : nat)
    (innerOrbitals : list Orbital) (immediate allowZoomIn : bool)
    (cam : Camera) : Camera :=
  let axisLen := computeAxisMax positions sampleCount innerOrbitals in
  if Rgt_dec axisLen 0
  then fitViewToAxisLen windowWidth windowHeight axisLen immediate allowZoomIn cam
  else cam.

(** The points an orbital object has written. *)
Definition writtenPoints (o : Orbital) : list Vec3 :=
  match o_positions o with
  | Some pts => firstn (o_sampleCount o) pts
  | None => []
  end.

(** [estimateAxisLenFromQuantum(n, l)] (lines 5349-5357) *)
Definition estimateAxisLenFromQuantum (n l : Z) : R :=
  let k := IZR (2 * l + 1) in
  let factorCover := 3 in
  let estR := thetaScale n * k * factorCover * radialScale l in
  Rmax (estR * (112 / 100)) 120.

(** ** Single-precision stores *)

(** The buffers are [Float32Array]s: a value written to a cell is rounded
    to the nearest binary32 number, ties to the even significand.  The
    arithmetic that produces the value is taken exact; only the store
    rounds.  A value too large for binary32 is stored as [Infinity] by the
    script and as a finite number here, in both cases far from the
    nucleus. *)









(** ** The fallback fill, point by point *)

(** The radius of a fallback point drawn from [u1] and, when the first
    radius falls inside the clearance, from [u2]. *)
Definition fallbackRadius (s : Session) (u1 u2 : R) : R :=
  let rMax := Rmax 1 (IZR (s_n s) * IZR (s_n s) * a0 * (18 / 10)) in
  let rr0 := rMax * cbrtDraw u1 * radialScale (s_l s) in
  if Rlt_dec rr0 minAllowed
  then minAllowed + (rMax - minAllowed) * cbrtDraw u2
  else rr0.

(** What a fallback point is: four draws of the generator give its radius
    (through cube roots), the cosine [2 u - 1] of its polar angle and its
    azimuth [2 pi u]; the radius is within the clearance and the cutoff. *)
Definition fallbackShape (rnd : nat -> R) (s : Session) (p : Vec3) : Prop :=
  exists i1 i2 i3 i4 : nat,
    let rr := fallbackRadius s (rnd i1) (rnd i2) in
    let cosT := 2 * rnd i3 - 1 in
    let phi := TWO_PI * rnd i4 in
    p = mkVec3 (rr * sqrt (1 - cosT * cosT) * cos phi)
               (rr * sqrt (1 - cosT * cosT) * sin phi)
               (rr * cosT)
    /\ r3D p = rr
    /\ minAllowed <= rr <= fallbackCutoff (s_n s).
(** * Properties *)

(** ** The embedding on small inputs *)

(** Decides the order tests of a closed expression. *)
Ltac decide_order :=
  repeat (cbn [insertSorted fold_right];
          match goal with
          | |- context [Rle_dec ?a ?b] => destruct (Rle_dec a b); try lra
          | |- context [Rlt_dec ?a ?b] => destruct (Rlt_dec a b); try lra
          | |- context [Rge_dec ?a ?b] => destruct (Rge_dec a b); try lra
          end).

Example sortAsc_three : sortAsc [3; 1; 2] = [1; 2; 3].
Proof.
  unfold sortAsc. decide_order. reflexivity.
Qed.

Example percentile_median : percentile [3; 1; 2] (5 / 10) = 2.
Proof.
  unfold percentile. rewrite sortAsc_three. cbn [length Nat.sub].
  assert (Hidx : floorNat (5 / 10 * INR 3) = 1%nat).
  { unfold floorNat. rewrite (Zfloor_eq 1); [reflexivity |]. cbn [INR]. lra. }
  rewrite Hidx. reflexivity.
Qed.

Example percentile_last : percentile [3; 1; 2] (95 / 100) = 3.
Proof.
  unfold percentile. rewrite sortAsc_three. cbn [length Nat.sub].
  assert (Hidx : floorNat (95 / 100 * INR 3) = 2%nat).
  { unfold floorNat. rewrite (Zfloor_eq 2); [reflexivity |]. cbn [INR]. lra. }
  rewrite Hidx. reflexivity.
Qed.

Example everyNth_two :
  everyNth 2 0 [mkVec3 1 0 0; mkVec3 2 0 0; mkVec3 3 0 0; mkVec3 4 0 0;
                mkVec3 5 0 0]
  = [mkVec3 1 0 0; mkVec3 3 0 0; mkVec3 5 0 0].
Proof. reflexivity. Qed.

Example store_in_and_out_of_range :
  store 1 9 [1; 2; 3] = [1; 9; 3] /\ store 3 9 [1; 2; 3] = [1; 2; 3].
Proof. split; reflexivity. Qed.

Example radialLScale_values :
  radialLScale 0 = 1 /\ radialLScale 1 = 94 / 100 /\ radialLScale 6 = 64 / 100
  /\ radialLScale 7 = 6 / 10 /\ radialLScale 20 = 6 / 10.
Proof.
  unfold radialLScale; cbn [Z.leb Z.compare].
  repeat split; try lra;
    first [rewrite Rmax_right by lra | rewrite Rmax_left by lra]; lra.
Qed.

Example associatedLegendre_d_forms (x : R) :
  associatedLegendre 2 1 x = - 3 * x * sqrt (1 - x * x)
  /\ associatedLegendre 3 0 x = 5 / 10 * (5 * (x * x * x) - 3 * x)
  /\ associatedLegendre 1 2 x = 0.
Proof.
  unfold associatedLegendre; cbn.
  change (Pos.to_nat 1) with 1%nat. change (Pos.to_nat 2) with 2%nat.
  cbn [pmmLoop plmLoop].
  repeat split; try lra.
  - destruct (Rle_dec 0 (1 - x * x)) as [Hy | Hy].
    + rewrite Rmax_right by exact Hy. lra.
    + rewrite Rmax_left by lra. rewrite sqrt_0, (sqrt_neg_0 (1 - x * x)) by lra. lra.
  - cbn. field.
Qed.

(** ** Legendre recurrence and radial scale *)

Lemma sqrt_clamped (y : R) : sqrt (Rmax 0 y) = sqrt y.
Proof.
  destruct (Rle_dec 0 y) as [Hy | Hy].
  - now rewrite Rmax_right.
  - rewrite Rmax_left by lra.
    rewrite sqrt_0. symmetry. apply sqrt_neg_0. lra.
Qed.

(** C7. The recurrence gives the closed forms P_0^0 = 1, P_1^0(x) = x,
    P_1^1(x) = -sqrt(1 - x^2) and P_2^0(x) = (3x^2 - 1)/2 at every x.
    Outside [-1,1] the source clamps the radicand to 0 and returns 0 for
    P_1^1; the square root of the library is 0 on negative numbers as well,
    so the third equation reads 0 = -0 there. *)
Theorem associatedLegendre_closed_forms (x : R) :
  associatedLegendre 0 0 x = 1
  /\ associatedLegendre 1 0 x = x
  /\ associatedLegendre 1 1 x = - sqrt (1 - x * x)
  /\ associatedLegendre 2 0 x = 5 / 10 * (3 * (x * x) - 1).
Proof.
  unfold associatedLegendre; cbn.
  rewrite sqrt_clamped.
  change (Pos.to_nat 1) with 1%nat; cbn [pmmLoop plmLoop].
  repeat split; lra.
Qed.

Lemma radialLScale_floor (l : Z) : 6 / 10 <= radialLScale l.
Proof.
  unfold radialLScale.
  destruct (l <=? 0)%Z; [lra | apply Rmax_l].
Qed.

Lemma radialLScale_antitone (l l' : Z) :
  (l <= l')%Z -> radialLScale l' <= radialLScale l.
Proof.
  intros Hle. unfold radialLScale.
  destruct (Z.leb_spec l' 0) as [H' | H'], (Z.leb_spec l 0) as [H | H];
    try lia; try lra.
  - apply Rmax_lub; [lra |].
    apply IZR_lt in H'. lra.
  - apply Rmax_lub; [apply Rmax_l |].
    apply Rle_trans with (1 - 6 / 100 * IZR l); [| apply Rmax_r].
    apply IZR_le in Hle. lra.
Qed.

Lemma Rsum_scale (k : R) (xs : list R) :
  Rsum (map (fun s => k * s) xs) = k * Rsum xs.
Proof.
  induction xs as [| s xs IH]; cbn; [lra |].
  unfold Rsum in IH. rewrite IH. lra.
Qed.

Lemma proposedRadius_linear (n l : Z) (sumExp : R) :
  proposedRadius n l sumExp = IZR n * proposedRadius 1 l sumExp.
Proof. unfold proposedRadius, thetaScale. lra. Qed.

(** C8. The radial compression factor never increases with l, never falls
    below 0.6, and the radius an attempt proposes is n times the radius the
    same draws give for n = 1; hence its mean over any run of draws is
    proportional to n for a fixed l. *)
Theorem radialLScale_monotone_and_radius_linear_in_n
    (l l' : Z) (Hl : (0 <= l <= l')%Z) (n : Z) (sumExps : list R) :
  radialLScale l' <= radialLScale l
  /\ (forall l0, 6 / 10 <= radialLScale l0)
  /\ (forall sumExp, proposedRadius n l sumExp = IZR n * proposedRadius 1 l sumExp)
  /\ mean (map (proposedRadius n l) sumExps)
     = IZR n * mean (map (proposedRadius 1 l) sumExps).
Proof.
  split; [apply radialLScale_antitone; lia |].
  split; [intros; apply radialLScale_floor |].
  split; [intros; apply proposedRadius_linear |].
  unfold mean. rewrite !length_map.
  replace (map (proposedRadius n l) sumExps)
    with (map (fun s => IZR n * s) (map (proposedRadius 1 l) sumExps)).
  - rewrite Rsum_scale. unfold Rdiv. lra.
  - rewrite map_map. apply map_ext. intros s.
    symmetry. apply proposedRadius_linear.
Qed.

Lemma radialLScale_monotone_and_radius_linear_in_n_witness :
  (0 <= 2 <= 9)%Z
  /\ radialLScale 9 <= radialLScale 2
  /\ 6 / 10 <= radialLScale 9
  /\ mean (map (proposedRadius 3 2) [1; 2])
     = IZR 3 * mean (map (proposedRadius 1 2) [1; 2]).
Proof.
  assert (H : (0 <= 2 <= 9)%Z) by lia.
  split; [exact H |].
  destruct (radialLScale_monotone_and_radius_linear_in_n 2 9 H 3 [1; 2])
    as (Hmono & Hfloor & _ & Hmean).
  split; [exact Hmono |]. split; [exact (Hfloor 9%Z) | exact Hmean].
Defined.

(** ** Outward-push normaliser *)

Lemma minAllowed_value : minAllowed = 24.
Proof. unfold minAllowed, NUCLEUS_RADIUS, ELECTRON_MIN_GAP. lra. Qed.

Lemma EPS_pos : 0 < EPS.
Proof. unfold EPS. apply Rinv_0_lt_compat. apply pow_lt. lra. Qed.

Lemma sumsq_nonneg (x y z : R) : 0 <= x * x + y * y + z * z.
Proof. nra. Qed.

Lemma r3D_scale (s : R) (p : Vec3) : 0 <= s -> r3D (scaleVec s p) = s * r3D p.
Proof.
  intros Hs. unfold r3D, scaleVec; cbn.
  replace (vx p * s * (vx p * s) + vy p * s * (vy p * s) + vz p * s * (vz p * s))
    with (s * s * (vx p * vx p + vy p * vy p + vz p * vz p)) by ring.
  rewrite sqrt_mult; [| nra | apply sumsq_nonneg].
  now rewrite sqrt_square.
Qed.

Lemma rXY_le_r3D (p : Vec3) : rXY p <= r3D p.
Proof. unfold rXY, r3D. apply sqrt_le_1_alt. nra. Qed.

(** A direction on the unit sphere, scaled by a non-negative radius, lies at
    that radius. *)
Lemma r3D_spherical (rr theta phi : R) :
  0 <= rr ->
  r3D (mkVec3 (rr * sin theta * cos phi) (rr * sin theta * sin phi)
              (rr * cos theta)) = rr.
Proof.
  intros Hrr. unfold r3D; cbn.
  replace (rr * sin theta * cos phi * (rr * sin theta * cos phi)
           + rr * sin theta * sin phi * (rr * sin theta * sin phi)
           + rr * cos theta * (rr * cos theta))
    with (rr * rr * ((sin theta)² * ((sin phi)² + (cos phi)²) + (cos theta)²))
    by (unfold Rsqr; ring).
  rewrite (sin2_cos2 phi), Rmult_1_r, (sin2_cos2 theta), Rmult_1_r.
  now apply sqrt_square.
Qed.

Lemma r3D_planar (rr ang : R) :
  0 <= rr -> r3D (mkVec3 (cos ang * rr) (sin ang * rr) 0) = rr.
Proof.
  intros Hrr. unfold r3D; cbn.
  replace (cos ang * rr * (cos ang * rr) + sin ang * rr * (sin ang * rr) + 0 * 0)
    with (rr * rr * ((sin ang)² + (cos ang)²)) by (unfold Rsqr; ring).
  rewrite sin2_cos2, Rmult_1_r. now apply sqrt_square.
Qed.

(** Rescaling a point off the origin to a target radius reaches it. *)
Lemma r3D_rescaled (target : R) (p : Vec3) :
  0 < r3D p -> 0 <= target -> r3D (scaleVec (target / r3D p) p) = target.
Proof.
  intros Hr Ht. rewrite r3D_scale.
  - field. lra.
  - apply Rmult_le_pos; [exact Ht |].
    left. now apply Rinv_0_lt_compat.
Qed.

Section PushProperties.

Variable rnd : nat -> R.

Lemma pushPoint_clearance (a : PushArgs) (eqThreshold : R) (p : Vec3) (c : nat) :
  minAllowed <= r3D (fst (pushPoint rnd a eqThreshold p c)).
Proof.
  pose proof minAllowed_value as Hmin.
  pose proof EPS_pos as Heps.
  pose proof (rXY_le_r3D p) as Hxy.
  unfold pushPoint.
  set (isEq := if Rle_dec (Rabs (vz p)) eqThreshold then true else false).
  set (f0 := if isEq then equatorialFactor a else globalFactor a).
  destruct (applyNearMultiplier a).
  - (* near-nucleus mode *)
    match goal with
    | |- context [let '(f, t) := ?scrut in _] =>
        assert (Ht : minAllowed <= snd scrut);
        [| destruct scrut as [factor tmd]; cbn [snd] in Ht]
    end.
    { destruct (isEq && _)%bool; cbn [snd]; [apply Rmax_l |].
      destruct (negb isEq && _)%bool; cbn [snd]; [apply Rmax_l | lra]. }
    destruct (Rle_dec (r3D p) EPS) as [Hz | Hnz]; cbn.
    + rewrite r3D_planar.
      * eapply Rle_trans; [exact Ht | apply Rmax_l].
      * eapply Rle_trans; [| apply Rmax_l]. lra.
    + rewrite r3D_rescaled.
      * eapply Rle_trans; [exact Ht | apply Rmax_l].
      * lra.
      * eapply Rle_trans; [| apply Rmax_l]. lra.
  - (* plain mode *)
    destruct (Rle_dec (rXY p) EPS) as [Hxz | Hxnz];
      [destruct (Rle_dec (r3D p) EPS) as [Hz | Hnz] |]; cbn.
    + rewrite r3D_spherical; lra.
    + rewrite r3D_rescaled; [apply Rmax_l | lra |].
      eapply Rle_trans; [| apply Rmax_l]. lra.
    + rewrite r3D_rescaled; [apply Rmax_l | lra |].
      eapply Rle_trans; [| apply Rmax_l]. lra.
Qed.

Lemma pushLoop_clearance (a : PushArgs) (eqThreshold : R) (count : nat) :
  forall pts c,
    Forall (fun p => minAllowed <= r3D p)
           (firstn count (fst (pushLoop rnd a eqThreshold count pts c))).
Proof.
  induction count as [| k IH]; intros pts c; [constructor |].
  destruct pts as [| p rest]; cbn [pushLoop]; [constructor |].
  pose proof (pushPoint_clearance a eqThreshold p c) as Hp.
  destruct (pushPoint rnd a eqThreshold p c) as [p' c1]; cbn [fst] in Hp.
  specialize (IH rest c1).
  destruct (pushLoop rnd a eqThreshold k rest c1) as [rest' c2].
  cbn [fst firstn] in *. now constructor.
Qed.

Lemma pushLoop_length (a : PushArgs) (eqThreshold : R) (count : nat) :
  forall pts c,
    length (fst (pushLoop rnd a eqThreshold count pts c)) = length pts.
Proof.
  induction count as [| k IH]; intros pts c; [reflexivity |].
  destruct pts as [| p rest]; cbn [pushLoop]; [reflexivity |].
  destruct (pushPoint rnd a eqThreshold p c) as [p' c1].
  specialize (IH rest c1).
  destruct (pushLoop rnd a eqThreshold k rest c1) as [rest' c2].
  cbn [fst length] in *. now rewrite IH.
Qed.

End PushProperties.

(** The call always returns a buffer of the same length whose first
    [count] points keep the clearance. *)
Lemma pushElectronsOutward_result
    (rnd : nat -> R) (a : PushArgs) (pts : list Vec3) (count c : nat) :
  exists pts',
    fst (pushElectronsOutward rnd a (Some pts) count c) = Some pts'
    /\ length pts' = length pts
    /\ Forall (fun p => minAllowed <= r3D p) (firstn count pts').
Proof.
  unfold pushElectronsOutward.
  destruct count as [| k].
  - exists pts. repeat split. constructor.
  - set (eqT := eqThresholdOf (firstn (S k) pts)).
    pose proof (pushLoop_clearance rnd a eqT (S k) pts c) as Hall.
    pose proof (pushLoop_length rnd a eqT (S k) pts c) as Hlen.
    destruct (pushLoop rnd a eqT (S k) pts c) as [pts' c'].
    exists pts'. cbn [fst] in *. now repeat split.
Qed.

(** In particular the completion callback of the current session leaves
    every sampled point of the global buffer outside the clearance. *)
Lemma onDone_clearance
    (rnd : nat -> R) (s : Session) (w : World) (c : nat) (pts : list Vec3) :
  samplingId s = currentSamplingId w ->
  positions w = Some pts ->
  exists pts',
    positions (fst (onDone rnd s w c)) = Some pts'
    /\ Forall (fun p => minAllowed <= r3D p) (firstn (sampleCount w) pts').
Proof.
  intros Hid Hpos. unfold onDone. rewrite Hid, Z.eqb_refl. cbn [negb].
  cbn [setSampling positions sizes sampleCount]. rewrite Hpos.
  match goal with
  | |- context [pushElectronsOutward rnd ?a (Some pts) ?n c] =>
      destruct (pushElectronsOutward_result rnd a pts n c)
        as (pts' & Heq & _ & Hall);
      destruct (pushElectronsOutward rnd a (Some pts) n c) as [p' c']
  end.
  cbn [fst] in *. subst p'. exists pts'. now split.
Qed.

Section PushDirection.

Variable rnd : nat -> R.

Lemma pushPoint_scales (a : PushArgs) (eqThreshold : R) (p : Vec3) (c : nat) :
  EPS < r3D p ->
  exists s, 0 < s /\ pushPoint rnd a eqThreshold p c = (scaleVec s p, c).
Proof.
  intros Hr.
  pose proof minAllowed_value as Hmin.
  pose proof EPS_pos as Heps.
  assert (Hpos : forall t f, minAllowed <= t -> 0 < Rmax t (r3D p * f) / r3D p).
  { intros t f Ht. apply Rdiv_lt_0_compat; [| lra].
    eapply Rlt_le_trans; [| apply Rmax_l]. lra. }
  unfold pushPoint.
  set (isEq := if Rle_dec (Rabs (vz p)) eqThreshold then true else false).
  set (f0 := if isEq then equatorialFactor a else globalFactor a).
  destruct (applyNearMultiplier a).
  - match goal with
    | |- context [let '(f, t) := ?scrut in _] =>
        assert (Ht : minAllowed <= snd scrut);
        [| destruct scrut as [factor tmd]; cbn [snd] in Ht]
    end.
    { destruct (isEq && _)%bool; cbn [snd]; [apply Rmax_l |].
      destruct (negb isEq && _)%bool; cbn [snd]; [apply Rmax_l | lra]. }
    destruct (Rle_dec (r3D p) EPS) as [Hz | Hnz]; [lra |].
    eexists; split; [| reflexivity]. now apply Hpos.
  - destruct (Rle_dec (rXY p) EPS) as [Hxz | Hxnz];
      [destruct (Rle_dec (r3D p) EPS) as [Hz | Hnz]; [lra |] |];
      (eexists; split; [| reflexivity]; apply Hpos; lra).
Qed.

Lemma pushLoop_scales (a : PushArgs) (eqThreshold : R) :
  forall count pts c i p,
    (i < count)%nat -> nth_error pts i = Some p -> EPS < r3D p ->
    exists s, 0 < s
      /\ nth_error (fst (pushLoop rnd a eqThreshold count pts c)) i
         = Some (scaleVec s p).
Proof.
  induction count as [| k IH]; intros pts c i p Hi Hp Hr; [lia |].
  destruct pts as [| q rest]; [destruct i; discriminate |].
  cbn [pushLoop].
  destruct i as [| j]; cbn [nth_error] in Hp.
  - injection Hp as ->.
    destruct (pushPoint_scales a eqThreshold p c Hr) as (s & Hs & Heq).
    rewrite Heq.
    destruct (pushLoop rnd a eqThreshold k rest c) as [rest' c2].
    exists s. now split.
  - destruct (pushPoint rnd a eqThreshold q c) as [q' c1].
    assert (Hj : (j < k)%nat) by lia.
    destruct (IH rest c1 j p Hj Hp Hr) as (s & Hs & Heq).
    destruct (pushLoop rnd a eqThreshold k rest c1) as [rest' c2].
    exists s. split; [exact Hs | exact Heq].
Qed.

Lemma pushPoint_reseeds (a : PushArgs) (eqThreshold : R) (p : Vec3) (c : nat) :
  r3D p <= EPS ->
  fst (pushPoint rnd a eqThreshold p c) = reseeded rnd a eqThreshold p c.
Proof.
  intros Hr. pose proof (rXY_le_r3D p) as Hxy.
  unfold pushPoint, reseeded.
  destruct (applyNearMultiplier a).
  - match goal with
    | |- context [let '(f, t) := ?scrut in _] => destruct scrut as [factor tmd]
    end.
    destruct (Rle_dec (r3D p) EPS); [reflexivity | lra].
  - destruct (Rle_dec (rXY p) EPS); [| lra].
    destruct (Rle_dec (r3D p) EPS); [reflexivity | lra].
Qed.

End PushDirection.

(** C9 (as amended). Every point farther than EPS = 1e-6 from the origin is
    multiplied, coordinate by coordinate, by one positive scalar: the point
    the normaliser leaves in its slot is a positive multiple of the point it
    found there. *)
Theorem pushElectronsOutward_keeps_direction
    (rnd : nat -> R) (a : PushArgs) (pts : list Vec3) (count c i : nat)
    (p : Vec3)
    (Hi : (i < count)%nat) (Hp : nth_error pts i = Some p) (Hr : EPS < r3D p) :
  exists pts' s,
    fst (pushElectronsOutward rnd a (Some pts) count c) = Some pts'
    /\ 0 < s
    /\ nth_error pts' i = Some (scaleVec s p).
Proof.
  unfold pushElectronsOutward.
  destruct count as [| k]; [lia |].
  set (eqT := eqThresholdOf (firstn (S k) pts)).
  destruct (pushLoop_scales rnd a eqT (S k) pts c i p Hi Hp Hr) as (s & Hs & Heq).
  destruct (pushLoop rnd a eqT (S k) pts c) as [pts' c'].
  exists pts', s. cbn [fst] in *. now repeat split.
Qed.

Lemma sqrt_sq_plus_zeros (x : R) : 0 <= x -> sqrt (x * x + 0 * 0 + 0 * 0) = x.
Proof.
  intros Hx. replace (x * x + 0 * 0 + 0 * 0) with (x * x) by ring.
  now apply sqrt_square.
Qed.

Lemma sqrt_sq_plus_zero (x : R) : 0 <= x -> sqrt (x * x + 0 * 0) = x.
Proof.
  intros Hx. replace (x * x + 0 * 0) with (x * x) by ring.
  now apply sqrt_square.
Qed.

Lemma pushElectronsOutward_keeps_direction_witness :
  exists pts' s,
    fst (pushElectronsOutward halfDraws plainPushArgs (Some [mkVec3 30 0 0]) 1 0)
    = Some pts'
    /\ 0 < s
    /\ nth_error pts' 0 = Some (scaleVec s (mkVec3 30 0 0)).
Proof.
  apply (pushElectronsOutward_keeps_direction halfDraws plainPushArgs
           [mkVec3 30 0 0] 1 0 0 (mkVec3 30 0 0)).
  - lia.
  - reflexivity.
  - unfold r3D; cbn [vx vy vz]. rewrite sqrt_sq_plus_zeros by lra.
    pose proof EPS_pos. unfold EPS in *.
    assert (/ 10 ^ 6 < 1); [| lra].
    rewrite <- Rinv_1. apply Rinv_lt_contravar; [| ]; cbn; lra.
Defined.

Lemma nearOriginPoint_radius : r3D nearOriginPoint = / 10 ^ 7.
Proof.
  unfold r3D, nearOriginPoint; cbn [vx vy vz].
  apply sqrt_sq_plus_zeros. left. apply Rinv_0_lt_compat. apply pow_lt. lra.
Qed.

Lemma nearOriginPoint_within_EPS : r3D nearOriginPoint <= EPS.
Proof.
  rewrite nearOriginPoint_radius. unfold EPS.
  left. apply Rinv_lt_contravar.
  - apply Rmult_lt_0_compat; apply pow_lt; lra.
  - cbn. lra.
Qed.

(** C9, counterexample. The point (1e-7, 0, 0) is not the origin, yet with
    every draw equal to 1/2 the normaliser replaces it by (-24, 0, 0), which
    is no positive multiple of it. *)
Lemma pushElectronsOutward_reseeds_near_origin_point :
  nearOriginPoint <> origin
  /\ fst (pushElectronsOutward halfDraws plainPushArgs (Some [nearOriginPoint]) 1 0)
     = Some [mkVec3 (-24) 0 0]
  /\ forall s, 0 < s -> scaleVec s nearOriginPoint <> mkVec3 (-24) 0 0.
Proof.
  assert (Hx : 0 < / 10 ^ 7) by (apply Rinv_0_lt_compat, pow_lt; lra).
  split; [| split].
  - intros Heq. apply (f_equal vx) in Heq. cbn in Heq. lra.
  - unfold pushElectronsOutward.
    cbn [pushLoop].
    pose proof (pushPoint_reseeds halfDraws plainPushArgs
                  (eqThresholdOf (firstn 1 [nearOriginPoint])) nearOriginPoint 0
                  nearOriginPoint_within_EPS) as Hre.
    destruct (pushPoint halfDraws plainPushArgs _ nearOriginPoint 0) as [p' c1].
    cbn [fst] in *. subst p'.
    unfold reseeded, plainPushArgs, halfDraws; cbn [applyNearMultiplier].
    replace (1 / 2 * (1 - -1) + -1) with 0 by lra.
    replace (1 / 2 * (TWO_PI - 0) + 0) with PI by (unfold TWO_PI; lra).
    rewrite acos_0, sin_PI2, cos_PI2, cos_PI, sin_PI, minAllowed_value.
    do 2 f_equal. f_equal; lra.
  - intros s Hs Heq. apply (f_equal vx) in Heq. cbn in Heq. nra.
Qed.

(** ** Percentiles *)

Lemma insertSorted_In (x y : R) (xs : list R) :
  In y (insertSorted x xs) <-> y = x \/ In y xs.
Proof.
  induction xs as [| z zs IH]; cbn.
  - intuition.
  - destruct (Rle_dec x z); cbn; [intuition |].
    rewrite IH. intuition.
Qed.

Lemma sortAsc_In (y : R) (xs : list R) : In y (sortAsc xs) <-> In y xs.
Proof.
  induction xs as [| x xs IH]; cbn; [tauto |].
  fold (sortAsc xs). rewrite insertSorted_In, IH. intuition.
Qed.

Lemma insertSorted_length (x : R) (xs : list R) :
  length (insertSorted x xs) = S (length xs).
Proof.
  induction xs as [| z zs IH]; cbn; [reflexivity |].
  destruct (Rle_dec x z); cbn; [reflexivity | now rewrite IH].
Qed.

Lemma sortAsc_length (xs : list R) : length (sortAsc xs) = length xs.
Proof.
  induction xs as [| x xs IH]; cbn; [reflexivity |].
  fold (sortAsc xs). now rewrite insertSorted_length, IH.
Qed.

(** A percentile of a non-empty array is one of its entries. *)
Lemma percentile_In (xs : list R) (p : R) :
  xs <> [] -> In (percentile xs p) xs.
Proof.
  intros Hne. destruct xs as [| x xs']; [congruence |].
  unfold percentile. apply sortAsc_In. apply nth_In.
  rewrite sortAsc_length. cbn [length]. lia.
Qed.

Lemma percentile_repeat (x p : R) (k : nat) :
  percentile (repeat x (S k)) p = x.
Proof.
  assert (H : In (percentile (repeat x (S k)) p) (repeat x (S k))).
  { apply percentile_In. discriminate. }
  now apply repeat_spec in H.
Qed.

(** ** The dz2 ring *)

Lemma ringOf_bounds (radialXYEquatorial : list R) :
  let rg := ringOf radialXYEquatorial in
  innerRadius rg < outerRadius rg
  /\ DZ2_RING_SHRINK_FACTOR * (NUCLEUS_RADIUS + ELECTRON_MIN_GAP) <= innerRadius rg.
Proof.
  unfold ringOf, DZ2_RING_SHRINK_FACTOR, NUCLEUS_RADIUS, ELECTRON_MIN_GAP,
    RING_DEFAULT_INNER_DIAM, RING_DEFAULT_OUTER_DIAM.
  destruct (8 <=? length radialXYEquatorial)%nat; cbn [innerRadius outerRadius].
  - set (p10 := percentile radialXYEquatorial OVERLAY_RING_INNER_P).
    set (p90 := percentile radialXYEquatorial OVERLAY_RING_OUTER_P).
    pose proof (Rmax_l (18 + 6) p10) as Hin.
    pose proof (Rmax_l (Rmax (18 + 6) p10 + / 1000) p90) as Hout.
    split; lra.
  - split; lra.
Qed.

(** C3 (as amended). For a buffer holding at least one sample and l = 2,
    m = 0, the fit is the axial-lobes-with-ring descriptor; its ring has
    innerRadius < outerRadius, and both radii are at least
    DZ2_RING_SHRINK_FACTOR * (NUCLEUS_RADIUS + ELECTRON_MIN_GAP) = 22.08. *)
Theorem computeOverlay_dz2_ring
    (rnd : nat -> R) (D : Type) (overlayD : list Vec3 -> nat -> D * nat)
    (pts : list Vec3) (count c : nat) (Hcount : count <> 0%nat) :
  exists d,
    computeOverlay rnd D overlayD true (Some pts) count (Some 2%Z) (Some 0%Z) c
    = (Some (OvDz2 d), c)
    /\ innerRadius (ring d) < outerRadius (ring d)
    /\ DZ2_RING_SHRINK_FACTOR * (NUCLEUS_RADIUS + ELECTRON_MIN_GAP)
       <= innerRadius (ring d)
    /\ DZ2_RING_SHRINK_FACTOR * (NUCLEUS_RADIUS + ELECTRON_MIN_GAP)
       < outerRadius (ring d)
    /\ DZ2_RING_SHRINK_FACTOR * (NUCLEUS_RADIUS + ELECTRON_MIN_GAP) = 2208 / 100.
Proof.
  unfold computeOverlay; cbn [negb].
  destruct count as [| k]; [congruence |].
  eexists; split; [reflexivity |].
  unfold overlayDz2; cbn [ring].
  match goal with
  | |- context [ringOf ?xs] => destruct (ringOf_bounds xs) as [Hlt Hge]
  end.
  repeat split; try assumption.
  - eapply Rle_lt_trans; eassumption.
  - unfold DZ2_RING_SHRINK_FACTOR, NUCLEUS_RADIUS, ELECTRON_MIN_GAP. lra.
Qed.

Lemma computeOverlay_dz2_ring_witness :
  exists d,
    computeOverlay halfDraws unit noClusteredFit true (Some eightOnX) 8
                   (Some 2%Z) (Some 0%Z) 0
    = (Some (OvDz2 d), 0%nat)
    /\ innerRadius (ring d) < outerRadius (ring d)
    /\ DZ2_RING_SHRINK_FACTOR * (NUCLEUS_RADIUS + ELECTRON_MIN_GAP)
       <= innerRadius (ring d)
    /\ DZ2_RING_SHRINK_FACTOR * (NUCLEUS_RADIUS + ELECTRON_MIN_GAP)
       < outerRadius (ring d)
    /\ DZ2_RING_SHRINK_FACTOR * (NUCLEUS_RADIUS + ELECTRON_MIN_GAP) = 2208 / 100.
Proof.
  apply (computeOverlay_dz2_ring halfDraws unit noClusteredFit eightOnX 8 0).
  discriminate.
Defined.

Lemma eightOnX_subsample : subsample eightOnX 8 = eightOnX.
Proof. reflexivity. Qed.

Lemma eightOnX_equatorial (t : R) :
  1 <= t ->
  map rXY (filter (fun p => if Rle_dec (Rabs (vz p)) t then true else false)
                  eightOnX)
  = repeat 25 8.
Proof.
  intros Ht.
  assert (Hkeep : (if Rle_dec (Rabs (vz (mkVec3 25 0 0))) t then true else false)
                  = true).
  { cbn [vz]. rewrite Rabs_R0. destruct (Rle_dec 0 t); [reflexivity | lra]. }
  assert (Hr : rXY (mkVec3 25 0 0) = 25).
  { unfold rXY; cbn [vx vy]. apply sqrt_sq_plus_zero. lra. }
  unfold eightOnX. cbn [repeat filter]. rewrite Hkeep. cbn [map].
  now rewrite Hr.
Qed.

(** C3, counterexample. Eight samples at (25, 0, 0) with l = 2, m = 0 give
    the ring innerRadius = 23 and outerRadius = 23.00092: neither exceeds
    NUCLEUS_RADIUS + ELECTRON_MIN_GAP = 24. *)
Lemma computeOverlay_dz2_ring_inside_clearance :
  exists d,
    computeOverlay halfDraws unit noClusteredFit true (Some eightOnX) 8
                   (Some 2%Z) (Some 0%Z) 0
    = (Some (OvDz2 d), 0%nat)
    /\ innerRadius (ring d) = 23
    /\ outerRadius (ring d) = 2300092 / 100000
    /\ ~ (NUCLEUS_RADIUS + ELECTRON_MIN_GAP < innerRadius (ring d))
    /\ ~ (NUCLEUS_RADIUS + ELECTRON_MIN_GAP < outerRadius (ring d)).
Proof.
  eexists. split; [reflexivity |].
  rewrite eightOnX_subsample.
  unfold overlayDz2; cbn [ring].
  rewrite eightOnX_equatorial by apply Rmax_r.
  unfold ringOf.
  rewrite repeat_length. change (8 <=? 8)%nat with true. cbn iota.
  rewrite !(percentile_repeat 25 _ 7).
  unfold NUCLEUS_RADIUS, ELECTRON_MIN_GAP, DZ2_RING_SHRINK_FACTOR.
  rewrite (Rmax_right (18 + 6) 25) by lra.
  rewrite (Rmax_left (25 + / 1000) 25) by lra.
  cbn [innerRadius outerRadius].
  repeat split; lra.
Qed.

(** ** The p lobes *)

Lemma bestAligned_spec (lobes : list PLobe) :
  forall i bestIdx bestAlign,
    let r := bestAligned lobes i bestIdx bestAlign in
    (r = bestIdx /\ forall lobe, In lobe lobes -> xAlignment lobe <= bestAlign)
    \/ (exists k best,
           r = (i + Z.of_nat k)%Z
           /\ nth_error lobes k = Some best
           /\ bestAlign < xAlignment best
           /\ forall lobe, In lobe lobes -> xAlignment lobe <= xAlignment best).
Proof.
  induction lobes as [| lobe rest IH]; intros i bestIdx bestAlign; cbn zeta.
  - left. split; [reflexivity | intros ? []].
  - cbn [bestAligned]. fold (xAlignment lobe).
    destruct (Rgt_dec (xAlignment lobe) bestAlign) as [Hgt | Hle].
    + right.
      destruct (IH (i + 1)%Z i (xAlignment lobe))
        as [[-> Hall] | (k & best & -> & Hnth & Hbest & Hall)].
      * exists 0%nat, lobe. repeat split; [lia | exact Hgt |].
        intros lobe' [<- | Hin]; [lra | now apply Hall].
      * exists (S k), best. repeat split; [lia | exact Hnth | lra |].
        intros lobe' [<- | Hin]; [lra | now apply Hall].
    + destruct (IH (i + 1)%Z bestIdx bestAlign)
        as [[-> Hall] | (k & best & -> & Hnth & Hbest & Hall)].
      * left. split; [reflexivity |].
        intros lobe' [<- | Hin]; [lra | now apply Hall].
      * right. exists (S k), best. repeat split; [lia | exact Hnth | exact Hbest |].
        intros lobe' [<- | Hin]; [lra | now apply Hall].
Qed.

(** On a non-empty list the canonical extents are those of a lobe of the
    list whose alignment with x no other lobe exceeds. *)
Lemma canonicalExtents_most_aligned (sampled : list Vec3) (lobes : list PLobe) :
  lobes <> [] ->
  exists best,
    In best lobes
    /\ (forall lobe, In lobe lobes -> xAlignment lobe <= xAlignment best)
    /\ canonicalExtents sampled lobes = (t95 best, r95 best).
Proof.
  intros Hne. unfold canonicalExtents.
  destruct (bestAligned_spec lobes 0 (-1) (-1))
    as [[_ Hall] | (k & best & -> & Hnth & _ & Hall)].
  - destruct lobes as [| lobe rest]; [congruence |].
    specialize (Hall lobe (or_introl eq_refl)).
    unfold xAlignment in Hall. pose proof (Rabs_pos (vx (axisUnit lobe))). lra.
  - exists best. split; [eapply nth_error_In; eassumption |].
    split; [exact Hall |].
    replace (0 + Z.of_nat k >=? 0)%Z with true by (symmetry; apply Z.geb_le; lia).
    replace (Z.to_nat (0 + Z.of_nat k)) with k by lia.
    now rewrite Hnth.
Qed.

Lemma withXFallback_length (sampled : list Vec3) (lobes : list PLobe) :
  (2 <= length (withXFallback sampled lobes))%nat.
Proof.
  unfold withXFallback, xLobes.
  destruct (Nat.ltb_spec (length lobes) 2) as [Hlt | Hge]; [| exact Hge].
  destruct (xExtents sampled) as [t r].
  rewrite length_app. cbn. lia.
Qed.

Lemma lobesFinalOf_spec (sampled : list Vec3) (lobes : list PLobe) :
  (2 <= length lobes)%nat ->
  exists best,
    In best lobes
    /\ (forall lobe, In lobe lobes -> xAlignment lobe <= xAlignment best)
    /\ lobesFinalOf sampled lobes
       = map (fun lobe => mkPLobe (axisUnit lobe) (t95 best) (r95 best)) lobes.
Proof.
  intros Hlen.
  assert (Hne : lobes <> []) by (destruct lobes; [cbn in Hlen; lia | discriminate]).
  destruct (canonicalExtents_most_aligned sampled lobes Hne)
    as (best & Hin & Hmax & Heq).
  exists best. repeat split; [exact Hin | exact Hmax |].
  unfold lobesFinalOf. rewrite Heq.
  destruct lobes as [| l1 [| l2 rest]]; cbn in Hlen; try lia.
  reflexivity.
Qed.




(** ** Starting a session *)

Lemma createOrbitalFromUI_rejects (w : World) (u : UIInputs) :
  ui w = Some u ->
  (guardedL u >= guardedN u \/ Z.abs (guardedM u) > guardedL u)%Z ->
  createOrbitalFromUI w
  = setUI w (Some (mkUIInputs (Some (guardedN u)) (Some (guardedL u))
                              (Some (guardedM u)) (Some (guardedSize u))
                              (Some (guardedCount u)) (orbitalMode u))).
Proof.
  intros Hu Hbad. unfold createOrbitalFromUI. rewrite Hu.
  destruct (Z.geb_spec (guardedL u) (guardedN u)) as [Hge | Hlt]; [reflexivity |].
  destruct (Z.gtb_spec (Z.abs (guardedM u)) (guardedL u)) as [Hgt | Hle];
    [reflexivity | lia].
Qed.

(** C6 (as amended). A request is rejected before a session starts when,
    after n < 1 has been replaced by 1 and l < 0 by 0, it has l >= n or
    |m| > l: the session counter keeps its value, no buffer is allocated or
    written, the sample count is untouched and no timer is added. *)
Theorem createOrbitalFromUI_rejects_bad_subshell
    (w : World) (u : UIInputs)
    (Hbad : (guardedL u >= guardedN u \/ Z.abs (guardedM u) > guardedL u)%Z) :
  let w' := createOrbitalFromUI (setUI w (Some u)) in
  currentSamplingId w' = currentSamplingId w
  /\ positions w' = positions w
  /\ sizes w' = sizes w
  /\ sampleCount w' = sampleCount w
  /\ sampleTarget w' = sampleTarget w
  /\ sampling w' = sampling w
  /\ lastUIHash w' = lastUIHash w
  /\ timers w' = timers w
  /\ ui w' = Some (guardedInputs u).
Proof.
  cbn zeta.
  rewrite (createOrbitalFromUI_rejects (setUI w (Some u)) u eq_refl Hbad).
  now repeat split.
Qed.

Lemma createOrbitalFromUI_rejects_bad_subshell_witness :
  (guardedL badSubshellInputs >= guardedN badSubshellInputs
   \/ Z.abs (guardedM badSubshellInputs) > guardedL badSubshellInputs)%Z
  /\ currentSamplingId (createOrbitalFromUI (setUI initialWorld (Some badSubshellInputs)))
     = currentSamplingId initialWorld
  /\ positions (createOrbitalFromUI (setUI initialWorld (Some badSubshellInputs)))
     = positions initialWorld.
Proof.
  assert (H : (guardedL badSubshellInputs >= guardedN badSubshellInputs
               \/ Z.abs (guardedM badSubshellInputs) > guardedL badSubshellInputs)%Z).
  { left. cbn. lia. }
  split; [exact H |].
  destruct (createOrbitalFromUI_rejects_bad_subshell initialWorld badSubshellInputs H)
    as (Hid & Hpos & _).
  split; [exact Hid | exact Hpos].
Defined.

Lemma guardedSize_one (u : UIInputs) :
  electronSizeInput u = Some 1 -> guardedSize u = 1.
Proof.
  intros H. unfold guardedSize. rewrite H.
  destruct (Rle_dec 1 0); [lra | reflexivity].
Qed.

Lemma createOrbitalFromUI_starts (w : World) (u : UIInputs) :
  ui w = Some u ->
  (guardedL u < guardedN u)%Z ->
  (Z.abs (guardedM u) <= guardedL u)%Z ->
  hashIsNew w u ->
  guardedCount u <> 0%Z ->
  createOrbitalFromUI w
  = mkWorld (Some (repeat origin (Z.to_nat (guardedCount u))))
            (Some (repeat 0 (Z.to_nat (guardedCount u))))
            0 (Z.to_nat (guardedCount u)) true
            (currentSamplingId w + 1)%Z (Some (uiHashOf u))
            (Some (guardedInputs u))
            (timers w ++ [TStart (mkSession (guardedN u) (guardedL u) (guardedM u)
                                            (Z.to_nat (guardedCount u))
                                            (guardedSize u)
                                            (currentSamplingId w + 1)%Z)]).
Proof.
  intros Hu Hl Hm Hnew Hcnt. unfold createOrbitalFromUI. rewrite Hu.
  destruct (Z.geb_spec (guardedL u) (guardedN u)); [lia |].
  destruct (Z.gtb_spec (Z.abs (guardedM u)) (guardedL u)); [lia |].
  cbn [setUI lastUIHash currentSamplingId ui timers].
  unfold hashIsNew, uiHashOf in Hnew.
  destruct (lastUIHash w) as [h |]; [rewrite Hnew |];
    (destruct (Z.eqb_spec (guardedCount u) 0); [congruence | reflexivity]).
Qed.

(** C6, counterexample. The request (n, l, m) = (0, 0, 0) for 100 points is
    invalid (n < 1), yet it starts a session: n is replaced by 1, the
    counter goes from 0 to 1 and a buffer of 100 points is allocated. *)
Lemma createOrbitalFromUI_accepts_zero_shell :
  invalidQuantum 0 0 0
  /\ nInput zeroShellInputs = Some 0%Z
  /\ lInput zeroShellInputs = Some 0%Z
  /\ mInput zeroShellInputs = Some 0%Z
  /\ currentSamplingId initialWorld = 0%Z
  /\ positions initialWorld = None
  /\ currentSamplingId (createOrbitalFromUI (setUI initialWorld (Some zeroShellInputs)))
     = 1%Z
  /\ positions (createOrbitalFromUI (setUI initialWorld (Some zeroShellInputs)))
     = Some (repeat origin 100)
  /\ timers (createOrbitalFromUI (setUI initialWorld (Some zeroShellInputs)))
     = [TStart (mkSession 1 0 0 100 1 1)].
Proof.
  split; [left; lia |].
  rewrite (createOrbitalFromUI_starts (setUI initialWorld (Some zeroShellInputs))
             zeroShellInputs);
    [| reflexivity | cbn; lia | cbn; lia | exact I | discriminate].
  rewrite (guardedSize_one zeroShellInputs eq_refl).
  repeat split.
Qed.

(** ** What the sampler leaves alone *)

Lemma store_length {A : Type} (i : nat) (v : A) (xs : list A) :
  length (store i v xs) = length xs.
Proof.
  revert i. induction xs as [| x xs IH]; intros [| j]; cbn; auto.
Qed.

Lemma sameControl_refl (w : World) : sameControl w w.
Proof. now repeat split. Qed.

Lemma sameControl_trans (w1 w2 w3 : World) :
  sameControl w1 w2 -> sameControl w2 w3 -> sameControl w1 w3.
Proof.
  unfold sameControl. intros (? & ? & ? & ? & ?) (? & ? & ? & ? & ?).
  repeat split; congruence.
Qed.

Section SamplerFrame.

Variable rnd : nat -> R.

Lemma chunkLoop_frame (s : Session) (maxAngular : R) (stopIndex : nat) :
  forall budget w c,
    match chunkLoop rnd budget s maxAngular stopIndex w c with
    | LoopAborted w1 | LoopThrew w1 | LoopDone w1 _ _ =>
        sameControl w w1 /\ timers w1 = timers w
    end.
Proof.
  induction budget as [| b IH]; intros w c; cbn [chunkLoop].
  - destruct (sampleCount w <? stopIndex)%nat;
      (split; [apply sameControl_refl | reflexivity]).
  - destruct (sampleCount w <? stopIndex)%nat;
      [| split; [apply sameControl_refl | reflexivity]].
    destruct (negb (samplingId s =? currentSamplingId w)%Z);
      [split; [apply sameControl_refl | reflexivity] |].
    destruct (attempt rnd s maxAngular c) as [[p |] c1]; [| apply IH].
    destruct (positions w) as [buf |] eqn:Hp;
      [| split; [apply sameControl_refl | reflexivity]].
    assert (Hstep : forall sz',
               sameControl w (setBuffers w (Some (store (sampleCount w) p buf))
                                         sz' (sampleCount w))
               /\ sameControl w (setBuffers w (Some (store (sampleCount w) p buf))
                                            sz' (S (sampleCount w)))).
    { intros sz'. unfold sameControl, bufferSize; cbn.
      rewrite Hp, store_length. now repeat split. }
    destruct (sizes w) as [sz |].
    + match goal with
      | |- context [chunkLoop rnd b s maxAngular stopIndex ?w' c1] =>
          specialize (IH w' c1);
          destruct (chunkLoop rnd b s maxAngular stopIndex w' c1);
          destruct IH as [Hsame Ht];
          (split; [eapply sameControl_trans; [apply Hstep | exact Hsame]
                  | exact Ht])
      end.
    + split; [apply Hstep | reflexivity].
Qed.

Lemma fallbackFill_length (s : Session) :
  forall slots i buf sz c,
    length (fst (fst (fallbackFill rnd slots s i buf sz c))) = length buf.
Proof.
  induction slots as [| k IH]; intros i buf sz c; cbn [fallbackFill];
    [reflexivity |].
  destruct (fallbackPoint rnd s c) as [p c1].
  rewrite IH. apply store_length.
Qed.

Lemma pushElectronsOutward_size (a : PushArgs) (positions : option (list Vec3))
    (count c : nat) :
  option_map (@length Vec3) (fst (pushElectronsOutward rnd a positions count c))
  = option_map (@length Vec3) positions.
Proof.
  destruct positions as [pts |]; [| reflexivity].
  unfold pushElectronsOutward.
  destruct count as [| k]; [reflexivity |].
  set (eqT := eqThresholdOf (firstn (S k) pts)).
  pose proof (pushLoop_length rnd a eqT (S k) pts c) as Hlen.
  destruct (pushLoop rnd a eqT (S k) pts c) as [pts' c'].
  cbn [fst option_map] in *. now rewrite Hlen.
Qed.

Lemma onDone_frame (s : Session) (w : World) (c : nat) :
  sameControl w (fst (onDone rnd s w c))
  /\ timers (fst (onDone rnd s w c)) = timers w
  /\ sampleCount (fst (onDone rnd s w c)) = sampleCount w.
Proof.
  unfold onDone.
  destruct (negb (samplingId s =? currentSamplingId w)%Z);
    [split; [apply sameControl_refl | now split] |].
  cbn [setSampling positions sizes sampleCount].
  match goal with
  | |- context [pushElectronsOutward rnd ?a ?p ?n c] =>
      pose proof (pushElectronsOutward_size a p n c) as Hsz;
      destruct (pushElectronsOutward rnd a p n c) as [p' c']
  end.
  cbn [fst] in *.
  unfold sameControl, bufferSize; cbn.
  destruct (positions w) as [pts |], p' as [pts' |]; cbn in Hsz;
    try discriminate; try injection Hsz as Hsz; now repeat split.
Qed.

Lemma chunk_frame (s : Session) (maxAngular : R) (w : World) (c : nat) :
  let w' := fst (chunk rnd s maxAngular w c) in
  sameControl w w'
  /\ (timers w' = timers w \/ timers w' = timers w ++ [TChunk s maxAngular]).
Proof.
  cbn zeta. unfold chunk.
  destruct (negb (samplingId s =? currentSamplingId w)%Z);
    [split; [apply sameControl_refl | now left] |].
  match goal with
  | |- context [chunkLoop rnd ?b s maxAngular ?st w c] =>
      pose proof (chunkLoop_frame s maxAngular st b w c) as Hloop;
      destruct (chunkLoop rnd b s maxAngular st w c) as [w1 | w1 | w1 left c1]
  end; destruct Hloop as [Hsame Ht]; cbn [fst];
    try (split; [exact Hsame | left; exact Ht]).
  destruct (sampleCount w1 <? numSamples s)%nat.
  - destruct ((left =? 0)%nat && (sampleCount w1 =? sampleCount w)%nat)%bool.
    + destruct (positions w1) as [buf |] eqn:Hp;
        [| cbn [fst]; split; [exact Hsame | left; exact Ht]].
      destruct (sizes w1) as [sz |].
      * pose proof (fallbackFill_length s (numSamples s - sampleCount w1)
                      (sampleCount w1) buf sz c1) as Hlen.
        destruct (fallbackFill rnd (numSamples s - sampleCount w1) s
                    (sampleCount w1) buf sz c1) as [[buf' sz'] c2].
        cbn [fst] in *.
        match goal with
        | |- context [onDone rnd s ?w2 c2] =>
            destruct (onDone_frame s w2 c2) as (Hd & Hdt & _);
            assert (H12 : sameControl w1 w2 /\ timers w2 = timers w1)
        end.
        { unfold sameControl, bufferSize; cbn. rewrite Hp. now repeat split. }
        destruct H12 as [H12 Ht2].
        split; [eapply sameControl_trans; [exact Hsame |];
                eapply sameControl_trans; [exact H12 | exact Hd]
               | left; congruence].
      * destruct (fallbackPoint rnd s c1) as [p ?]. cbn [fst].
        split; [| left; exact Ht].
        eapply sameControl_trans; [exact Hsame |].
        unfold sameControl, bufferSize; cbn. rewrite Hp, store_length.
        now repeat split.
    + destruct (negb (samplingId s =? currentSamplingId w1)%Z);
        [cbn [fst]; split; [exact Hsame | left; exact Ht] |].
      assert (Hadd : sameControl w (addTimer w1 (TChunk s maxAngular))
                     /\ timers (addTimer w1 (TChunk s maxAngular))
                        = timers w ++ [TChunk s maxAngular]).
      { split; [| cbn; now rewrite Ht].
        eapply sameControl_trans; [exact Hsame |]. now repeat split. }
      destruct (left =? 0)%nat; cbn [fst];
        (split; [apply Hadd | right; apply Hadd]).
  - cbn [fst]. destruct (onDone_frame s w1 c1) as (Hd & Hdt & _).
    split; [eapply sameControl_trans; eassumption | left; congruence].
Qed.

Lemma sampleOrbitalChunked_frame (s : Session) (w : World) (c : nat) :
  let w' := fst (sampleOrbitalChunked rnd s w c) in
  sameControl w w'
  /\ (timers w' = timers w
      \/ exists maxAngular, timers w' = timers w ++ [TChunk s maxAngular]).
Proof.
  cbn zeta. unfold sampleOrbitalChunked.
  destruct (numSamples s).
  - cbn [fst]. destruct (onDone_frame s w c) as (Hd & Hdt & _).
    split; [exact Hd | now left].
  - destruct (estimateMaxAngular rnd (s_l s) (s_m s) 500 c) as [est c1].
    destruct (chunk_frame s (est * (12 / 10)) w c1) as [Hsame [Ht | Ht]].
    + split; [exact Hsame | now left].
    + split; [exact Hsame | right; now exists (est * (12 / 10))].
Qed.

End SamplerFrame.

(** ** Invariants of the schedule *)

Lemma guardedCount_range (u : UIInputs) :
  (0 <= guardedCount u <= MAX_ELECTRONS)%Z.
Proof.
  unfold guardedCount, MAX_ELECTRONS.
  destruct (numElectronsInput u) as [v |].
  - destruct (Z.ltb_spec v 0);
      match goal with |- context [(?a >? ?b)%Z] => destruct (Z.gtb_spec a b) end;
      lia.
  - cbn. lia.
Qed.

Lemma guardedCount_clamps (u : UIInputs) (cnt : Z) :
  numElectronsInput u = Some cnt -> (MAX_ELECTRONS < cnt)%Z ->
  guardedCount u = MAX_ELECTRONS.
Proof.
  intros Hu Hbig. unfold guardedCount, MAX_ELECTRONS in *. rewrite Hu.
  destruct (Z.ltb_spec cnt 0); [lia |].
  destruct (Z.gtb_spec cnt 30000); [reflexivity | lia].
Qed.

(** The three ways a call of [createOrbitalFromUI] can end. *)
Lemma createOrbitalFromUI_cases (w : World) :
  let w' := createOrbitalFromUI w in
  (currentSamplingId w' = currentSamplingId w /\ timers w' = timers w
   /\ positions w' = positions w /\ sampleTarget w' = sampleTarget w)
  \/ (currentSamplingId w' = currentSamplingId w /\ timers w' = timers w
      /\ positions w' = None /\ sampleTarget w' = 0%nat)
  \/ (exists u,
         ui w = Some u
         /\ guardedCount u <> 0%Z
         /\ (guardedL u < guardedN u)%Z
         /\ (Z.abs (guardedM u) <= guardedL u)%Z
         /\ w' = mkWorld (Some (repeat origin (Z.to_nat (guardedCount u))))
                         (Some (repeat 0 (Z.to_nat (guardedCount u))))
                         0 (Z.to_nat (guardedCount u)) true
                         (currentSamplingId w + 1)%Z (Some (uiHashOf u))
                         (Some (guardedInputs u))
                         (timers w ++ [TStart (mkSession (guardedN u) (guardedL u)
                                                 (guardedM u)
                                                 (Z.to_nat (guardedCount u))
                                                 (guardedSize u)
                                                 (currentSamplingId w + 1)%Z)])).
Proof.
  cbn zeta. unfold createOrbitalFromUI.
  destruct (ui w) as [u |] eqn:Hu; [| left; now repeat split].
  destruct (Z.geb_spec (guardedL u) (guardedN u)); [left; now repeat split |].
  destruct (Z.gtb_spec (Z.abs (guardedM u)) (guardedL u));
    [left; now repeat split |].
  match goal with
  | |- context [if ?same then _ else _] => destruct same
  end; [left; now repeat split |].
  destruct (Z.eqb_spec (guardedCount u) 0); [right; left; now repeat split |].
  right; right. exists u. repeat split; try assumption; lia.
Qed.

Lemma taskOk_mono (a b : Z) (t : Task) : (a <= b)%Z -> taskOk a t -> taskOk b t.
Proof. unfold taskOk. intros Hab [Hn Hid]. split; [exact Hn | lia]. Qed.

Lemma dropNth_Forall {A : Type} (P : A -> Prop) (i : nat) (xs : list A) :
  Forall P xs -> Forall P (dropNth i xs).
Proof.
  revert i. induction xs as [| x xs IH]; intros i Hall; [destruct i; constructor |].
  inversion Hall; subst. destruct i; cbn; [assumption |].
  constructor; [assumption | now apply IH].
Qed.

Lemma createOrbitalFromUI_inv (w : World) :
  reachableInv w ->
  reachableInv (createOrbitalFromUI w)
  /\ (currentSamplingId w <= currentSamplingId (createOrbitalFromUI w))%Z.
Proof.
  intros (Hbuf & Htgt & Hts).
  destruct (createOrbitalFromUI_cases w)
    as [(Hid & Ht & Hp & Hg) | [(Hid & Ht & Hp & Hg) | (u & Hu & Hcnt & _ & _ & Heq)]].
  - split; [| lia]. unfold reachableInv, bufferSize in *.
    rewrite Hid, Ht, Hp, Hg. now repeat split.
  - split; [| lia]. unfold reachableInv, bufferSize in *.
    rewrite Hid, Ht, Hp, Hg. repeat split; [lia | lia | assumption].
  - rewrite Heq. pose proof (guardedCount_range u) as Hr.
    split; [| cbn; lia].
    unfold reachableInv, bufferSize;
      cbn [positions sampleTarget timers currentSamplingId].
    rewrite repeat_length. split; [lia |]. split; [lia |].
    apply Forall_app. split.
    + eapply Forall_impl; [| exact Hts]. intros t. apply taskOk_mono. lia.
    + constructor; [| constructor]. unfold taskOk; cbn. split; lia.
Qed.

Lemma runTask_inv (rnd : nat -> R) (t : Task) (w : World) :
  reachableInv w -> taskOk (currentSamplingId w) t ->
  reachableInv (fst (runTask rnd t w))
  /\ currentSamplingId (fst (runTask rnd t w)) = currentSamplingId w.
Proof.
  intros (Hbuf & Htgt & Hts) Hok.
  assert (Hfr : sameControl w (fst (runTask rnd t w))
                /\ (timers (fst (runTask rnd t w)) = timers w
                    \/ exists mx, timers (fst (runTask rnd t w))
                                  = timers w ++ [TChunk (taskSession t) mx])).
  { destruct t as [s | s mx]; cbn [runTask taskSession].
    - apply sampleOrbitalChunked_frame.
    - destruct (chunk_frame rnd s mx w 0) as [Hs [Ht | Ht]];
        (split; [exact Hs |]); [now left | right; now exists mx]. }
  destruct Hfr as [(Hid & Hg & _ & _ & Hsz) Ht].
  split; [| exact Hid].
  unfold reachableInv. rewrite Hid, Hg, Hsz.
  repeat split; try assumption.
  destruct Ht as [-> | (mx & ->)]; [assumption |].
  apply Forall_app. split; [assumption |].
  constructor; [exact Hok | constructor].
Qed.

Lemma step_inv (w : World) (ev : Event) :
  reachableInv w ->
  reachableInv (step w ev) /\ (currentSamplingId w <= currentSamplingId (step w ev))%Z.
Proof.
  intros Hinv. destruct ev as [u | | i rnd]; cbn [step].
  - apply (createOrbitalFromUI_inv (setUI w (Some u))). exact Hinv.
  - split; [| cbn; lia]. destruct Hinv as (_ & _ & Hts).
    unfold reachableInv, bufferSize; cbn. repeat split; try lia. exact Hts.
  - destruct (nth_error (timers w) i) as [t |] eqn:Hnth; [| split; [exact Hinv | lia]].
    destruct Hinv as (Hbuf & Htgt & Hts).
    assert (Hok : taskOk (currentSamplingId w) t).
    { eapply Forall_forall; [exact Hts | eapply nth_error_In; exact Hnth]. }
    destruct (runTask_inv rnd t (setTimers w (dropNth i (timers w)))) as [Hi Hid].
    + unfold reachableInv, bufferSize in *; cbn.
      repeat split; try assumption. now apply dropNth_Forall.
    + exact Hok.
    + split; [exact Hi | rewrite Hid; cbn; lia].
Qed.

Lemma run_inv (evs : list Event) :
  forall w,
    reachableInv w ->
    reachableInv (run w evs) /\ (currentSamplingId w <= currentSamplingId (run w evs))%Z.
Proof.
  induction evs as [| ev evs IH]; intros w Hinv; cbn [run fold_left].
  - split; [exact Hinv | lia].
  - destruct (step_inv w ev Hinv) as [Hi Hle].
    destruct (IH (step w ev) Hi) as [Hi' Hle'].
    split; [exact Hi' | unfold run in Hle'; lia].
Qed.

Lemma initialWorld_inv : reachableInv initialWorld.
Proof. unfold reachableInv, bufferSize; cbn. repeat split; try lia. constructor. Qed.

(** ** The sample target *)

Lemma startedSession_shape (w : World) (u : UIInputs) :
  startedSession w (step w (EvRequest u)) ->
  step w (EvRequest u)
  = mkWorld (Some (repeat origin (Z.to_nat (guardedCount u))))
            (Some (repeat 0 (Z.to_nat (guardedCount u))))
            0 (Z.to_nat (guardedCount u)) true
            (currentSamplingId w + 1)%Z (Some (uiHashOf u))
            (Some (guardedInputs u))
            (timers w ++ [TStart (mkSession (guardedN u) (guardedL u) (guardedM u)
                                            (Z.to_nat (guardedCount u))
                                            (guardedSize u)
                                            (currentSamplingId w + 1)%Z)]).
Proof.
  unfold startedSession. cbn [step]. intros Hstart.
  destruct (createOrbitalFromUI_cases (setUI w (Some u)))
    as [(Hid & _) | [(Hid & _) | (u' & Hu & _ & _ & _ & Heq)]].
  - rewrite Hid in Hstart. cbn in Hstart. lia.
  - rewrite Hid in Hstart. cbn in Hstart. lia.
  - cbn in Hu. injection Hu as <-. exact Heq.
Qed.

(** C10. The requested count is clamped to MAX_ELECTRONS = 30000: when more
    is asked for and the request starts a session, the target, the buffer
    and the session's sample count are exactly 30000; and in no world the
    schedule reaches does the target or the buffer exceed 30000 points. *)
Theorem sample_target_clamped_to_MAX_ELECTRONS
    (evs : list Event) (u : UIInputs) (evs' : list Event) :
  let w := run initialWorld evs in
  let w' := step w (EvRequest u) in
  MAX_ELECTRONS = 30000%Z
  /\ (forall cnt,
         numElectronsInput u = Some cnt -> (MAX_ELECTRONS < cnt)%Z ->
         startedSession w w' ->
         sampleTarget w' = Z.to_nat MAX_ELECTRONS
         /\ positions w' = Some (repeat origin (Z.to_nat MAX_ELECTRONS))
         /\ exists s, timers w' = timers w ++ [TStart s]
                      /\ numSamples s = Z.to_nat MAX_ELECTRONS)
  /\ (startedSession w w' -> sampleTarget w' = Z.to_nat (guardedCount u)
                             /\ (guardedCount u <= MAX_ELECTRONS)%Z)
  /\ (sampleTarget (run w' evs') <= Z.to_nat MAX_ELECTRONS)%nat
  /\ (bufferSize (run w' evs') <= Z.to_nat MAX_ELECTRONS)%nat.
Proof.
  cbn zeta.
  split; [reflexivity |]. split; [| split].
  - intros cnt Hu Hbig Hstart.
    rewrite (startedSession_shape _ u Hstart).
    rewrite (guardedCount_clamps u cnt Hu Hbig).
    cbn [sampleTarget positions timers].
    repeat split. eexists. split; reflexivity.
  - intros Hstart. rewrite (startedSession_shape _ u Hstart).
    split; [reflexivity | apply guardedCount_range].
  - destruct (run_inv evs initialWorld initialWorld_inv) as [Hinv _].
    destruct (step_inv _ (EvRequest u) Hinv) as [Hinv' _].
    destruct (run_inv evs' _ Hinv') as [(Hbuf & Htgt & _) _].
    split; assumption.
Qed.

Lemma sample_target_clamped_to_MAX_ELECTRONS_witness :
  numElectronsInput hugeCountInputs = Some 40000%Z
  /\ (MAX_ELECTRONS < 40000)%Z
  /\ startedSession initialWorld (step initialWorld (EvRequest hugeCountInputs))
  /\ sampleTarget (step initialWorld (EvRequest hugeCountInputs))
     = Z.to_nat MAX_ELECTRONS.
Proof.
  assert (Hbig : (MAX_ELECTRONS < 40000)%Z) by (unfold MAX_ELECTRONS; lia).
  assert (Hstart : startedSession initialWorld
                     (step initialWorld (EvRequest hugeCountInputs))).
  { unfold startedSession. cbn [step].
    rewrite (createOrbitalFromUI_starts (setUI initialWorld (Some hugeCountInputs))
               hugeCountInputs);
      [reflexivity | reflexivity | cbn; lia | cbn; lia | exact I | discriminate]. }
  split; [reflexivity |]. split; [exact Hbig |]. split; [exact Hstart |].
  destruct (sample_target_clamped_to_MAX_ELECTRONS [] hugeCountInputs [])
    as (_ & Hclamp & _).
  exact (proj1 (Hclamp 40000%Z eq_refl Hbig Hstart)).
Defined.

(** ** Stale sessions *)

(** A chunk whose session id is not the current one does nothing. *)
Lemma chunk_stale (rnd : nat -> R) (s : Session) (maxAngular : R) (w : World)
    (c : nat) :
  samplingId s <> currentSamplingId w ->
  chunk rnd s maxAngular w c = (w, Aborted).
Proof.
  intros Hne. unfold chunk.
  destruct (Z.eqb_spec (samplingId s) (currentSamplingId w)); [contradiction |].
  reflexivity.
Qed.

Lemma runTask_stale (rnd : nat -> R) (t : Task) (w : World) :
  numSamples (taskSession t) <> 0%nat ->
  samplingId (taskSession t) <> currentSamplingId w ->
  runTask rnd t w = (w, Aborted).
Proof.
  intros Hn Hne. destruct t as [s | s mx]; cbn [runTask taskSession] in *.
  - unfold sampleOrbitalChunked.
    destruct (numSamples s); [congruence |].
    destruct (estimateMaxAngular rnd (s_l s) (s_m s) 500 0) as [est c1].
    now apply chunk_stale.
  - now apply chunk_stale.
Qed.

(** C4. Let S2 be started, incrementing the session counter, while a timer
    of an earlier session S1 is pending.  Whenever that timer fires
    afterwards, whatever happened in between and whatever the generator
    draws, it aborts at its first check: the completion callback is not
    invoked, no timer is added, and the buffers, the sample count and every
    other global stay as S2 left them. *)
Theorem superseded_session_never_completes
    (evs1 : list Event) (u : UIInputs) (evs2 : list Event)
    (i : nat) (t : Task) (rnd : nat -> R) :
  let w1 := run initialWorld evs1 in
  let w2 := step w1 (EvRequest u) in
  let w3 := run w2 evs2 in
  let w3' := setTimers w3 (dropNth i (timers w3)) in
  startedSession w1 w2 ->
  nth_error (timers w3) i = Some t ->
  (samplingId (taskSession t) <= currentSamplingId w1)%Z ->
  runTask rnd t w3' = (w3', Aborted)
  /\ firedCallback (snd (runTask rnd t w3')) = false
  /\ step w3 (EvFire i rnd) = w3'
  /\ positions (step w3 (EvFire i rnd)) = positions w3
  /\ sizes (step w3 (EvFire i rnd)) = sizes w3
  /\ sampleCount (step w3 (EvFire i rnd)) = sampleCount w3.
Proof.
  cbn zeta. intros Hstart Hnth Hold.
  destruct (run_inv evs1 initialWorld initialWorld_inv) as [Hinv1 _].
  destruct (step_inv _ (EvRequest u) Hinv1) as [Hinv2 _].
  destruct (run_inv evs2 _ Hinv2) as [(_ & _ & Hts) Hmono].
  unfold startedSession in Hstart.
  set (w1 := run initialWorld evs1) in *.
  set (w2 := step w1 (EvRequest u)) in *.
  set (w3 := run w2 evs2) in *.
  assert (Hok : taskOk (currentSamplingId w3) t).
  { eapply Forall_forall; [exact Hts | eapply nth_error_In; exact Hnth]. }
  assert (Hrun : runTask rnd t (setTimers w3 (dropNth i (timers w3)))
                 = (setTimers w3 (dropNth i (timers w3)), Aborted)).
  { apply runTask_stale; [apply Hok |].
    unfold setTimers; cbn [currentSamplingId]. lia. }
  split; [exact Hrun |].
  split; [now rewrite Hrun |].
  unfold step. rewrite Hnth, Hrun. now repeat split.
Qed.

Lemma firstInputs_start :
  step initialWorld (EvRequest firstInputs)
  = mkWorld (Some (repeat origin 2)) (Some (repeat 0 2)) 0 2 true 1
            (Some (uiHashOf firstInputs)) (Some (guardedInputs firstInputs))
            [TStart firstSession].
Proof.
  cbn [step].
  rewrite (createOrbitalFromUI_starts (setUI initialWorld (Some firstInputs))
             firstInputs);
    [| reflexivity | cbn; lia | cbn; lia | exact I | discriminate].
  unfold firstSession. rewrite <- (guardedSize_one firstInputs eq_refl).
  reflexivity.
Qed.

Lemma secondInputs_start :
  step (step initialWorld (EvRequest firstInputs)) (EvRequest secondInputs)
  = mkWorld (Some (repeat origin 2)) (Some (repeat 0 2)) 0 2 true 2
            (Some (uiHashOf secondInputs)) (Some (guardedInputs secondInputs))
            [TStart firstSession; TStart (mkSession 2 1 0 2 1 2)].
Proof.
  rewrite firstInputs_start. cbn [step].
  rewrite (createOrbitalFromUI_starts _ secondInputs);
    [| reflexivity | cbn; lia | cbn; lia | reflexivity | discriminate].
  rewrite (guardedSize_one secondInputs eq_refl).
  reflexivity.
Qed.

Lemma superseded_session_never_completes_witness :
  let w1 := run initialWorld [EvRequest firstInputs] in
  let w2 := step w1 (EvRequest secondInputs) in
  let w3 := run w2 [] in
  let w3' := setTimers w3 (dropNth 0 (timers w3)) in
  startedSession w1 w2
  /\ nth_error (timers w3) 0 = Some (TStart firstSession)
  /\ (samplingId (taskSession (TStart firstSession)) <= currentSamplingId w1)%Z
  /\ runTask halfDraws (TStart firstSession) w3' = (w3', Aborted).
Proof.
  cbn zeta.
  assert (H1 : startedSession (run initialWorld [EvRequest firstInputs])
                 (step (run initialWorld [EvRequest firstInputs])
                       (EvRequest secondInputs))).
  { unfold startedSession, run; cbn [fold_left].
    rewrite secondInputs_start, firstInputs_start. reflexivity. }
  assert (H2 : nth_error
                 (timers (run (step (run initialWorld [EvRequest firstInputs])
                                    (EvRequest secondInputs)) []))
                 0 = Some (TStart firstSession)).
  { unfold run; cbn [fold_left]. rewrite secondInputs_start. reflexivity. }
  assert (H3 : (samplingId (taskSession (TStart firstSession))
                <= currentSamplingId (run initialWorld [EvRequest firstInputs]))%Z).
  { unfold run; cbn [fold_left]. rewrite firstInputs_start. cbn. lia. }
  split; [exact H1 |]. split; [exact H2 |]. split; [exact H3 |].
  exact (proj1 (superseded_session_never_completes
                  [EvRequest firstInputs] secondInputs [] 0
                  (TStart firstSession) halfDraws H1 H2 H3)).
Defined.

(** ** The chunked sampler *)

Lemma ln_upper (y : R) : 0 < y -> ln y <= y - 1.
Proof.
  intros Hy. pose proof (exp_ineq1_le (ln y)) as H.
  rewrite exp_ln in H by exact Hy. lra.
Qed.

Lemma ln_lower (y : R) : 0 < y -> 1 - / y <= ln y.
Proof.
  intros Hy.
  assert (Hinv : 0 < / y) by now apply Rinv_0_lt_compat.
  pose proof (ln_upper (/ y) Hinv) as H.
  rewrite ln_Rinv in H by exact Hy. lra.
Qed.

Lemma tiny_lt (k : nat) (x : R) : 1 / 10 <= x -> (2 <= k)%nat -> ~ x <= / 10 ^ k.
Proof.
  intros Hx Hk Hle.
  assert (H10 : / 10 ^ k <= / 10 ^ 2).
  { apply Rinv_le_contravar; [cbn; lra |]. apply Rle_pow; [lra | exact Hk]. }
  replace (10 ^ 2) with 100 in H10 by (cbn; lra). lra.
Qed.

Section SamplerRuns.

Variable rnd : nat -> R.

(** An attempt of a 1s session whose three radial draws are 9/10 proposes
    a radius below the clearance and ends there. *)
Lemma attempt_rejects_high_draws (s : Session) (maxAngular : R) (c : nat) :
  s_n s = 1%Z -> s_l s = 0%Z ->
  rnd c = 9 / 10 -> rnd (S c) = 9 / 10 -> rnd (S (S c)) = 9 / 10 ->
  attempt rnd s maxAngular c = (None, S (S (S c))).
Proof.
  intros Hn Hl H0 H1 H2. unfold attempt. rewrite Hn, Hl.
  change (kOf 0) with 3%nat. cbn [sumExpLoop random].
  rewrite H0, H1, H2.
  destruct (Rle_dec (9 / 10) (/ 10 ^ 12)) as [Hle | _];
    [exfalso; revert Hle; apply tiny_lt; [lra | lia] |].
  pose proof (ln_lower (9 / 10)) as Hln.
  unfold proposedRadius, thetaScale, radialScale, radialLScale, a0,
    ELECTRON_DISTANCE_MULTIPLIER.
  cbn [Z.leb Z.compare].
  destruct (Rlt_dec _ minAllowed) as [_ | Hge]; [reflexivity |].
  exfalso. apply Hge. rewrite minAllowed_value. lra.
Qed.

(** With such draws from [c] on, the loop spends its whole budget without
    a change to the world. *)
Lemma chunkLoop_starved (s : Session) (maxAngular : R) (stopIndex : nat)
    (w : World) :
  s_n s = 1%Z -> s_l s = 0%Z ->
  samplingId s = currentSamplingId w ->
  (sampleCount w < stopIndex)%nat ->
  forall budget c,
    (forall j, (c <= j)%nat -> rnd j = 9 / 10) ->
    chunkLoop rnd budget s maxAngular stopIndex w c
    = LoopDone w 0 (c + 3 * budget).
Proof.
  intros Hn Hl Hid Hcnt.
  apply Nat.ltb_lt in Hcnt.
  induction budget as [| b IH]; intros c Hdraws; cbn [chunkLoop]; rewrite Hcnt.
  - f_equal. lia.
  - rewrite Hid, Z.eqb_refl. cbn [negb].
    rewrite (attempt_rejects_high_draws s maxAngular c Hn Hl)
      by (apply Hdraws; lia).
    rewrite IH by (intros j Hj; apply Hdraws; lia).
    f_equal. lia.
Qed.

(** The loop only ever adds points; when the count has not moved, nothing
    has. *)
Lemma chunkLoop_progress (s : Session) (maxAngular : R) (stopIndex : nat) :
  forall budget w c w1 left c1,
    chunkLoop rnd budget s maxAngular stopIndex w c = LoopDone w1 left c1 ->
    (sampleCount w <= sampleCount w1)%nat
    /\ (sampleCount w1 = sampleCount w -> w1 = w).
Proof.
  induction budget as [| b IH]; intros w c w1 left c1; cbn [chunkLoop].
  - destruct (sampleCount w <? stopIndex)%nat; intros [= <- <- <-]; now split.
  - destruct (sampleCount w <? stopIndex)%nat;
      [| intros [= <- <- <-]; now split].
    destruct (negb (samplingId s =? currentSamplingId w)%Z); [discriminate |].
    destruct (attempt rnd s maxAngular c) as [[p |] c']; [| apply IH].
    destruct (positions w) as [buf |]; [| discriminate].
    destruct (sizes w) as [sz |]; [| discriminate].
    intros Hloop. apply IH in Hloop. cbn [setBuffers sampleCount] in Hloop.
    destruct Hloop as [Hle _]. split; lia.
Qed.

End SamplerRuns.

Lemma cbrtDraw_range (u : R) : 0 <= u < 1 -> 0 <= cbrtDraw u < 1.
Proof.
  intros [H0 H1]. unfold cbrtDraw.
  destruct (Req_dec_T u 0) as [_ | Hne]; [lra |].
  assert (Hu : 0 < u) by lra.
  unfold Rpower. split; [left; apply exp_pos |].
  assert (Hln : ln u < 0) by (rewrite <- ln_1; now apply ln_increasing).
  assert (Hexp : exp (1 / 3 * ln u) < exp 0) by (apply exp_increasing; lra).
  now rewrite exp_0 in Hexp.
Qed.

Lemma radialLScale_le_1 (l : Z) : radialLScale l <= 1.
Proof.
  unfold radialLScale. destruct (Z.leb_spec l 0) as [_ | Hpos]; [lra |].
  apply Rmax_lub; [lra |]. apply IZR_lt in Hpos. lra.
Qed.

Lemma nth_error_store_other {A : Type} (i j : nat) (v : A) (xs : list A) :
  j <> i -> nth_error (store i v xs) j = nth_error xs j.
Proof.
  revert i j. induction xs as [| x xs IH]; intros [| i] [| j] Hne; cbn;
    try reflexivity; try congruence.
  apply IH. congruence.
Qed.

Lemma nth_error_store_same {A : Type} (i : nat) (v q : A) (xs : list A) :
  nth_error (store i v xs) i = Some q -> q = v.
Proof.
  revert i. induction xs as [| x xs IH]; intros [| i]; cbn; try discriminate.
  - now intros [= <-].
  - apply IH.
Qed.

Section FallbackFill.

Variable rnd : nat -> R.
Hypothesis rnd_unit : forall j, 0 <= rnd j < 1.

Lemma fallbackPoint_radius (s : Session) (c : nat) :
  (1 <= s_n s)%Z ->
  minAllowed <= r3D (fst (fallbackPoint rnd s c)) <= fallbackCutoff (s_n s).
Proof.
  intros Hn. apply IZR_le in Hn.
  pose proof minAllowed_value as Hmin.
  pose proof (radialLScale_floor (s_l s)) as Hlo.
  pose proof (radialLScale_le_1 (s_l s)) as Hhi.
  unfold fallbackPoint, fallbackCutoff, random, randomRange, radialScale,
    ELECTRON_DISTANCE_MULTIPLIER, a0 in *.
  set (n := IZR (s_n s)) in *.
  assert (Hnn : 1 <= n * n) by nra.
  rewrite (Rmax_right 1 (n * n * 40 * (18 / 10))) by lra.
  set (rMax := n * n * 40 * (18 / 10)).
  assert (HrMax : 72 <= rMax) by (unfold rMax; lra).
  pose proof (cbrtDraw_range (rnd c) (rnd_unit c)) as [Hc0 Hc1].
  pose proof (cbrtDraw_range (rnd (S c)) (rnd_unit (S c))) as [Hd0 Hd1].
  set (cb1 := cbrtDraw (rnd c)) in *.
  set (cb2 := cbrtDraw (rnd (S c))) in *.
  set (rs := radialLScale (s_l s)) in *.
  destruct (Rlt_dec (rMax * cb1 * (rs * (16 / 10))) minAllowed) as [Hlow | Hok];
    cbn [fst]; rewrite r3D_spherical; try nra.
  assert (Hprod : rMax * cb1 <= rMax) by nra.
  assert (Hpos : 0 <= rMax * cb1) by nra.
  split; [lra |]. nra.
Qed.

(** The fill leaves the slots before [i] alone and puts a fallback point
    in each of the [slots] slots from [i] on. *)
Lemma fallbackFill_spec (s : Session) :
  (1 <= s_n s)%Z ->
  forall slots i buf sz c,
    let buf' := fst (fst (fallbackFill rnd slots s i buf sz c)) in
    (forall j, (j < i)%nat -> nth_error buf' j = nth_error buf j)
    /\ (forall j p, (i <= j < i + slots)%nat -> nth_error buf' j = Some p ->
                    minAllowed <= r3D p <= fallbackCutoff (s_n s)).
Proof.
  intros Hn. induction slots as [| k IH]; intros i buf sz c; cbn zeta;
    cbn [fallbackFill].
  - split; [reflexivity | intros j p Hj; lia].
  - pose proof (fallbackPoint_radius s c Hn) as Hp.
    destruct (fallbackPoint rnd s c) as [p c1]. cbn [fst] in Hp.
    destruct (IH (S i) (store i p buf) (store i (electronSize s) sz) c1)
      as [Hkeep Hnew].
    split.
    + intros j Hj. rewrite Hkeep by lia. apply nth_error_store_other. lia.
    + intros j q Hj Hq.
      destruct (Nat.eq_dec j i) as [-> | Hne].
      * rewrite Hkeep in Hq by lia.
        apply nth_error_store_same in Hq. now subst q.
      * apply (Hnew j q); [lia | exact Hq].
Qed.

End FallbackFill.

Lemma onDone_current (rnd : nat -> R) (s : Session) (w : World) (c : nat) :
  samplingId s = currentSamplingId w ->
  sampling (fst (onDone rnd s w c)) = false.
Proof.
  intros Hid. unfold onDone. rewrite Hid, Z.eqb_refl. cbn [negb].
  match goal with
  | |- context [pushElectronsOutward rnd ?a ?p ?n c] =>
      destruct (pushElectronsOutward rnd a p n c) as [p' c']
  end.
  reflexivity.
Qed.

Lemma highDraws_unit (j : nat) : 0 <= highDraws j < 1.
Proof. unfold highDraws. lra. Qed.

Lemma angularProb_s (theta phi : R) : angularProb theta phi 0 0 = 1 + / 10 ^ 30.
Proof. unfold angularProb, associatedLegendre; cbn [Z.abs Z.gtb Z.ltb Z.eqb Z.compare]. lra. Qed.

Lemma tiny_pos (k : nat) : 0 < / 10 ^ k.
Proof. apply Rinv_0_lt_compat, pow_lt. lra. Qed.

Lemma tiny_le_1 (k : nat) : / 10 ^ k <= 1.
Proof.
  rewrite <- Rinv_1. apply Rinv_le_contravar; [lra |].
  apply pow_R1_Rle. lra.
Qed.

Section SOrbitalRuns.

Variable rnd : nat -> R.

Lemma estimateLoop_s (trials : nat) :
  forall maxVal c,
    maxVal <= 1 + / 10 ^ 30 ->
    estimateLoop rnd (S trials) 0 0 maxVal c
    = (1 + / 10 ^ 30, (c + 2 * S trials)%nat).
Proof.
  induction trials as [| k IH]; intros maxVal c Hle.
  - cbn [estimateLoop randomRange]. rewrite angularProb_s.
    destruct (Rgt_dec (1 + / 10 ^ 30) maxVal) as [_ | Hng];
      [| replace maxVal with (1 + / 10 ^ 30) by lra]; f_equal; lia.
  - remember (S k) as k' eqn:Hk'. cbn [estimateLoop randomRange].
    rewrite angularProb_s.
    destruct (Rgt_dec (1 + / 10 ^ 30) maxVal) as [_ | Hng];
      [| replace maxVal with (1 + / 10 ^ 30) by lra];
      subst k'; (rewrite IH by lra); f_equal; lia.
Qed.

Lemma estimateMaxAngular_s (c : nat) :
  estimateMaxAngular rnd 0 0 500 c = (1 + / 10 ^ 30, (c + 1000)%nat).
Proof.
  unfold estimateMaxAngular. change 500%nat with (S 499).
  rewrite estimateLoop_s.
  - f_equal.
  - pose proof (tiny_le_1 20). pose proof (tiny_pos 30). lra.
Qed.

(** An attempt of a 1s session whose six draws are all 1/10 is accepted
    at its first angular try. *)
Lemma attempt_accepts_low_draws (s : Session) (c : nat) :
  s_n s = 1%Z -> s_l s = 0%Z -> s_m s = 0%Z ->
  (forall j, (c <= j < c + 6)%nat -> rnd j = 1 / 10) ->
  exists p, attempt rnd s sEnvelope c = (Some p, (c + 6)%nat).
Proof.
  intros Hn Hl Hm Hdraws. unfold attempt. rewrite Hn, Hl, Hm.
  change (kOf 0) with 3%nat. cbn [sumExpLoop random].
  rewrite !Hdraws by lia.
  destruct (Rle_dec (1 / 10) (/ 10 ^ 12)) as [Hle | _];
    [exfalso; revert Hle; apply tiny_lt; [lra | lia] |].
  pose proof (ln_upper (1 / 10)) as Hln.
  unfold proposedRadius, thetaScale, radialScale, radialLScale, a0,
    ELECTRON_DISTANCE_MULTIPLIER.
  cbn [Z.leb Z.compare].
  destruct (Rlt_dec _ minAllowed) as [Hlt | _];
    [exfalso; rewrite minAllowed_value in Hlt; lra |].
  change 20%nat with (S 19). cbn [angularTries randomRange random].
  rewrite angularProb_s, !Hdraws by lia.
  pose proof (tiny_pos 30) as Hpos.
  destruct (Rlt_dec (1 / 10) ((1 + / 10 ^ 30) / sEnvelope)) as [_ | Hng].
  - eexists. f_equal. lia.
  - exfalso. apply Hng. unfold sEnvelope.
    replace ((1 + / 10 ^ 30) / ((1 + / 10 ^ 30) * (12 / 10))) with (10 / 12)
      by (field; lra).
    lra.
Qed.

End SOrbitalRuns.

Lemma oneHitDraws_low (j : nat) : (1000 <= j < 1000 + 6)%nat -> oneHitDraws j = 1 / 10.
Proof.
  intros [Hlo Hhi]. unfold oneHitDraws.
  apply Nat.leb_le in Hlo. rewrite Hlo.
  assert (Hlt : (j <? 1006)%nat = true) by (apply Nat.ltb_lt; lia).
  now rewrite Hlt.
Qed.

Lemma oneHitDraws_high (j : nat) : (1000 + 6 <= j)%nat -> oneHitDraws j = 9 / 10.
Proof.
  intros Hlo. unfold oneHitDraws.
  assert (Hlt : (j <? 1006)%nat = false) by (apply Nat.ltb_ge; lia).
  rewrite Hlt. now rewrite andb_false_r.
Qed.

(** C2, counterexample. The first chunk of a two-point 1s session, fed by
    [oneHitDraws], accepts one point at its first attempt and rejects the
    24999 attempts that follow: the attempt budget is exhausted with the
    count at 1 of 2.  No fallback fill happens: slot 1 still holds the zeros
    it was allocated with, the count stays 1, the callback is not invoked,
    and the chunk is rescheduled with a delay of 10. *)
Lemma exhausted_chunk_with_progress_reschedules :
  exists p w1 c1,
    chunkLoop oneHitDraws ATTEMPTS_PER_CHUNK firstSession sEnvelope
              (Nat.min (numSamples firstSession)
                       (sampleCount firstWorld + CHUNK_SAMPLES))
              firstWorld 1000
    = LoopDone w1 0 c1
    /\ positions w1 = Some [p; origin]
    /\ sampleCount w1 = 1%nat
    /\ (sampleCount w1 < numSamples firstSession)%nat
    /\ step (step initialWorld (EvRequest firstInputs)) (EvFire 0 oneHitDraws)
       = addTimer w1 (TChunk firstSession sEnvelope)
    /\ runTask oneHitDraws (TStart firstSession) firstWorld
       = (addTimer w1 (TChunk firstSession sEnvelope), Rescheduled 10)
    /\ firedCallback (Rescheduled 10) = false.
Proof.
  destruct (attempt_accepts_low_draws oneHitDraws firstSession 1000
              eq_refl eq_refl eq_refl oneHitDraws_low) as (p & Hacc).
  set (w1 := setBuffers firstWorld (Some (store 0 p (repeat origin 2)))
                        (Some (store 0 1 (repeat 0 2))) 1).
  assert (Hbudget : exists b, ATTEMPTS_PER_CHUNK = S b).
  { exists (ATTEMPTS_PER_CHUNK - 1)%nat. unfold ATTEMPTS_PER_CHUNK. lia. }
  destruct Hbudget as (b & Hb).
  assert (Hstop : Nat.min (numSamples firstSession)
                          (sampleCount firstWorld + CHUNK_SAMPLES) = 2%nat).
  { cbn [numSamples firstSession sampleCount firstWorld]. unfold CHUNK_SAMPLES. lia. }
  assert (Hloop : chunkLoop oneHitDraws ATTEMPTS_PER_CHUNK firstSession sEnvelope
                            2 firstWorld 1000
                  = LoopDone w1 0 (1000 + 6 + 3 * b)).
  { rewrite Hb. cbn [chunkLoop].
    change (sampleCount firstWorld <? 2)%nat with true. cbn iota.
    change (negb (samplingId firstSession =? currentSamplingId firstWorld)%Z)
      with false. cbn iota.
    rewrite Hacc.
    change (positions firstWorld) with (Some (repeat origin 2)).
    change (sizes firstWorld) with (Some (repeat 0 2)).
    cbn iota. change (electronSize firstSession) with 1.
    change (sampleCount firstWorld) with 0%nat. fold w1.
    apply chunkLoop_starved; try reflexivity.
    - cbn. lia.
    - intros j Hj. apply oneHitDraws_high. exact Hj. }
  assert (Hrun : runTask oneHitDraws (TStart firstSession) firstWorld
                 = (addTimer w1 (TChunk firstSession sEnvelope), Rescheduled 10)).
  { cbn [runTask]. unfold sampleOrbitalChunked.
    change (numSamples firstSession) with 2%nat. cbn iota.
    change (s_l firstSession) with 0%Z. change (s_m firstSession) with 0%Z.
    rewrite estimateMaxAngular_s. fold sEnvelope.
    unfold chunk.
    change (negb (samplingId firstSession =? currentSamplingId firstWorld)%Z)
      with false. cbn iota.
    rewrite Hstop. change (0 + 1000)%nat with 1000%nat. rewrite Hloop.
    reflexivity. }
  exists p, w1, (1000 + 6 + 3 * b)%nat.
  split; [rewrite Hstop; exact Hloop |].
  split; [reflexivity |]. split; [reflexivity |]. split; [cbn; lia |].
  split; [| split; [exact Hrun | reflexivity]].
  rewrite firstInputs_start. unfold step.
  cbn [timers nth_error dropNth].
  change (setTimers _ []) with firstWorld.
  now rewrite Hrun.
Qed.

(** * Properties of the further functions *)

(** ** Sorting and percentiles *)

Lemma insertSorted_sorted (x : R) (xs : list R) :
  Sorted Rle xs -> Sorted Rle (insertSorted x xs).
Proof.
  induction xs as [| y ys IH]; intros Hs; cbn.
  - repeat constructor.
  - destruct (Rle_dec x y) as [Hle | Hgt].
    + constructor; [exact Hs | now constructor].
    + inversion Hs as [| ? ? Hys Hhd]; subst.
      constructor; [now apply IH |].
      destruct ys as [| z zs]; cbn.
      * constructor. lra.
      * destruct (Rle_dec x z); constructor; try lra.
        inversion Hhd; subst. assumption.
Qed.

Lemma sortAsc_sorted (xs : list R) : Sorted Rle (sortAsc xs).
Proof.
  induction xs as [| x xs IH]; cbn; [constructor |].
  now apply insertSorted_sorted.
Qed.

Lemma insertSorted_perm (x : R) (xs : list R) :
  Permutation (x :: xs) (insertSorted x xs).
Proof.
  induction xs as [| y ys IH]; cbn; [reflexivity |].
  destruct (Rle_dec x y); [reflexivity |].
  rewrite perm_swap. now constructor.
Qed.

Lemma sortAsc_perm (xs : list R) : Permutation xs (sortAsc xs).
Proof.
  induction xs as [| x xs IH]; cbn; [constructor |].
  fold (sortAsc xs). rewrite <- insertSorted_perm. now constructor.
Qed.

Lemma sorted_nth_mono (xs : list R) :
  Sorted Rle xs ->
  forall i j, (i <= j < length xs)%nat -> nth i xs 0 <= nth j xs 0.
Proof.
  intros Hs. apply Sorted_StronglySorted in Hs; [| intros a b c; apply Rle_trans].
  induction Hs as [| x xs Hs IH Hall]; intros i j Hij; [cbn in Hij; lia |].
  destruct i as [| i], j as [| j]; cbn [nth]; cbn [length] in Hij; try lia.
  - lra.
  - eapply Forall_forall; [exact Hall |]. apply nth_In. lia.
  - apply IH. lia.
Qed.

Lemma floorNat_mono (x y : R) : x <= y -> (floorNat x <= floorNat y)%nat.
Proof.
  intros Hxy. unfold floorNat. pose proof (Zfloor_le x y Hxy). lia.
Qed.

Lemma percentile_cons (x : R) (xs : list R) (p : R) :
  percentile (x :: xs) p
  = nth (Nat.min (length xs) (floorNat (p * INR (S (length xs)))))
        (sortAsc (x :: xs)) 0.
Proof.
  unfold percentile. rewrite sortAsc_length. cbn [length].
  now replace (S (length xs) - 1)%nat with (length xs) by lia.
Qed.

(** X1. For a fraction p >= 0 (a negative fraction makes the script index
    before the array, which gives [undefined]): the percentile of an empty
    array is 0; the percentile of a non-empty array is one of its entries,
    so it lies between any two bounds of the array. *)
Theorem percentile_is_an_entry (arr : list R) (p lo hi : R)
    (Hp : 0 <= p)
    (Hne : arr <> [])
    (Hbounds : forall x, In x arr -> lo <= x <= hi) :
  percentile [] p = 0
  /\ In (percentile arr p) arr
  /\ lo <= percentile arr p <= hi.
Proof.
  split; [reflexivity |].
  assert (Hin : In (percentile arr p) arr).
  { destruct arr as [| x xs]; [congruence |].
    rewrite percentile_cons. apply sortAsc_In. apply nth_In.
    rewrite sortAsc_length. cbn [length]. lia. }
  split; [exact Hin | now apply Hbounds].
Qed.

Lemma percentile_is_an_entry_witness :
  0 <= 5 / 10
  /\ In (percentile [3; 1; 2] (5 / 10)) [3; 1; 2]
  /\ 1 <= percentile [3; 1; 2] (5 / 10) <= 3.
Proof.
  assert (Hp : 0 <= 5 / 10) by lra.
  assert (Hne : [3; 1; 2] <> []) by discriminate.
  assert (Hb : forall x, In x [3; 1; 2] -> 1 <= x <= 3).
  { intros x [<- | [<- | [<- | []]]]; lra. }
  split; [exact Hp |].
  exact (proj2 (percentile_is_an_entry [3; 1; 2] (5 / 10) 1 3 Hp Hne Hb)).
Defined.

(** X2. The percentile never decreases when the fraction grows: for
    0 <= p <= q, percentile(arr, p) <= percentile(arr, q). *)
Theorem percentile_monotone_in_p (arr : list R) (p q : R)
    (Hpq : 0 <= p <= q) :
  percentile arr p <= percentile arr q.
Proof.
  destruct arr as [| x xs]; [cbn; lra |].
  rewrite !percentile_cons.
  apply sorted_nth_mono; [apply sortAsc_sorted |].
  rewrite sortAsc_length. cbn [length].
  assert (Hidx : (floorNat (p * INR (S (length xs)))
                  <= floorNat (q * INR (S (length xs))))%nat).
  { apply floorNat_mono. apply Rmult_le_compat_r; [apply pos_INR | lra]. }
  lia.
Qed.

Lemma percentile_monotone_in_p_witness :
  0 <= 10 / 100 <= 90 / 100
  /\ percentile [3; 1; 2] (10 / 100) <= percentile [3; 1; 2] (90 / 100).
Proof.
  assert (H : 0 <= 10 / 100 <= 90 / 100) by lra.
  split; [exact H | exact (percentile_monotone_in_p [3; 1; 2] _ _ H)].
Defined.

(** X3. With a fraction of 1 or more the index is clamped to the last cell:
    the percentile is the maximum of the array; with fraction 0 it is the
    minimum. *)
Theorem percentile_extremes (arr : list R) (p x : R)
    (Hp : 1 <= p) (Hx : In x arr) :
  percentile arr 0 <= x <= percentile arr p.
Proof.
  destruct arr as [| y ys]; [contradiction |].
  rewrite !percentile_cons.
  apply sortAsc_In in Hx. apply In_nth with (d := 0) in Hx.
  destruct Hx as (i & Hi & <-). rewrite sortAsc_length in Hi. cbn [length] in Hi.
  assert (H0 : floorNat (0 * INR (S (length ys))) = 0%nat).
  { rewrite Rmult_0_l. unfold floorNat. now rewrite (ZfloorZ 0). }
  assert (Hlast : (length ys <= floorNat (p * INR (S (length ys))))%nat).
  { transitivity (floorNat (INR (S (length ys)))).
    - unfold floorNat. rewrite INR_IZR_INZ, ZfloorZ. lia.
    - apply floorNat_mono.
      pose proof (pos_INR (S (length ys))). nra. }
  rewrite H0, Nat.min_0_r, (Nat.min_l _ _ Hlast).
  split; apply sorted_nth_mono; try apply sortAsc_sorted;
    rewrite sortAsc_length; cbn [length]; lia.
Qed.

Lemma percentile_extremes_witness :
  percentile [3; 1; 2] 0 <= 2 <= percentile [3; 1; 2] 1.
Proof.
  apply (percentile_extremes [3; 1; 2] 1 2); [lra |].
  right; right; now left.
Defined.

(** ** Vector helpers *)

Lemma r3D_normSq (p : Vec3) : r3D p = sqrt (normSq p).
Proof. reflexivity. Qed.

Lemma normSq_nonneg (p : Vec3) : 0 <= normSq p.
Proof. unfold normSq. nra. Qed.

Lemma r3D_sq (p : Vec3) : r3D p * r3D p = normSq p.
Proof. rewrite r3D_normSq. apply sqrt_sqrt, normSq_nonneg. Qed.

Lemma orOne_nonzero (v : R) : v <> 0 -> orOne v = v.
Proof. intros Hv. unfold orOne. destruct (Req_dec_T v 0); [contradiction | reflexivity]. Qed.

Lemma r3D_divided (p : Vec3) (len : R) :
  0 < len -> r3D (mkVec3 (vx p / len) (vy p / len) (vz p / len)) = r3D p / len.
Proof.
  intros Hlen.
  replace (mkVec3 (vx p / len) (vy p / len) (vz p / len))
    with (scaleVec (/ len) p) by reflexivity.
  rewrite r3D_scale; [unfold Rdiv; ring |].
  left. now apply Rinv_0_lt_compat.
Qed.

Lemma lagrange_identity (a b : Vec3) :
  normSq (cross a b) = normSq a * normSq b - dot a b * dot a b.
Proof. unfold normSq, cross, dot; cbn. ring. Qed.

Lemma cross_perp_left (a b : Vec3) : dot a (cross a b) = 0.
Proof. unfold cross, dot; cbn. ring. Qed.

Lemma cross_perp_right (a b : Vec3) : dot b (cross a b) = 0.
Proof. unfold cross, dot; cbn. ring. Qed.

Lemma dot_divided (a p : Vec3) (len : R) :
  dot a (mkVec3 (vx p / len) (vy p / len) (vz p / len)) = dot a p / len.
Proof. unfold dot; cbn. unfold Rdiv. ring. Qed.

Lemma dot_divided_l (a p : Vec3) (len : R) :
  dot (mkVec3 (vx p / len) (vy p / len) (vz p / len)) a = dot p a / len.
Proof. unfold dot; cbn. unfold Rdiv. ring. Qed.

(** X4. [normalizeVec3] (and [_overlayNormalize]) returns a vector of
    length 1 pointing the same way for every vector off the origin, and
    returns the origin for the origin. *)
Theorem normalizeVec3_unit (v : Vec3) (Hv : 0 < r3D v) :
  r3D (normalizeVec3 v) = 1
  /\ scaleVec (r3D v) (normalizeVec3 v) = v
  /\ normalizeVec3 origin = origin.
Proof.
  split; [| split].
  - unfold normalizeVec3. rewrite orOne_nonzero by lra.
    rewrite r3D_divided by exact Hv. field. lra.
  - unfold normalizeVec3. rewrite orOne_nonzero by lra.
    destruct v as [x y z]. unfold scaleVec; cbn [vx vy vz].
    f_equal; field; lra.
  - unfold normalizeVec3, origin, r3D; cbn [vx vy vz].
    replace (0 * 0 + 0 * 0 + 0 * 0) with 0 by ring.
    rewrite sqrt_0. unfold orOne.
    destruct (Req_dec_T 0 0); [| congruence].
    f_equal; lra.
Qed.

Lemma normalizeVec3_unit_witness :
  0 < r3D (mkVec3 30 0 0) /\ r3D (normalizeVec3 (mkVec3 30 0 0)) = 1.
Proof.
  assert (H : 0 < r3D (mkVec3 30 0 0)).
  { unfold r3D; cbn [vx vy vz]. rewrite sqrt_sq_plus_zeros; lra. }
  split; [exact H | exact (proj1 (normalizeVec3_unit _ H))].
Defined.

(** X5. For a unit axis [makePerpBasis] returns two unit vectors that are
    perpendicular to the axis and to each other. *)
Theorem makePerpBasis_orthonormal (axis : Vec3) (Hunit : r3D axis = 1) :
  let '(v1, v2) := makePerpBasis axis in
  r3D v1 = 1 /\ r3D v2 = 1
  /\ dot axis v1 = 0 /\ dot axis v2 = 0 /\ dot v1 v2 = 0.
Proof.
  assert (Haxis : normSq axis = 1) by (rewrite <- r3D_sq, Hunit; ring).
  unfold makePerpBasis.
  set (arbitrary := if Rlt_dec (Rabs (vx axis)) (9 / 10)
                    then mkVec3 1 0 0 else mkVec3 0 1 0).
  set (raw1 := cross axis arbitrary).
  assert (Hraw1 : 0 < normSq raw1).
  { unfold raw1. rewrite lagrange_identity, Haxis.
    unfold arbitrary. destruct (Rlt_dec (Rabs (vx axis)) (9 / 10)) as [Hx | Hx].
    - apply Rabs_def2 in Hx. unfold normSq, dot; cbn [vx vy vz]. nra.
    - unfold normSq, dot in *; cbn [vx vy vz].
      assert (Hsq : 81 / 100 <= vx axis * vx axis).
      { unfold Rabs in Hx. destruct (Rcase_abs (vx axis)); nra. }
      nra. }
  assert (Hlen1 : 0 < r3D raw1).
  { rewrite r3D_normSq. now apply sqrt_lt_R0. }
  rewrite (orOne_nonzero (r3D raw1)) by lra.
  set (v1 := mkVec3 (vx raw1 / r3D raw1) (vy raw1 / r3D raw1) (vz raw1 / r3D raw1)).
  assert (Hv1 : r3D v1 = 1).
  { unfold v1. rewrite r3D_divided by exact Hlen1. field. lra. }
  assert (Hperp1 : dot axis v1 = 0).
  { unfold v1. rewrite dot_divided. unfold raw1. rewrite cross_perp_left.
    unfold Rdiv. ring. }
  set (raw2 := cross axis v1).
  assert (Hraw2 : r3D raw2 = 1).
  { rewrite r3D_normSq. unfold raw2.
    rewrite lagrange_identity, Haxis, Hperp1, <- r3D_sq, Hv1.
    replace (1 * (1 * 1) - 0 * 0) with 1 by ring. apply sqrt_1. }
  rewrite (orOne_nonzero (r3D raw2)) by lra.
  rewrite Hraw2.
  split; [exact Hv1 |]. split.
  { rewrite r3D_divided by lra. rewrite Hraw2. lra. }
  split; [exact Hperp1 |]. split.
  - rewrite dot_divided. unfold raw2. rewrite cross_perp_left. lra.
  - rewrite dot_divided. unfold raw2. rewrite cross_perp_right. lra.
Qed.

Lemma makePerpBasis_orthonormal_witness :
  r3D (mkVec3 1 0 0) = 1
  /\ let '(v1, v2) := makePerpBasis (mkVec3 1 0 0) in
     r3D v1 = 1 /\ r3D v2 = 1
     /\ dot (mkVec3 1 0 0) v1 = 0 /\ dot (mkVec3 1 0 0) v2 = 0 /\ dot v1 v2 = 0.
Proof.
  assert (H : r3D (mkVec3 1 0 0) = 1).
  { unfold r3D; cbn [vx vy vz]. rewrite sqrt_sq_plus_zeros; lra. }
  split; [exact H | exact (makePerpBasis_orthonormal _ H)].
Defined.

(** ** Torus tessellation *)

Lemma scaled_floor_bounds (u lo : Z) (s : R) :
  (0 <= lo)%Z -> 8 / 10 < s < 1 -> (10 * lo <= 8 * u)%Z ->
  (lo <= Zfloor (IZR u * s) <= u)%Z /\ IZR (Zfloor (IZR u * s)) <= IZR u * s.
Proof.
  intros Hlo [Hs0 Hs1] Hu.
  pose proof (Zfloor_bound (IZR u * s)) as [Hfl _].
  apply IZR_le in Hlo, Hu. rewrite !mult_IZR in Hu.
  split; [split |]; [| | exact Hfl].
  - apply Zfloor_lub. nra.
  - apply le_IZR. nra.
Qed.

(** X6. [computeTorusSegments] always returns between 8 and 768 segments
    around the ring and between 4 and 384 around the tube, and their
    product never exceeds MAX_TORUS_VERTEX_COUNT = 200000. *)
Theorem computeTorusSegments_within_budget (majorR tubeR : R) :
  let '(uSegs, vSegs) := computeTorusSegments majorR tubeR in
  (8 <= uSegs <= APP_SAFE_MAX_TORUS_U)%Z
  /\ (4 <= vSegs <= APP_SAFE_MAX_TORUS_V)%Z
  /\ (uSegs * vSegs <= MAX_TORUS_VERTEX_COUNT)%Z.
Proof.
  unfold computeTorusSegments, APP_SAFE_MAX_TORUS_U, APP_SAFE_MAX_TORUS_V,
    MAX_TORUS_VERTEX_COUNT.
  set (u0 := Z.max 8 (Z.min 768 (jsRound (256 * Rmax (4 / 10) (majorR / 200))))).
  set (v0 := Z.max 4 (Z.min 384 (jsRound (64 * Rmax (5 / 10) (tubeR / 6))))).
  assert (Hu0 : (8 <= u0 <= 768)%Z) by (unfold u0; lia).
  assert (Hv0 : (4 <= v0 <= 384)%Z) by (unfold v0; lia).
  destruct (Z.gtb_spec (u0 * v0) 200000) as [Hbig | Hsmall].
  - set (s := sqrt (200000 / IZR (u0 * v0))).
    assert (Hprod : 200000 < IZR (u0 * v0) <= 294912).
    { split; [apply IZR_lt in Hbig; exact Hbig |].
      apply IZR_le. nia. }
    assert (Hratio : 64 / 100 < 200000 / IZR (u0 * v0) < 1).
    { assert (Hq : 200000 / IZR (u0 * v0) * IZR (u0 * v0) = 200000)
        by (field; lra).
      assert (Hq0 : 0 < 200000 / IZR (u0 * v0))
        by (apply Rdiv_lt_0_compat; lra).
      split; nra. }
    assert (Hss : s * s = 200000 / IZR (u0 * v0)) by (apply sqrt_sqrt; lra).
    assert (Hs0 : 0 <= s) by apply sqrt_pos.
    assert (Hs : 8 / 10 < s < 1) by (split; nra).
    assert (Hu520 : (10 * 8 <= 8 * u0)%Z) by nia.
    assert (Hv260 : (10 * 4 <= 8 * v0)%Z) by nia.
    destruct (scaled_floor_bounds u0 8 s ltac:(lia) Hs Hu520) as [Hfu Hfu'].
    destruct (scaled_floor_bounds v0 4 s ltac:(lia) Hs Hv260) as [Hfv Hfv'].
    set (fu := Zfloor (IZR u0 * s)) in *.
    set (fv := Zfloor (IZR v0 * s)) in *.
    split; [lia |]. split; [lia |].
    replace (Z.max 8 (Z.min 768 (Z.max 8 fu))) with fu by lia.
    replace (Z.max 4 (Z.min 384 (Z.max 4 fv))) with fv by lia.
    apply le_IZR. rewrite mult_IZR.
    assert (Hfu0 : 0 <= IZR fu) by (apply IZR_le; lia).
    assert (Hfv0 : 0 <= IZR fv) by (apply IZR_le; lia).
    assert (Hmul : IZR fu * IZR fv <= (IZR u0 * s) * (IZR v0 * s)).
    { apply Rmult_le_compat; assumption. }
    replace (IZR u0 * s * (IZR v0 * s)) with (IZR (u0 * v0) * (s * s)) in Hmul
      by (rewrite mult_IZR; ring).
    rewrite Hss in Hmul.
    replace (IZR (u0 * v0) * (200000 / IZR (u0 * v0))) with 200000 in Hmul
      by (field; lra).
    exact Hmul.
  - split; [lia |]. split; [lia |].
    replace (Z.max 8 (Z.min 768 u0)) with u0 by lia.
    replace (Z.max 4 (Z.min 384 v0)) with v0 by lia.
    exact Hsmall.
Qed.

(** ** Angular density and its envelope *)

Lemma angularProb_floor (theta phi : R) (l m : Z) :
  / 10 ^ 30 <= angularProb theta phi l m.
Proof.
  unfold angularProb.
  match goal with |- _ <= ?a * ?a + _ => assert (0 <= a * a) by nra end.
  lra.
Qed.

Lemma estimateLoop_spec (rnd : nat -> R) (l m : Z) :
  forall trials maxVal c,
    let est := fst (estimateLoop rnd trials l m maxVal c) in
    maxVal <= est
    /\ snd (estimateLoop rnd trials l m maxVal c) = (c + 2 * trials)%nat
    /\ forall i, (i < trials)%nat ->
                 angularProb (trialTheta rnd c i) (trialPhi rnd c i) l m <= est.
Proof.
  induction trials as [| t IH]; intros maxVal c; cbn zeta.
  - cbn. split; [lra |]. split; [lia | intros i Hi; lia].
  - cbn [estimateLoop randomRange].
    set (v := angularProb (acos (rnd c * (1 - -1) + -1))
                          (rnd (S c) * (TWO_PI - 0) + 0) l m).
    set (mv := if Rgt_dec v maxVal then v else maxVal).
    assert (Hmv : maxVal <= mv /\ v <= mv).
    { unfold mv. destruct (Rgt_dec v maxVal); lra. }
    destruct (IH mv (S (S c))) as (Hge & Hcur & Hall).
    split; [lra |]. split; [rewrite Hcur; lia |].
    intros [| i] Hi.
    + unfold trialTheta, trialPhi.
      replace (c + 2 * 0)%nat with c by lia.
      replace (c + 1)%nat with (S c) by lia.
      fold v. lra.
    + specialize (Hall i ltac:(lia)).
      unfold trialTheta, trialPhi in *.
      replace (c + 2 * S i)%nat with (S (S c) + 2 * i)%nat by lia.
      exact Hall.
Qed.

(** X7. The angular density is at least 1e-30 in every direction.  The
    estimate of its maximum is at least 1e-20 (so the acceptance ratio never
    divides by zero), takes two draws per trial, and is not below the
    density at any of the directions it tried. *)
Theorem estimateMaxAngular_envelope
    (rnd : nat -> R) (l m : Z) (trialCount c : nat) :
  let est := fst (estimateMaxAngular rnd l m trialCount c) in
  (forall theta phi, / 10 ^ 30 <= angularProb theta phi l m)
  /\ / 10 ^ 20 <= est
  /\ 0 < est
  /\ snd (estimateMaxAngular rnd l m trialCount c) = (c + 2 * trialCount)%nat
  /\ forall i, (i < trialCount)%nat ->
               angularProb (trialTheta rnd c i) (trialPhi rnd c i) l m <= est.
Proof.
  cbn zeta. unfold estimateMaxAngular.
  destruct (estimateLoop_spec rnd l m trialCount (/ 10 ^ 20) c) as (Hge & Hcur & Hall).
  pose proof (tiny_pos 20) as Hpos.
  split; [intros; apply angularProb_floor |].
  split; [exact Hge |]. split; [lra |]. split; [exact Hcur | exact Hall].
Qed.

Lemma estimateMaxAngular_envelope_witness :
  (0 < 500)%nat
  /\ angularProb (trialTheta halfDraws 0 0) (trialPhi halfDraws 0 0) 2 1
     <= fst (estimateMaxAngular halfDraws 2 1 500 0).
Proof.
  assert (H : (0 < 500)%nat) by lia.
  split; [exact H |].
  exact (proj2 (proj2 (proj2 (proj2
           (estimateMaxAngular_envelope halfDraws 2 1 500 0)))) 0%nat H).
Defined.

(** ** Radial draw and accepted points *)







(** ** One chunk on allocated buffers *)

Lemma attempt_clear (rnd : nat -> R) (s : Session) (maxAngular : R)
    (c c' : nat) (p : Vec3) :
  attempt rnd s maxAngular c = (Some p, c') -> minAllowed <= r3D p.
Proof.
  unfold attempt.
  destruct (sumExpLoop rnd (kOf (s_l s)) 0 c) as [sumExp c1].
  destruct (Rlt_dec (proposedRadius (s_n s) (s_l s) sumExp) minAllowed) as [| Hge];
    [discriminate |].
  destruct (angularTries rnd 20 (s_l s) (s_m s) maxAngular c1)
    as [[[thetaS phiS] |] c2]; [| discriminate].
  intros [= <- <-]. pose proof minAllowed_value.
  rewrite r3D_spherical; lra.
Qed.

Lemma nth_error_store_hit {A : Type} (i : nat) (v : A) (xs : list A) :
  (i < length xs)%nat -> nth_error (store i v xs) i = Some v.
Proof.
  revert i. induction xs as [| x xs IH]; intros [| i] Hi; cbn in *; try lia.
  - reflexivity.
  - apply IH. lia.
Qed.

Section ChunkOnBuffers.

Variable rnd : nat -> R.
Variable s : Session.
Variable maxAngular : R.
Variable stopIndex : nat.

(** What the loop of a current session does to allocated buffers. *)
Lemma chunkLoop_on_buffers :
  forall budget w c buf sz,
    positions w = Some buf -> sizes w = Some sz ->
    samplingId s = currentSamplingId w ->
    exists w1 budgetLeft c1 buf1 sz1,
      chunkLoop rnd budget s maxAngular stopIndex w c = LoopDone w1 budgetLeft c1
      /\ positions w1 = Some buf1 /\ sizes w1 = Some sz1
      /\ length buf1 = length buf /\ length sz1 = length sz
      /\ (sampleCount w <= sampleCount w1 <= Nat.max (sampleCount w) stopIndex)%nat
      /\ (budgetLeft = 0%nat \/ (stopIndex <= sampleCount w1)%nat)
      /\ (forall j, (j < sampleCount w)%nat -> nth_error buf1 j = nth_error buf j)
      /\ (forall j p, (sampleCount w <= j < sampleCount w1)%nat ->
                      nth_error buf1 j = Some p -> minAllowed <= r3D p)
      /\ currentSamplingId w1 = currentSamplingId w
      /\ timers w1 = timers w
      /\ sampling w1 = sampling w
      /\ sampleTarget w1 = sampleTarget w.
Proof.
  induction budget as [| b IH]; intros w c buf sz Hp Hs Hid; cbn [chunkLoop].
  - destruct (Nat.ltb_spec (sampleCount w) stopIndex);
      exists w, 0%nat, c, buf, sz; repeat split; auto; try lia;
      try (intros j p Hj; lia).
  - destruct (Nat.ltb_spec (sampleCount w) stopIndex) as [Hlt | Hge].
    2:{ exists w, (S b), c, buf, sz. repeat split; auto; try lia;
        try (intros j p Hj; lia). }
    rewrite Hid, Z.eqb_refl. cbn [negb].
    destruct (attempt rnd s maxAngular c) as [[p |] c1] eqn:Hatt.
    2:{ destruct (IH w c1 buf sz Hp Hs Hid)
          as (w1 & bl & c2 & buf1 & sz1 & Heq & H).
        exists w1, bl, c2, buf1, sz1. split; [exact Heq | exact H]. }
    rewrite Hp, Hs.
    set (w' := setBuffers w (Some (store (sampleCount w) p buf))
                          (Some (store (sampleCount w) (electronSize s) sz))
                          (S (sampleCount w))).
    destruct (IH w' c1 _ _ eq_refl eq_refl Hid)
      as (w1 & bl & c2 & buf1 & sz1 & Heq & Hp1 & Hs1 & Hl1 & Hl2 & Hcnt & Hexit
          & Hkeep & Hnew & Hcur & Ht & Hsam & Htg).
    change (sampleCount w') with (S (sampleCount w)) in Hcnt, Hkeep, Hnew.
    rewrite store_length in Hl1. rewrite store_length in Hl2.
    exists w1, bl, c2, buf1, sz1.
    split; [exact Heq |]. split; [exact Hp1 |]. split; [exact Hs1 |].
    split; [exact Hl1 |]. split; [exact Hl2 |]. split; [lia |].
    split; [exact Hexit |]. split.
    { intros j Hj. rewrite Hkeep by lia. apply nth_error_store_other. lia. }
    split; [| now repeat split].
    intros j q Hj Hq.
    destruct (Nat.eq_dec j (sampleCount w)) as [-> | Hne].
    + rewrite Hkeep in Hq by lia.
      apply nth_error_store_same in Hq. subst q.
      eapply attempt_clear; exact Hatt.
    + apply (Hnew j q); [lia | exact Hq].
Qed.

End ChunkOnBuffers.

Lemma CHUNK_SAMPLES_pos : (0 < CHUNK_SAMPLES)%nat.
Proof. unfold CHUNK_SAMPLES. lia. Qed.

Lemma onDone_on_buffers (rnd : nat -> R) (s : Session) (w : World) (c : nat)
    (buf : list Vec3) :
  samplingId s = currentSamplingId w ->
  positions w = Some buf ->
  let w' := fst (onDone rnd s w c) in
  sampleCount w' = sampleCount w
  /\ sampling w' = false
  /\ timers w' = timers w
  /\ sizes w' = sizes w
  /\ currentSamplingId w' = currentSamplingId w
  /\ sampleTarget w' = sampleTarget w
  /\ exists pts', positions w' = Some pts'
                  /\ length pts' = length buf
                  /\ Forall clear (firstn (sampleCount w) pts').
Proof.
  intros Hid Hpos. cbn zeta.
  destruct (onDone_frame rnd s w c) as ((Hcur & Htg & _ & _ & Hsz) & Ht & Hcnt).
  pose proof (onDone_current rnd s w c Hid) as Hsam.
  destruct (onDone_clearance rnd s w c buf Hid Hpos) as (pts' & Hp' & Hall).
  split; [exact Hcnt |]. split; [exact Hsam |]. split; [exact Ht |].
  split.
  { unfold onDone. rewrite Hid, Z.eqb_refl. cbn [negb].
    destruct (pushElectronsOutward _ _ _ _ _) as [p' c']. reflexivity. }
  split; [exact Hcur |]. split; [exact Htg |].
  exists pts'. split; [exact Hp' |]. split; [| exact Hall].
  unfold bufferSize in Hsz. now rewrite Hp', Hpos in Hsz.
Qed.

Section ChunkOutcome.

Variable rnd : nat -> R.
Variable s : Session.
Variable maxAngular : R.

(** A chunk of the current session on allocated buffers either reschedules
    itself after strict progress or ends the session. *)
Lemma chunk_on_buffers (w : World) (c : nat) (buf : list Vec3) (sz : list R) :
  samplingId s = currentSamplingId w ->
  positions w = Some buf -> sizes w = Some sz ->
  (sampleCount w <= numSamples s)%nat ->
  let w' := fst (chunk rnd s maxAngular w c) in
  let e := snd (chunk rnd s maxAngular w c) in
  ((exists delay, e = Rescheduled delay /\ (delay = 0 \/ delay = 10)%nat)
   /\ (sampleCount w < sampleCount w' < numSamples s)%nat
   /\ (sampleCount w' <= sampleCount w + CHUNK_SAMPLES)%nat
   /\ timers w' = timers w ++ [TChunk s maxAngular]
   /\ currentSamplingId w' = currentSamplingId w
   /\ sampling w' = sampling w
   /\ sampleTarget w' = sampleTarget w
   /\ exists buf' sz',
        positions w' = Some buf' /\ sizes w' = Some sz'
        /\ length buf' = length buf /\ length sz' = length sz
        /\ (forall j, (j < sampleCount w)%nat -> nth_error buf' j = nth_error buf j)
        /\ (forall j p, (sampleCount w <= j < sampleCount w')%nat ->
                        nth_error buf' j = Some p -> clear p))
  \/ ((e = Finished \/ e = FallbackFilled)
      /\ sampleCount w' = numSamples s
      /\ sampling w' = false
      /\ timers w' = timers w
      /\ currentSamplingId w' = currentSamplingId w
      /\ sampleTarget w' = sampleTarget w
      /\ exists pts',
           positions w' = Some pts' /\ length pts' = length buf
           /\ Forall clear (firstn (numSamples s) pts')).
Proof.
  intros Hid Hp Hs Hle. cbn zeta. unfold chunk.
  rewrite Hid, Z.eqb_refl. cbn [negb].
  set (stopIndex := Nat.min (numSamples s) (sampleCount w + CHUNK_SAMPLES)).
  destruct (chunkLoop_on_buffers rnd s maxAngular stopIndex ATTEMPTS_PER_CHUNK
              w c buf sz Hp Hs Hid)
    as (w1 & bl & c1 & buf1 & sz1 & Heq & Hp1 & Hs1 & Hl1 & Hl2 & Hcnt & Hexit
        & Hkeep & Hnew & Hcur & Ht & Hsam & Htg).
  rewrite Heq.
  pose proof CHUNK_SAMPLES_pos as Hchunk.
  assert (Hid1 : samplingId s = currentSamplingId w1) by congruence.
  destruct (Nat.ltb_spec (sampleCount w1) (numSamples s)) as [Hlt | Hge].
  - destruct (Nat.eqb_spec bl 0) as [Hbl | Hbl];
      [destruct (Nat.eqb_spec (sampleCount w1) (sampleCount w)) as [Hsame | Hmoved] |];
      cbn [andb].
    + (* fallback fill *)
      right. rewrite Hp1, Hs1.
      destruct (fallbackFill rnd (numSamples s - sampleCount w1) s
                  (sampleCount w1) buf1 sz1 c1) as [[buf' sz'] c2] eqn:Hfill.
      pose proof (fallbackFill_length rnd s (numSamples s - sampleCount w1)
                    (sampleCount w1) buf1 sz1 c1) as Hlen.
      rewrite Hfill in Hlen. cbn [fst snd] in *.
      set (w2 := setBuffers w1 (Some buf') (Some sz') (numSamples s)).
      destruct (onDone_on_buffers rnd s w2 c2 buf' Hid1 eq_refl)
        as (Hc & Hsm & Htm & _ & Hcu & Htgt & pts' & Hpp & Hpl & Hall).
      split; [now right |]. split; [exact Hc |]. split; [exact Hsm |].
      split; [rewrite Htm; exact Ht |]. split; [rewrite Hcu; exact Hcur |].
      split; [rewrite Htgt; exact Htg |].
      exists pts'. split; [exact Hpp |]. split; [congruence | exact Hall].
    + (* exhausted after progress *)
      left. rewrite Hcur, Z.eqb_refl.
      cbn [negb fst snd addTimer sampleCount currentSamplingId sampling
           sampleTarget positions sizes timers].
      split; [exists 10%nat; split; [reflexivity | now right] |].
      unfold stopIndex in *.
      split; [lia |]. split; [lia |]. split; [now rewrite Ht |].
      split; [exact Hcur |]. split; [exact Hsam |]. split; [exact Htg |].
      exists buf1, sz1. now repeat split.
    + (* quota of the chunk met, more to do *)
      left. rewrite Hcur, Z.eqb_refl.
      cbn [negb fst snd addTimer sampleCount currentSamplingId sampling
           sampleTarget positions sizes timers].
      split; [exists 0%nat; split; [reflexivity | now left] |].
      unfold stopIndex in *.
      destruct Hexit as [-> | Hstop]; [congruence |].
      split; [lia |]. split; [lia |]. split; [now rewrite Ht |].
      split; [exact Hcur |]. split; [exact Hsam |]. split; [exact Htg |].
      exists buf1, sz1. now repeat split.
  - (* requested count reached *)
    right. cbn [fst snd].
    destruct (onDone_on_buffers rnd s w1 c1 buf1 Hid1 Hp1)
      as (Hc & Hsm & Htm & _ & Hcu & Htgt & pts' & Hpp & Hpl & Hall).
    assert (Hfull : sampleCount w1 = numSamples s) by (unfold stopIndex in *; lia).
    split; [now left |]. split; [congruence |]. split; [exact Hsm |].
    split; [congruence |]. split; [congruence |]. split; [congruence |].
    exists pts'. split; [exact Hpp |]. split; [congruence |].
    now rewrite <- Hfull.
Qed.

End ChunkOutcome.




(** ** A session runs to its end *)

Lemma sessionDone_stays (s : Session) (w : World) (rnds : list (nat -> R)) :
  sessionDone s w -> fireAll w rnds = w.
Proof.
  intros (_ & _ & Ht & _). induction rnds as [| rnd rest IH]; [reflexivity |].
  unfold fireAll in *. cbn [fold_left].
  unfold fireHead at 2. unfold step. rewrite Ht. cbn [nth_error]. exact IH.
Qed.

Lemma fireHead_single (w : World) (t : Task) (rnd : nat -> R) :
  timers w = [t] ->
  fireHead w rnd = fst (runTask rnd t (setTimers w [])).
Proof.
  intros Ht. unfold fireHead, step. rewrite Ht. reflexivity.
Qed.

(** One firing of the only pending task of a ready session. *)
Lemma fireHead_ready (w : World) (t : Task) (rnd : nat -> R) :
  timers w = [t] ->
  chunkReady (taskSession t) w ->
  numSamples (taskSession t) <> 0%nat ->
  let w' := fireHead w rnd in
  (exists maxAngular,
      timers w' = [TChunk (taskSession t) maxAngular]
      /\ chunkReady (taskSession t) w'
      /\ (sampleCount w < sampleCount w' < numSamples (taskSession t))%nat)
  \/ sessionDone (taskSession t) w'.
Proof.
  intros Ht Hready Hn. cbn zeta. rewrite (fireHead_single w t rnd Ht).
  destruct Hready as (Hid & (buf & Hp) & (sz & Hs) & Hle).
  assert (Hchunk : forall mx c,
             let w' := fst (chunk rnd (taskSession t) mx (setTimers w []) c) in
             (timers w' = [TChunk (taskSession t) mx]
              /\ chunkReady (taskSession t) w'
              /\ (sampleCount w < sampleCount w' < numSamples (taskSession t))%nat)
             \/ sessionDone (taskSession t) w').
  { intros mx c. cbn zeta.
    destruct (chunk_on_buffers rnd (taskSession t) mx (setTimers w []) c buf sz
                Hid Hp Hs Hle)
      as [(_ & Hprog & _ & Htm & Hcur & _ & _ & buf' & sz' & Hp' & Hs' & _)
         | (_ & Hc & Hsm & Htm & _ & _ & pts' & Hp' & _ & Hall)].
    - left. split; [exact Htm |]. split; [| exact Hprog].
      split; [cbn in Hcur; congruence |]. split; [now exists buf' |].
      split; [now exists sz' | cbn in Hprog; lia].
    - right. split; [exact Hc |]. split; [exact Hsm |]. split; [exact Htm |].
      now exists pts'. }
  destruct t as [s | s mx]; cbn [runTask taskSession] in *.
  - unfold sampleOrbitalChunked.
    destruct (numSamples s) eqn:Hns; [congruence |]. rewrite <- Hns in *.
    destruct (estimateMaxAngular rnd (s_l s) (s_m s) 500 0) as [est c1].
    destruct (Hchunk (est * (12 / 10)) c1) as [H | H]; [left | now right].
    now exists (est * (12 / 10)).
  - destruct (Hchunk mx 0%nat) as [H | H]; [left | now right].
    now exists mx.
Qed.

Lemma fireAll_ready :
  forall rnds w t,
    timers w = [t] ->
    chunkReady (taskSession t) w ->
    numSamples (taskSession t) <> 0%nat ->
    (1 <= length rnds)%nat ->
    (numSamples (taskSession t) - sampleCount w <= length rnds)%nat ->
    sessionDone (taskSession t) (fireAll w rnds).
Proof.
  induction rnds as [| rnd rest IH]; intros w t Ht Hready Hn H1 Hlen;
    [cbn in H1; lia |].
  unfold fireAll. cbn [fold_left]. fold (fireAll (fireHead w rnd) rest).
  destruct (fireHead_ready w t rnd Ht Hready Hn)
    as [(mx & Ht' & Hready' & Hprog) | Hdone].
  - cbn [length] in Hlen.
    apply (IH (fireHead w rnd) (TChunk (taskSession t) mx)); cbn [taskSession];
      try assumption; lia.
  - now rewrite (sessionDone_stays _ _ rest Hdone).
Qed.

Lemma fireHead_bufferSize (w : World) (rnd : nat -> R) :
  bufferSize (fireHead w rnd) = bufferSize w.
Proof.
  unfold fireHead, step.
  destruct (nth_error (timers w) 0) as [t |]; [| reflexivity].
  set (w0 := setTimers w (dropNth 0 (timers w))).
  assert (Hsame : sameControl w0 (fst (runTask rnd t w0))).
  { destruct t as [s | s mx]; cbn [runTask].
    - apply sampleOrbitalChunked_frame.
    - apply chunk_frame. }
  destruct Hsame as (_ & _ & _ & _ & Hsz). exact Hsz.
Qed.

Lemma fireAll_bufferSize (rnds : list (nat -> R)) :
  forall w, bufferSize (fireAll w rnds) = bufferSize w.
Proof.
  induction rnds as [| rnd rest IH]; intros w; [reflexivity |].
  unfold fireAll. cbn [fold_left]. fold (fireAll (fireHead w rnd) rest).
  now rewrite IH, fireHead_bufferSize.
Qed.

(** X10. A request that starts a session while no timer is pending is
    served in full: once the timers of the session have fired as many times
    as points were requested (whatever the generator draws), the buffer
    holds exactly the requested number of points, each outside the
    clearance, [sampling] is down and no timer is left. *)
Theorem request_eventually_completes
    (w : World) (u : UIInputs) (rnds : list (nat -> R))
    (Hidle : timers w = [])
    (Hstart : startedSession w (step w (EvRequest u)))
    (Hlen : (Z.to_nat (guardedCount u) <= length rnds)%nat) :
  let w' := fireAll (step w (EvRequest u)) rnds in
  sampleCount w' = Z.to_nat (guardedCount u)
  /\ sampleTarget (step w (EvRequest u)) = Z.to_nat (guardedCount u)
  /\ sampling w' = false
  /\ timers w' = []
  /\ exists pts,
       positions w' = Some pts
       /\ length pts = Z.to_nat (guardedCount u)
       /\ Forall clear pts.
Proof.
  cbn zeta.
  pose proof (fireAll_bufferSize rnds (step w (EvRequest u))) as Hsize.
  assert (Hcnt : guardedCount u <> 0%Z).
  { unfold startedSession in Hstart. cbn [step] in Hstart.
    destruct (createOrbitalFromUI_cases (setUI w (Some u)))
      as [(Hid & _) | [(Hid & _) | (u' & Hu & Hc & _)]].
    - rewrite Hid in Hstart. cbn in Hstart. lia.
    - rewrite Hid in Hstart. cbn in Hstart. lia.
    - cbn in Hu. now injection Hu as <-. }
  pose proof (guardedCount_range u) as Hrange.
  rewrite (startedSession_shape w u Hstart) in *.
  set (s := mkSession (guardedN u) (guardedL u) (guardedM u)
                      (Z.to_nat (guardedCount u)) (guardedSize u)
                      (currentSamplingId w + 1)%Z) in *.
  rewrite Hidle in *. cbn [app] in *.
  match goal with
  | |- context [fireAll ?w0 rnds] =>
      destruct (fireAll_ready rnds w0 (TStart s)) as (Hc & Hsm & Ht & pts & Hp & Hall)
  end.
  - reflexivity.
  - split; [reflexivity |]. split; [now eexists |]. split; [now eexists |].
    cbn. lia.
  - cbn. lia.
  - lia.
  - cbn. lia.
  - cbn [taskSession numSamples s] in *.
    split; [exact Hc |]. split; [reflexivity |]. split; [exact Hsm |].
    split; [exact Ht |].
    unfold bufferSize in Hsize. rewrite Hp in Hsize.
    cbn [positions] in Hsize. rewrite repeat_length in Hsize.
    exists pts. split; [exact Hp |]. split; [exact Hsize |].
    rewrite <- Hsize in Hall. now rewrite firstn_all in Hall.
Qed.

Lemma request_eventually_completes_witness :
  timers initialWorld = []
  /\ startedSession initialWorld (step initialWorld (EvRequest firstInputs))
  /\ (Z.to_nat (guardedCount firstInputs) <= length [halfDraws; halfDraws])%nat
  /\ sampleCount (fireAll (step initialWorld (EvRequest firstInputs))
                          [halfDraws; halfDraws]) = 2%nat.
Proof.
  assert (Hstart : startedSession initialWorld
                     (step initialWorld (EvRequest firstInputs))).
  { unfold startedSession. rewrite firstInputs_start. reflexivity. }
  assert (Hlen : (Z.to_nat (guardedCount firstInputs)
                  <= length [halfDraws; halfDraws])%nat) by (cbn; lia).
  split; [reflexivity |]. split; [exact Hstart |]. split; [exact Hlen |].
  exact (proj1 (request_eventually_completes initialWorld firstInputs
                  [halfDraws; halfDraws] eq_refl Hstart Hlen)).
Defined.

(** ** A chunk that finds the buffer cleared *)

Lemma chunkLoop_on_null (rnd : nat -> R) (s : Session) (maxAngular : R)
    (stopIndex : nat) (w : World) :
  positions w = None ->
  samplingId s = currentSamplingId w ->
  forall budget c,
    chunkLoop rnd budget s maxAngular stopIndex w c = LoopThrew w
    \/ exists budgetLeft c1,
         chunkLoop rnd budget s maxAngular stopIndex w c = LoopDone w budgetLeft c1
         /\ (budgetLeft = 0%nat \/ (stopIndex <= sampleCount w)%nat).
Proof.
  intros Hp Hid. induction budget as [| b IH]; intros c; cbn [chunkLoop].
  - destruct (Nat.ltb_spec (sampleCount w) stopIndex);
      right; eexists _, _; split; try reflexivity; auto.
  - destruct (Nat.ltb_spec (sampleCount w) stopIndex);
      [| right; eexists _, _; split; try reflexivity; auto].
    rewrite Hid, Z.eqb_refl. cbn [negb].
    destruct (attempt rnd s maxAngular c) as [[p |] c1]; [| apply IH].
    rewrite Hp. now left.
Qed.

(** A task of the current session on a null buffer throws. *)
Lemma cleared_buffer_makes_task_throw_on_null
    (rnd : nat -> R) (t : Task) (w : World)
    (Hnull : positions w = None)
    (Hid : samplingId (taskSession t) = currentSamplingId w)
    (Hcount : (sampleCount w < numSamples (taskSession t))%nat) :
  runTask rnd t w = (w, Threw).
Proof.
  assert (Hchunk : forall mx c, chunk rnd (taskSession t) mx w c = (w, Threw)).
  { intros mx c. unfold chunk. rewrite Hid, Z.eqb_refl. cbn [negb].
    pose proof CHUNK_SAMPLES_pos as Hpos.
    destruct (chunkLoop_on_null rnd (taskSession t) mx
                (Nat.min (numSamples (taskSession t)) (sampleCount w + CHUNK_SAMPLES))
                w Hnull Hid ATTEMPTS_PER_CHUNK c)
      as [-> | (bl & c1 & -> & Hexit)]; [reflexivity |].
    destruct Hexit as [-> | Hstop]; [| lia].
    apply Nat.ltb_lt in Hcount. rewrite Hcount, !Nat.eqb_refl. cbn [andb].
    now rewrite Hnull. }
  assert (Hrun : runTask rnd t w = (w, Threw)).
  { destruct t as [s | s mx]; cbn [runTask taskSession] in *; [| apply Hchunk].
    unfold sampleOrbitalChunked.
    destruct (numSamples s); [lia |].
    destruct (estimateMaxAngular rnd (s_l s) (s_m s) 500 0) as [est c1].
    apply Hchunk. }
  exact Hrun.
Qed.

(** X11. When the buffer has been set to null while the session counter is
    unchanged (the count field was emptied, or a request for 0 points was
    made) a pending task of the running session does not complete: its first
    store throws, the completion callback is not invoked, nothing is
    rescheduled and every global is left as it was. *)
Theorem cleared_buffer_makes_task_throw
    (rnd : nat -> R) (t : Task) (w : World)
    (Hnull : positions w = None)
    (Hid : samplingId (taskSession t) = currentSamplingId w)
    (Hcount : (sampleCount w < numSamples (taskSession t))%nat) :
  runTask rnd t w = (w, Threw)
  /\ firedCallback (snd (runTask rnd t w)) = false.
Proof.
  pose proof (cleared_buffer_makes_task_throw_on_null rnd t w Hnull Hid Hcount)
    as Hrun.
  split; [exact Hrun |].
  rewrite Hrun. reflexivity.
Qed.

Lemma cleared_buffer_makes_task_throw_witness :
  positions (clearSamples firstWorld) = None
  /\ runTask halfDraws (TChunk firstSession sEnvelope) (clearSamples firstWorld)
     = (clearSamples firstWorld, Threw).
Proof.
  split; [reflexivity |].
  apply (cleared_buffer_makes_task_throw halfDraws (TChunk firstSession sEnvelope)
           (clearSamples firstWorld)); [reflexivity | reflexivity | cbn; lia].
Defined.

(** ** Requests that start nothing *)

Lemma uiHashEqb_refl (h : UIHash) : uiHashEqb h h = true.
Proof.
  unfold uiHashEqb. rewrite !Z.eqb_refl.
  destruct (Req_dec_T (h_electronSize h) (h_electronSize h)); [| congruence].
  destruct (string_dec (h_orbitalMode h) (h_orbitalMode h)); [| congruence].
  reflexivity.
Qed.

(** X12. Asking again with unchanged inputs changes nothing: the second of
    two identical requests starts no session, allocates nothing and leaves
    every global as the first one left it. *)
Theorem repeated_request_is_ignored (w : World) (u : UIInputs) :
  step (step w (EvRequest u)) (EvRequest u) = step w (EvRequest u).
Proof.
  cbn [step].
  destruct (Z_lt_ge_dec (guardedL u) (guardedN u)) as [Hl | Hl].
  2:{ assert (Hrej : forall w0, createOrbitalFromUI (setUI w0 (Some u))
                               = setUI (setUI w0 (Some u)) (Some (guardedInputs u))).
      { intros w0. apply createOrbitalFromUI_rejects; [reflexivity | left; lia]. }
      rewrite !Hrej. reflexivity. }
  destruct (Z_le_gt_dec (Z.abs (guardedM u)) (guardedL u)) as [Hm | Hm].
  2:{ assert (Hrej : forall w0, createOrbitalFromUI (setUI w0 (Some u))
                               = setUI (setUI w0 (Some u)) (Some (guardedInputs u))).
      { intros w0. apply createOrbitalFromUI_rejects; [reflexivity | right; lia]. }
      rewrite !Hrej. reflexivity. }
  assert (Hsecond : forall w1,
             lastUIHash w1 = Some (uiHashOf u) ->
             createOrbitalFromUI (setUI w1 (Some u))
             = setUI w1 (Some (guardedInputs u))).
  { intros w1 Hh. unfold createOrbitalFromUI. cbn [ui setUI].
    destruct (Z.geb_spec (guardedL u) (guardedN u)); [lia |].
    destruct (Z.gtb_spec (Z.abs (guardedM u)) (guardedL u)); [lia |].
    cbn [lastUIHash setUI]. rewrite Hh.
    fold (uiHashOf u). now rewrite uiHashEqb_refl. }
  remember (createOrbitalFromUI (setUI w (Some u))) as w1 eqn:Hw1.
  unfold createOrbitalFromUI in Hw1. cbn [ui setUI] in Hw1.
  destruct (Z.geb_spec (guardedL u) (guardedN u)); [lia |].
  destruct (Z.gtb_spec (Z.abs (guardedM u)) (guardedL u)); [lia |].
  cbn [lastUIHash setUI] in Hw1. fold (uiHashOf u) in Hw1.
  destruct (lastUIHash w) as [h |] eqn:Hh.
  - destruct (uiHashEqb (uiHashOf u) h) eqn:Heq.
    + (* already the hash of the last accepted request *)
      subst w1. unfold createOrbitalFromUI. cbn [ui setUI].
      destruct (Z.geb_spec (guardedL u) (guardedN u)); [lia |].
      destruct (Z.gtb_spec (Z.abs (guardedM u)) (guardedL u)); [lia |].
      cbn [lastUIHash setUI]. rewrite Hh. fold (uiHashOf u). now rewrite Heq.
    + destruct (guardedCount u =? 0)%Z; subst w1;
        rewrite Hsecond by reflexivity; reflexivity.
  - destruct (guardedCount u =? 0)%Z; subst w1;
      rewrite Hsecond by reflexivity; reflexivity.
Qed.

(** X13. A request for 0 points made while a session is running clears the
    buffer without incrementing the session counter, so the pending task of
    that session is not cancelled: when it fires it throws on its first
    store instead of aborting quietly. *)
Theorem zero_count_request_strands_running_session
    (rnd : nat -> R) (w : World) (u : UIInputs) (t : Task)
    (Hzero : guardedCount u = 0%Z)
    (Hl : (guardedL u < guardedN u)%Z)
    (Hm : (Z.abs (guardedM u) <= guardedL u)%Z)
    (Hnew : hashIsNew w u)
    (Hid : samplingId (taskSession t) = currentSamplingId w)
    (Hn : numSamples (taskSession t) <> 0%nat) :
  let w' := step w (EvRequest u) in
  positions w' = None
  /\ sampleCount w' = 0%nat
  /\ sampleTarget w' = 0%nat
  /\ sampling w' = false
  /\ currentSamplingId w' = currentSamplingId w
  /\ timers w' = timers w
  /\ runTask rnd t w' = (w', Threw).
Proof.
  cbn zeta. cbn [step].
  assert (Heq : createOrbitalFromUI (setUI w (Some u))
                = mkWorld None None 0 0 false (currentSamplingId w)
                          (Some (uiHashOf u)) (Some (guardedInputs u)) (timers w)).
  { unfold createOrbitalFromUI. cbn [ui setUI].
    destruct (Z.geb_spec (guardedL u) (guardedN u)); [lia |].
    destruct (Z.gtb_spec (Z.abs (guardedM u)) (guardedL u)); [lia |].
    cbn [lastUIHash currentSamplingId timers ui setUI]. fold (uiHashOf u).
    unfold hashIsNew in Hnew.
    destruct (lastUIHash w) as [h |]; [rewrite Hnew |];
      (destruct (Z.eqb_spec (guardedCount u) 0); [reflexivity | lia]). }
  rewrite Heq. repeat split.
  apply cleared_buffer_makes_task_throw_on_null; [reflexivity | exact Hid |].
  cbn [sampleCount]. lia.
Qed.

Lemma zero_count_request_strands_running_session_witness :
  guardedCount zeroCountInputs = 0%Z
  /\ hashIsNew firstWorld zeroCountInputs
  /\ positions (step firstWorld (EvRequest zeroCountInputs)) = None
  /\ currentSamplingId (step firstWorld (EvRequest zeroCountInputs))
     = currentSamplingId firstWorld
  /\ runTask halfDraws (TChunk firstSession sEnvelope)
             (step firstWorld (EvRequest zeroCountInputs))
     = (step firstWorld (EvRequest zeroCountInputs), Threw).
Proof.
  assert (Hzero : guardedCount zeroCountInputs = 0%Z) by reflexivity.
  assert (Hl : (guardedL zeroCountInputs < guardedN zeroCountInputs)%Z)
    by (cbn; lia).
  assert (Hm : (Z.abs (guardedM zeroCountInputs) <= guardedL zeroCountInputs)%Z)
    by (cbn; lia).
  assert (Hnew : hashIsNew firstWorld zeroCountInputs).
  { unfold hashIsNew, firstWorld, uiHashOf, uiHashEqb.
    cbn [lastUIHash h_n h_l h_m h_electronSize h_numElectrons h_orbitalMode].
    rewrite (guardedSize_one zeroCountInputs eq_refl),
            (guardedSize_one firstInputs eq_refl).
    destruct (Req_dec_T 1 1); [| congruence].
    reflexivity. }
  assert (Hid : samplingId (taskSession (TChunk firstSession sEnvelope))
                = currentSamplingId firstWorld) by reflexivity.
  assert (Hn : numSamples (taskSession (TChunk firstSession sEnvelope)) <> 0%nat)
    by (cbn; lia).
  pose proof (zero_count_request_strands_running_session
                halfDraws firstWorld zeroCountInputs
                (TChunk firstSession sEnvelope) Hzero Hl Hm Hnew Hid Hn) as H.
  cbn zeta in H.
  destruct H as (Hp & _ & _ & _ & Hc & _ & Hrun).
  repeat split; assumption.
Defined.

(** ** Invariants of the reachable worlds *)

Lemma fallbackFill_sizes_length (rnd : nat -> R) (s : Session) :
  forall slots i buf sz c,
    length (snd (fst (fallbackFill rnd slots s i buf sz c))) = length sz.
Proof.
  induction slots as [| k IH]; intros i buf sz c; cbn [fallbackFill];
    [reflexivity |].
  destruct (fallbackPoint rnd s c) as [p c1].
  rewrite IH. apply store_length.
Qed.

(** The size buffer survives a chunk of the current session. *)
Lemma chunk_keeps_sizes (rnd : nat -> R) (s : Session) (maxAngular : R)
    (w : World) (c : nat) (buf : list Vec3) (sz : list R) :
  samplingId s = currentSamplingId w ->
  positions w = Some buf -> sizes w = Some sz ->
  exists sz', sizes (fst (chunk rnd s maxAngular w c)) = Some sz'
              /\ length sz' = length sz.
Proof.
  intros Hid Hp Hs. unfold chunk.
  rewrite Hid, Z.eqb_refl. cbn [negb].
  set (stopIndex := Nat.min (numSamples s) (sampleCount w + CHUNK_SAMPLES)).
  destruct (chunkLoop_on_buffers rnd s maxAngular stopIndex ATTEMPTS_PER_CHUNK
              w c buf sz Hp Hs Hid)
    as (w1 & bl & c1 & buf1 & sz1 & Heq & Hp1 & Hs1 & Hl1 & Hl2 & _ & _
        & _ & _ & Hcur & _).
  rewrite Heq.
  assert (Hid1 : samplingId s = currentSamplingId w1) by congruence.
  destruct (sampleCount w1 <? numSamples s)%nat.
  - destruct ((bl =? 0)%nat && (sampleCount w1 =? sampleCount w)%nat)%bool.
    + rewrite Hp1, Hs1.
      pose proof (fallbackFill_sizes_length rnd s (numSamples s - sampleCount w1)
                    (sampleCount w1) buf1 sz1 c1) as Hlen.
      destruct (fallbackFill rnd (numSamples s - sampleCount w1) s
                  (sampleCount w1) buf1 sz1 c1) as [[buf' sz'] c2].
      cbn [fst snd] in Hlen.
      set (w2 := setBuffers w1 (Some buf') (Some sz') (numSamples s)).
      destruct (onDone_on_buffers rnd s w2 c2 buf' Hid1 eq_refl)
        as (_ & _ & _ & Hsz & _).
      exists sz'. cbn [fst]. rewrite Hsz. split; [reflexivity | congruence].
    + rewrite Hcur, Z.eqb_refl. cbn [negb].
      exists sz1. destruct (bl =? 0)%nat; cbn [fst addTimer sizes];
        (split; [exact Hs1 | congruence]).
  - destruct (onDone_on_buffers rnd s w1 c1 buf1 Hid1 Hp1)
      as (_ & _ & _ & Hsz & _).
    exists sz1. cbn [fst]. rewrite Hsz. split; [exact Hs1 | congruence].
Qed.

Lemma chunk_on_null (rnd : nat -> R) (s : Session) (maxAngular : R)
    (w : World) (c : nat) :
  positions w = None ->
  samplingId s = currentSamplingId w ->
  (sampleCount w < numSamples s)%nat ->
  chunk rnd s maxAngular w c = (w, Threw).
Proof.
  intros Hnull Hid Hcount. unfold chunk. rewrite Hid, Z.eqb_refl. cbn [negb].
  pose proof CHUNK_SAMPLES_pos as Hpos.
  destruct (chunkLoop_on_null rnd s maxAngular
              (Nat.min (numSamples s) (sampleCount w + CHUNK_SAMPLES))
              w Hnull Hid ATTEMPTS_PER_CHUNK c)
    as [-> | (bl & c1 & -> & Hexit)]; [reflexivity |].
  destruct Hexit as [-> | Hstop]; [| lia].
  apply Nat.ltb_lt in Hcount. rewrite Hcount, !Nat.eqb_refl. cbn [andb].
  now rewrite Hnull.
Qed.

Lemma chunk_coherent (rnd : nat -> R) (s : Session) (maxAngular : R)
    (w : World) (c : nat) :
  coherent w ->
  numSamples s <> 0%nat ->
  taskFits w (TChunk s maxAngular) ->
  coherent (fst (chunk rnd s maxAngular w c)).
Proof.
  intros (Hshape & Hset & Hts) Hn Hfit.
  destruct (Z.eq_dec (samplingId s) (currentSamplingId w)) as [Hid | Hid].
  2:{ rewrite chunk_stale by exact Hid. cbn [fst].
      split; [| split]; assumption. }
  assert (Hco : coherent w) by (split; [| split]; assumption).
  unfold bufferShape in Hshape.
  destruct (positions w) as [buf |] eqn:Hp; destruct (sizes w) as [sz |] eqn:Hs;
    try contradiction.
  2:{ destruct Hshape as [Hc0 Ht0].
      rewrite chunk_on_null; [| exact Hp | exact Hid | lia].
      exact Hco. }
  destruct Hshape as (Hlb & Hls & Hct).
  assert (Hnum : numSamples s = sampleTarget w).
  { apply Hfit; [exact Hid | rewrite Hp; discriminate]. }
  assert (Hle : (sampleCount w <= numSamples s)%nat) by lia.
  destruct (chunk_keeps_sizes rnd s maxAngular w c buf sz Hid Hp Hs)
    as (sz' & Hs' & Hls').
  pose proof (chunk_on_buffers rnd s maxAngular w c buf sz Hid Hp Hs Hle) as H.
  cbn zeta in H.
  set (w' := fst (chunk rnd s maxAngular w c)) in *.
  assert (Hold : forall t, taskFits w t ->
                           currentSamplingId w' = currentSamplingId w ->
                           sampleTarget w' = sampleTarget w -> taskFits w' t).
  { intros t Ht Hc Hg Hi _. rewrite Hg. apply Ht; [congruence |].
    rewrite Hp; discriminate. }
  destruct H as [(_ & Hprog & _ & Htm & Hcur & Hsam & Htg & buf' & sz'' & Hp'
                  & Hs'' & Hlb' & _)
                | (_ & Hfull & Hdown & Htm & Hcur & Htg & pts' & Hp' & Hlp & Hall)].
  - (* rescheduled *)
    split; [| split].
    + unfold bufferShape. rewrite Hp', Hs'. rewrite Htg. repeat split; lia.
    + intros Hoff buf0 Hb0. rewrite Hp' in Hb0. inversion Hb0; subst buf0.
      rewrite Hsam in Hoff. destruct (Hset Hoff buf Hp) as [Heq _]. lia.
    + rewrite Htm. apply Forall_app. split.
      * eapply Forall_impl; [| exact Hts]. intros t Ht. now apply Hold.
      * constructor; [| constructor].
        intros _ _. cbn [taskSession]. now rewrite Htg.
  - (* completed *)
    split; [| split].
    + unfold bufferShape. rewrite Hp', Hs'. rewrite Htg. repeat split; lia.
    + intros _ buf0 Hb0. rewrite Hp' in Hb0. inversion Hb0; subst buf0.
      rewrite Hfull, Htg. split; [exact Hnum | exact Hall].
    + rewrite Htm. eapply Forall_impl; [| exact Hts].
      intros t Ht. now apply Hold.
Qed.

Lemma runTask_coherent (rnd : nat -> R) (t : Task) (w : World) :
  coherent w ->
  numSamples (taskSession t) <> 0%nat ->
  taskFits w t ->
  coherent (fst (runTask rnd t w)).
Proof.
  intros Hco Hn Hfit. destruct t as [s | s mx]; cbn [runTask taskSession] in *.
  - unfold sampleOrbitalChunked.
    destruct (numSamples s) eqn:Hns; [congruence |].
    destruct (estimateMaxAngular rnd (s_l s) (s_m s) 500 0) as [est c1].
    apply chunk_coherent; [exact Hco | lia | exact Hfit].
  - now apply chunk_coherent.
Qed.

Lemma createOrbitalFromUI_shapes (w : World) :
  let w' := createOrbitalFromUI w in
  (positions w' = positions w /\ sizes w' = sizes w
   /\ sampleCount w' = sampleCount w /\ sampleTarget w' = sampleTarget w
   /\ sampling w' = sampling w
   /\ currentSamplingId w' = currentSamplingId w /\ timers w' = timers w)
  \/ (positions w' = None /\ sizes w' = None
      /\ sampleCount w' = 0%nat /\ sampleTarget w' = 0%nat
      /\ currentSamplingId w' = currentSamplingId w /\ timers w' = timers w)
  \/ (exists s,
         s = mkSession (s_n s) (s_l s) (s_m s) (sampleTarget w') (electronSize s)
                       (currentSamplingId w + 1)%Z
         /\ positions w' = Some (repeat origin (sampleTarget w'))
         /\ sizes w' = Some (repeat 0 (sampleTarget w'))
         /\ sampleCount w' = 0%nat
         /\ sampling w' = true
         /\ currentSamplingId w' = (currentSamplingId w + 1)%Z
         /\ timers w' = timers w ++ [TStart s]).
Proof.
  cbn zeta. unfold createOrbitalFromUI.
  destruct (ui w) as [u |] eqn:Hu; [| left; now repeat split].
  destruct (Z.geb_spec (guardedL u) (guardedN u)); [left; now repeat split |].
  destruct (Z.gtb_spec (Z.abs (guardedM u)) (guardedL u));
    [left; now repeat split |].
  match goal with
  | |- context [if ?same then _ else _] => destruct same
  end; [left; now repeat split |].
  destruct (Z.eqb_spec (guardedCount u) 0); [right; left; now repeat split |].
  right; right. eexists (mkSession _ _ _ _ _ _). cbn. now repeat split.
Qed.

Lemma step_coherent (w : World) (ev : Event) :
  reachableInv w -> coherent w -> coherent (step w ev).
Proof.
  intros Hinv (Hshape & Hset & Hts). destruct ev as [u | | i rnd]; cbn [step].
  - destruct (createOrbitalFromUI_shapes (setUI w (Some u)))
      as [(Hp & Hs & Hc & Hg & Hsam & Hid & Ht)
         | [(Hp & Hs & Hc & Hg & Hid & Ht)
           | (s & Hsess & Hp & Hs & Hc & Hsam & Hid & Ht)]];
      cbn [setUI positions sizes sampleCount sampleTarget sampling
           currentSamplingId timers] in *.
    + split; [| split].
      * unfold bufferShape in *. rewrite Hp, Hs, Hc, Hg. exact Hshape.
      * unfold settled in *. rewrite Hsam, Hp, Hc, Hg. exact Hset.
      * rewrite Ht. eapply Forall_impl; [| exact Hts].
        intros t Hfit. unfold taskFits in *. rewrite Hid, Hp, Hg. exact Hfit.
    + split; [| split].
      * unfold bufferShape. rewrite Hp, Hs. split; assumption.
      * intros _ buf Hb. rewrite Hp in Hb. discriminate.
      * rewrite Ht. eapply Forall_impl; [| exact Hts].
        intros t _ _ Hnn. now rewrite Hp in Hnn.
    + split; [| split].
      * unfold bufferShape. rewrite Hp, Hs, Hc, !repeat_length.
        split; [reflexivity |]. split; [reflexivity | lia].
      * intros Hoff. rewrite Hsam in Hoff. discriminate.
      * rewrite Ht. destruct Hinv as (_ & _ & Hok).
        apply Forall_app. split.
        -- eapply Forall_impl; [| exact Hok].
           intros t [_ Hle] Hi. rewrite Hid in Hi. lia.
        -- constructor; [| constructor]. intros _ _.
           cbn [taskSession]. rewrite Hsess. reflexivity.
  - split; [| split].
    + unfold bufferShape, clearSamples; cbn. split; reflexivity.
    + intros _ buf Hb. discriminate.
    + cbn [clearSamples timers]. eapply Forall_impl; [| exact Hts].
      intros t _ _ Hnn. now cbn in Hnn.
  - destruct (nth_error (timers w) i) as [t |] eqn:Hnth;
      [| split; [| split]; assumption].
    destruct Hinv as (_ & _ & Hok).
    assert (Htok : taskOk (currentSamplingId w) t).
    { eapply Forall_forall; [exact Hok | eapply nth_error_In; exact Hnth]. }
    assert (Htfit : taskFits w t).
    { eapply Forall_forall; [exact Hts | eapply nth_error_In; exact Hnth]. }
    apply runTask_coherent; [| exact (proj1 Htok) | exact Htfit].
    split; [exact Hshape |]. split; [exact Hset |].
    cbn [setTimers timers]. apply dropNth_Forall.
    eapply Forall_impl; [| exact Hts]. intros t0 Ht0. exact Ht0.
Qed.

Lemma run_coherent (evs : list Event) :
  forall w, reachableInv w -> coherent w -> coherent (run w evs).
Proof.
  induction evs as [| ev evs IH]; intros w Hinv Hco; cbn [run fold_left];
    [exact Hco |].
  apply IH; [apply step_inv; exact Hinv | now apply step_coherent].
Qed.

Lemma initialWorld_coherent : coherent initialWorld.
Proof.
  split; [| split].
  - unfold bufferShape; cbn. split; reflexivity.
  - intros _ buf Hb. discriminate.
  - constructor.
Qed.

(** X14. Whatever the order of requests, clears and timer firings, the two
    buffers are either both null with count and target 0, or both allocated
    with exactly [sampleTarget] slots, and the count never passes the
    target. *)
Theorem reachable_buffers_match_target (evs : list Event) :
  let w := run initialWorld evs in
  (sampleCount w <= sampleTarget w)%nat
  /\ (forall buf, positions w = Some buf ->
                  length buf = sampleTarget w
                  /\ exists sz, sizes w = Some sz /\ length sz = sampleTarget w)
  /\ (positions w = None ->
      sizes w = None /\ sampleCount w = 0%nat /\ sampleTarget w = 0%nat).
Proof.
  cbn zeta.
  destruct (run_coherent evs initialWorld initialWorld_inv initialWorld_coherent)
    as (Hshape & _ & _).
  unfold bufferShape in Hshape.
  destruct (positions (run initialWorld evs)) as [buf |];
    destruct (sizes (run initialWorld evs)) as [sz |]; try contradiction.
  - destruct Hshape as (Hb & Hs & Hc).
    split; [exact Hc |]. split; [| discriminate].
    intros buf0 Hb0. inversion Hb0; subst buf0.
    split; [exact Hb |]. now exists sz.
  - destruct Hshape as [Hc Hg].
    split; [lia |]. split; [discriminate |]. now intros _.
Qed.

(** X15. Whatever the order of requests, clears and timer firings, once the
    [sampling] flag is down an allocated buffer is complete and normalised:
    the count equals the target and every written point lies at or beyond
    NUCLEUS_RADIUS + ELECTRON_MIN_GAP. *)
Theorem reachable_idle_buffer_is_full_and_clear
    (evs : list Event) (buf : list Vec3)
    (Hidle : sampling (run initialWorld evs) = false)
    (Hbuf : positions (run initialWorld evs) = Some buf) :
  sampleCount (run initialWorld evs) = sampleTarget (run initialWorld evs)
  /\ length buf = sampleTarget (run initialWorld evs)
  /\ forall p, In p buf -> minAllowed <= r3D p.
Proof.
  destruct (run_coherent evs initialWorld initialWorld_inv initialWorld_coherent)
    as (Hshape & Hset & _).
  destruct (Hset Hidle buf Hbuf) as [Hfull Hall].
  unfold bufferShape in Hshape. rewrite Hbuf in Hshape.
  destruct (sizes (run initialWorld evs)) as [sz |]; [| contradiction].
  destruct Hshape as (Hlen & _ & _).
  split; [exact Hfull |]. split; [exact Hlen |].
  rewrite Hfull, <- Hlen, firstn_all in Hall.
  intros p Hin. exact (proj1 (Forall_forall _ _) Hall p Hin).
Qed.

Lemma run_fires (rnds : list (nat -> R)) :
  forall w, run w (map (EvFire 0) rnds) = fireAll w rnds.
Proof.
  induction rnds as [| rnd rest IH]; intros w; [reflexivity |].
  unfold run, fireAll in *. cbn [map fold_left]. apply IH.
Qed.

Lemma run_request_fires (w : World) (u : UIInputs) (rnds : list (nat -> R)) :
  run w (EvRequest u :: map (EvFire 0) rnds)
  = fireAll (step w (EvRequest u)) rnds.
Proof.
  rewrite <- run_fires. reflexivity.
Qed.

Lemma servedSchedule_done :
  sessionDone firstSession (run initialWorld servedSchedule).
Proof.
  unfold servedSchedule. rewrite run_request_fires, firstInputs_start.
  apply (fireAll_ready [halfDraws; halfDraws] _ (TStart firstSession)).
  - reflexivity.
  - split; [reflexivity |]. split; [now eexists |]. split; [now eexists |].
    cbn. lia.
  - cbn. lia.
  - cbn. lia.
  - cbn. lia.
Qed.

Lemma reachable_idle_buffer_is_full_and_clear_witness :
  exists buf,
    sampling (run initialWorld servedSchedule) = false
    /\ positions (run initialWorld servedSchedule) = Some buf
    /\ length buf = sampleTarget (run initialWorld servedSchedule)
    /\ forall p, In p buf -> minAllowed <= r3D p.
Proof.
  destruct servedSchedule_done as (_ & Hsm & _ & pts & Hp & _).
  exists pts. split; [exact Hsm |]. split; [exact Hp |].
  exact (proj2 (reachable_idle_buffer_is_full_and_clear
                  servedSchedule pts Hsm Hp)).
Defined.

(** ** The normaliser, point by point *)

Section PushFrame.

Variable rnd : nat -> R.

(** What the loop leaves in slot [i]: the pushed point below [count], the
    old content from [count] on. *)
Lemma pushLoop_nth (a : PushArgs) (eqThreshold : R) :
  forall count pts c i p,
    nth_error pts i = Some p ->
    ((i < count)%nat ->
     exists ci, nth_error (fst (pushLoop rnd a eqThreshold count pts c)) i
                = Some (fst (pushPoint rnd a eqThreshold p ci)))
    /\ ((count <= i)%nat ->
        nth_error (fst (pushLoop rnd a eqThreshold count pts c)) i = Some p).
Proof.
  induction count as [| k IH]; intros pts c i p Hp.
  - cbn [pushLoop fst]. split; [lia | now intros _].
  - destruct pts as [| q rest]; [destruct i; discriminate |].
    cbn [pushLoop].
    destruct (pushPoint rnd a eqThreshold q c) as [q' c1] eqn:Hq.
    destruct i as [| j]; cbn [nth_error] in Hp.
    + injection Hp as ->.
      destruct (pushLoop rnd a eqThreshold k rest c1) as [rest' c2].
      cbn [fst nth_error]. split; [| lia].
      intros _. exists c. now rewrite Hq.
    + destruct (IH rest c1 j p Hp) as [Hlow Hhigh].
      destruct (pushLoop rnd a eqThreshold k rest c1) as [rest' c2].
      cbn [fst nth_error] in *. split; intros Hj.
      * apply Hlow. lia.
      * apply Hhigh. lia.
Qed.

(** Outside the near-nucleus mode a point off the origin ends at the larger
    of the clearance and its radius times its factor. *)
Lemma pushPoint_plain_radius (a : PushArgs) (eqThreshold : R) (p : Vec3)
    (c : nat) :
  applyNearMultiplier a = false ->
  EPS < r3D p ->
  r3D (fst (pushPoint rnd a eqThreshold p c))
  = Rmax minAllowed (r3D p * pushFactor a eqThreshold p).
Proof.
  intros Hmode Hr.
  pose proof minAllowed_value as Hmin.
  pose proof EPS_pos as Heps.
  assert (Hres : forall f, r3D (scaleVec (Rmax minAllowed (r3D p * f) / r3D p) p)
                           = Rmax minAllowed (r3D p * f)).
  { intros f. apply r3D_rescaled; [lra |].
    eapply Rle_trans; [| apply Rmax_l]. lra. }
  unfold pushPoint, pushFactor. rewrite Hmode.
  destruct (Rle_dec (Rabs (vz p)) eqThreshold);
    (destruct (Rle_dec (rXY p) EPS);
     [destruct (Rle_dec (r3D p) EPS); [lra |] |]); cbn [fst]; apply Hres.
Qed.

(** With factors of at least 1 no point ends nearer to the nucleus than it
    was. *)
Lemma pushPoint_outward (a : PushArgs) (eqThreshold : R) (p : Vec3) (c : nat) :
  1 <= globalFactor a -> 1 <= equatorialFactor a -> 1 <= nearMultiplier a ->
  r3D p <= r3D (fst (pushPoint rnd a eqThreshold p c)).
Proof.
  intros Hg He Hn.
  pose proof minAllowed_value as Hmin.
  pose proof EPS_pos as Heps.
  assert (Heps1 : EPS <= 1) by apply tiny_le_1.
  destruct (Rle_dec (r3D p) EPS) as [Hz | Hnz].
  { pose proof (pushPoint_clearance rnd a eqThreshold p c). lra. }
  assert (Hres : forall t f, minAllowed <= t -> 1 <= f ->
                   r3D p <= r3D (scaleVec (Rmax t (r3D p * f) / r3D p) p)).
  { intros t f Ht Hf. rewrite r3D_rescaled.
    - eapply Rle_trans; [| apply Rmax_r]. nra.
    - lra.
    - eapply Rle_trans; [| apply Rmax_l]. lra. }
  unfold pushPoint.
  set (isEq := if Rle_dec (Rabs (vz p)) eqThreshold then true else false).
  set (f0 := if isEq then equatorialFactor a else globalFactor a).
  assert (Hf0 : 1 <= f0) by (unfold f0; now destruct isEq).
  destruct (applyNearMultiplier a).
  - match goal with
    | |- context [let '(f, t) := ?scrut in _] =>
        assert (Hft : 1 <= fst scrut /\ minAllowed <= snd scrut);
        [| destruct scrut as [factor tmd]; cbn [fst snd] in Hft]
    end.
    { destruct (isEq && _)%bool; cbn [fst snd];
        [split; [nra | apply Rmax_l] |].
      destruct (negb isEq && _)%bool; cbn [fst snd];
        [split; [nra | apply Rmax_l] | split; lra]. }
    destruct (Rle_dec (r3D p) EPS); [lra |].
    cbn [fst]. now apply Hres.
  - destruct (Rle_dec (rXY p) EPS);
      [destruct (Rle_dec (r3D p) EPS); [lra |] |];
      cbn [fst]; apply Hres; lra.
Qed.

End PushFrame.

(** X16. With factors of at least 1 (as in every call of the script) the
    normaliser never moves a point towards the nucleus, and it leaves the
    slots from [sampleCount] on exactly as they were. *)
Theorem pushElectronsOutward_never_inward
    (rnd : nat -> R) (a : PushArgs) (pts : list Vec3) (count c i : nat)
    (p : Vec3)
    (Hg : 1 <= globalFactor a) (He : 1 <= equatorialFactor a)
    (Hn : 1 <= nearMultiplier a)
    (Hp : nth_error pts i = Some p) :
  exists pts' q,
    fst (pushElectronsOutward rnd a (Some pts) count c) = Some pts'
    /\ nth_error pts' i = Some q
    /\ r3D p <= r3D q
    /\ ((count <= i)%nat -> q = p).
Proof.
  unfold pushElectronsOutward.
  destruct count as [| k].
  - exists pts, p. repeat split; [exact Hp | lra].
  - set (eqT := eqThresholdOf (firstn (S k) pts)).
    destruct (pushLoop_nth rnd a eqT (S k) pts c i p Hp) as [Hlow Hhigh].
    destruct (pushLoop rnd a eqT (S k) pts c) as [pts' c']. cbn [fst] in *.
    destruct (Nat.lt_ge_cases i (S k)) as [Hi | Hi].
    + destruct (Hlow Hi) as [ci Hq].
      exists pts', (fst (pushPoint rnd a eqT p ci)).
      split; [reflexivity |]. split; [exact Hq |].
      split; [now apply pushPoint_outward | lia].
    + exists pts', p. split; [reflexivity |]. split; [now apply Hhigh |].
      split; [lra | reflexivity].
Qed.

Lemma pushElectronsOutward_never_inward_witness :
  exists pts' q,
    fst (pushElectronsOutward halfDraws plainPushArgs (Some twoWritten) 2 0)
    = Some pts'
    /\ nth_error pts' 1 = Some q
    /\ r3D (mkVec3 40 0 0) <= r3D q
    /\ ((2 <= 1)%nat -> q = mkVec3 40 0 0).
Proof.
  apply (pushElectronsOutward_never_inward halfDraws plainPushArgs twoWritten
           2 0 1 (mkVec3 40 0 0)).
  - unfold plainPushArgs, GLOBAL_RADIAL_PUSH; cbn. lra.
  - unfold plainPushArgs, EQ_RADIAL_PUSH; cbn. lra.
  - unfold plainPushArgs, NEAR_NUCLEAR_PUSH_MULT; cbn. lra.
  - reflexivity.
Defined.

(** X17. Outside the near-nucleus mode, a written point farther than EPS
    from the origin ends at radius max(minAllowed, r * factor), the factor
    being [equatorialFactor] when |z| is within the equatorial threshold of
    the written points and [globalFactor] otherwise. *)
Theorem pushElectronsOutward_new_radius
    (rnd : nat -> R) (a : PushArgs) (pts : list Vec3) (count c i : nat)
    (p : Vec3)
    (Hmode : applyNearMultiplier a = false)
    (Hi : (i < count)%nat)
    (Hp : nth_error pts i = Some p)
    (Hr : EPS < r3D p) :
  exists pts' q,
    fst (pushElectronsOutward rnd a (Some pts) count c) = Some pts'
    /\ nth_error pts' i = Some q
    /\ r3D q
       = Rmax minAllowed
              (r3D p * pushFactor a (eqThresholdOf (firstn count pts)) p).
Proof.
  unfold pushElectronsOutward.
  destruct count as [| k]; [lia |].
  set (eqT := eqThresholdOf (firstn (S k) pts)).
  destruct (pushLoop_nth rnd a eqT (S k) pts c i p Hp) as [Hlow _].
  destruct (pushLoop rnd a eqT (S k) pts c) as [pts' c']. cbn [fst] in *.
  destruct (Hlow Hi) as [ci Hq].
  exists pts', (fst (pushPoint rnd a eqT p ci)).
  split; [reflexivity |]. split; [exact Hq |].
  now apply pushPoint_plain_radius.
Qed.

Lemma pushElectronsOutward_new_radius_witness :
  EPS < r3D (mkVec3 40 0 0)
  /\ exists pts' q,
       fst (pushElectronsOutward halfDraws plainPushArgs (Some twoWritten) 2 0)
       = Some pts'
       /\ nth_error pts' 1 = Some q
       /\ r3D q
          = Rmax minAllowed
                 (r3D (mkVec3 40 0 0)
                  * pushFactor plainPushArgs
                               (eqThresholdOf (firstn 2 twoWritten))
                               (mkVec3 40 0 0)).
Proof.
  assert (Hr : EPS < r3D (mkVec3 40 0 0)).
  { unfold r3D; cbn [vx vy vz]. rewrite sqrt_sq_plus_zeros by lra.
    pose proof (tiny_le_1 6) as H. unfold EPS. lra. }
  split; [exact Hr |].
  apply (pushElectronsOutward_new_radius halfDraws plainPushArgs twoWritten
           2 0 1 (mkVec3 40 0 0)); [reflexivity | lia | reflexivity | exact Hr].
Defined.

(** ** The subsample the overlay fit works on *)

Lemma everyNth_length (step : nat) :
  (1 <= step)%nat ->
  forall pts skip,
    (length (everyNth step skip pts) * step
     <= (length pts - skip) + (step - 1))%nat.
Proof.
  intros Hstep. induction pts as [| p rest IH]; intros skip; cbn [everyNth length];
    [lia |].
  destruct skip as [| s].
  - specialize (IH (step - 1)%nat). cbn [length].
    set (cnt := length (everyNth step (step - 1) rest)) in *.
    destruct (Nat.le_gt_cases (step - 1) (length rest)); [nia |].
    destruct cnt; nia.
  - specialize (IH s). lia.
Qed.

Lemma everyNth_incl (step : nat) :
  forall pts skip p, In p (everyNth step skip pts) -> In p pts.
Proof.
  induction pts as [| q rest IH]; intros skip p Hin; cbn [everyNth] in Hin;
    [contradiction |].
  destruct skip as [| s].
  - destruct Hin as [-> | Hin]; [now left | right; eapply IH; exact Hin].
  - right. eapply IH; exact Hin.
Qed.

Lemma everyNth_all : forall pts, everyNth 1 0 pts = pts.
Proof.
  induction pts as [| p rest IH]; cbn [everyNth]; [reflexivity |].
  cbn [Nat.sub]. now rewrite IH.
Qed.

Lemma everyNth_length_lower (step : nat) :
  (1 <= step)%nat ->
  forall pts skip,
    (length pts - skip <= length (everyNth step skip pts) * step)%nat.
Proof.
  intros Hstep. induction pts as [| p rest IH]; intros skip; cbn [everyNth length]; [lia |].
  destruct skip as [| s].
  - specialize (IH (step - 1)%nat). cbn [length]. lia.
  - specialize (IH s). lia.
Qed.

(** X18. With at least [sampleCount] slots in the buffer, the subsample
    handed to the overlay fit holds exactly ceil(n / step) points, the size
    the script allocates for it, which is fewer than 6000 however many points
    are written; they are written points only, all of them when fewer than
    6000 are written, and the first written point is always among them. *)
Theorem subsample_bounded (pts : list Vec3) (n : nat)
    (Hn : (n <= length pts)%nat) :
  let step := Nat.max 1 (n / 3000) in
  (forall p, In p (subsample pts n) -> In p (firstn n pts))
  /\ (n <= length (subsample pts n) * step < n + step)%nat
  /\ (length (subsample pts n) < 2 * 3000)%nat
  /\ ((n < 2 * 3000)%nat -> subsample pts n = firstn n pts)
  /\ (forall p rest, firstn n pts = p :: rest ->
                     exists rest', subsample pts n = p :: rest').
Proof.
  cbn zeta. unfold subsample.
  set (step := Nat.max 1 (n / 3000)).
  assert (Hstep : (1 <= step)%nat) by (unfold step; lia).
  pose proof (everyNth_length step Hstep (firstn n pts) 0) as Hlen.
  pose proof (everyNth_length_lower step Hstep (firstn n pts) 0) as Hlow.
  rewrite length_firstn in Hlen, Hlow.
  replace (Nat.min n (length pts)) with n in * by lia.
  split; [intros p; apply everyNth_incl |].
  split; [lia |].
  split; [| split].
  - pose proof (Nat.div_mod_eq n 3000) as Hdm.
    pose proof (Nat.mod_upper_bound n 3000 ltac:(lia)) as Hmod.
    set (cnt := length (everyNth step 0 (firstn n pts))) in *.
    set (q := (n / 3000)%nat) in *.
    destruct (Nat.le_gt_cases q 1) as [Hq | Hq].
    + replace step with 1%nat in * by (unfold step; lia). lia.
    + replace step with q in * by (unfold step; lia). nia.
  - intros Hsmall.
    assert (Hq : (n / 3000 = 0 \/ n / 3000 = 1)%nat).
    { pose proof (Nat.div_mod_eq n 3000) as Hdm. lia. }
    replace step with 1%nat by (unfold step; lia).
    apply everyNth_all.
  - intros p rest Heq. rewrite Heq. cbn [everyNth]. now eexists.
Qed.

Lemma subsample_bounded_witness :
  (8 <= length eightOnX)%nat
  /\ subsample eightOnX 8 = firstn 8 eightOnX.
Proof.
  assert (Hn : (8 <= length eightOnX)%nat) by (cbn; lia).
  split; [exact Hn |].
  destruct (subsample_bounded eightOnX 8 Hn) as (_ & _ & _ & Hall & _).
  apply Hall. lia.
Defined.

(** ** Shape of the overlay descriptors *)

Lemma r3D_x_axis : r3D (mkVec3 1 0 0) = 1 /\ r3D (mkVec3 (-1) 0 0) = 1.
Proof.
  unfold r3D; cbn [vx vy vz]. split.
  - rewrite sqrt_sq_plus_zeros; lra.
  - replace (-1 * -1 + 0 * 0 + 0 * 0) with (1 * 1) by ring.
    rewrite sqrt_square; lra.
Qed.

Lemma r3D_nonneg (p : Vec3) : 0 <= r3D p.
Proof. unfold r3D. apply sqrt_pos. Qed.

Lemma unit_or_zero (axis : Vec3) :
  r3D (mkVec3 (vx axis / orOne (r3D axis)) (vy axis / orOne (r3D axis))
              (vz axis / orOne (r3D axis))) = 1
  \/ r3D (mkVec3 (vx axis / orOne (r3D axis)) (vy axis / orOne (r3D axis))
                 (vz axis / orOne (r3D axis))) = 0.
Proof.
  pose proof (r3D_nonneg axis) as Hpos.
  unfold orOne. destruct (Req_dec_T (r3D axis) 0) as [Hz | Hnz].
  - right. rewrite r3D_divided by lra. rewrite Hz. lra.
  - left. rewrite r3D_divided by lra. field. exact Hnz.
Qed.

Lemma lobeOfCluster_wellFormed (sampled : list Vec3) (idxs : list nat)
    (lobe : PLobe) :
  lobeOfCluster sampled idxs = Some lobe -> wellFormedLobe lobe.
Proof.
  unfold lobeOfCluster.
  destruct (length idxs <? 6)%nat; [discriminate |].
  intros Heq. injection Heq as <-.
  split; [apply Rmax_l |]. split; [apply Rmax_l |].
  apply (unit_or_zero (centroidOf sampled idxs)).
Qed.

Lemma lobesOfClusters_wellFormed (sampled : list Vec3) :
  forall clusters, Forall wellFormedLobe (lobesOfClusters sampled clusters).
Proof.
  induction clusters as [| idxs rest IH]; cbn [lobesOfClusters]; [constructor |].
  destruct (lobeOfCluster sampled idxs) as [lobe |] eqn:Hl; [| exact IH].
  constructor; [| exact IH]. eapply lobeOfCluster_wellFormed; exact Hl.
Qed.

Lemma xLobes_wellFormed (sampled : list Vec3) :
  Forall wellFormedLobe (xLobes sampled).
Proof.
  unfold xLobes, xExtents. destruct r3D_x_axis as [Hx Hnx].
  apply Forall_cons; [| apply Forall_cons; [| apply Forall_nil]];
    (split; [apply Rmax_l |]; split; [apply Rmax_l |]; now left).
Qed.

Lemma withXFallback_wellFormed (sampled : list Vec3) (lobes : list PLobe) :
  Forall wellFormedLobe lobes ->
  Forall wellFormedLobe (withXFallback sampled lobes).
Proof.
  intros Hall. unfold withXFallback.
  destruct (length lobes <? 2)%nat; [| exact Hall].
  apply Forall_app. split; [exact Hall | apply xLobes_wellFormed].
Qed.

(** X19. Every lobe of the p overlay can be drawn: its axial and radial
    extents are at least 0.01 and its axis is a unit vector, or the zero
    vector when the centroid of its cluster is the nucleus itself. *)
Theorem overlayP_lobes_well_formed
    (rnd : nat -> R) (sampled : list Vec3) (c : nat) :
  Forall wellFormedLobe (fst (overlayP rnd sampled c)).
Proof.
  unfold overlayP. destruct r3D_x_axis as [Hx Hnx].
  destruct (length sampled <? 6)%nat.
  - cbn [fst].
    apply Forall_cons; [| apply Forall_cons; [| apply Forall_nil]];
      (split; [cbn [t95]; lra |]; split; [cbn [r95]; lra |]; now left).
  - destruct (kmeans rnd sampled (length sampled) 2 30 c) as [clusters c1].
    cbn [fst].
    set (lobes := withXFallback sampled (lobesOfClusters sampled clusters)).
    assert (Hwf : Forall wellFormedLobe lobes).
    { apply withXFallback_wellFormed, lobesOfClusters_wellFormed. }
    destruct (lobesFinalOf_spec sampled lobes (withXFallback_length _ _))
      as (best & Hin & _ & ->).
    pose proof (proj1 (Forall_forall _ _) Hwf best Hin) as (Ht & Hr & _).
    apply Forall_forall. intros lobe Hl.
    apply in_map_iff in Hl. destruct Hl as (l0 & <- & Hl0).
    pose proof (proj1 (Forall_forall _ _) Hwf l0 Hl0) as (_ & _ & Hax).
    unfold wellFormedLobe; cbn [t95 r95 axisUnit]. now repeat split.
Qed.

Lemma ringOf_shape (radialXYEquatorial : list R) :
  let rg := ringOf radialXYEquatorial in
  majorRadius rg = (innerRadius rg + outerRadius rg) * (5 / 10)
  /\ tubeRadius rg = Rmax 1 ((outerRadius rg - innerRadius rg) * (5 / 10)).
Proof.
  cbn zeta. unfold ringOf.
  destruct (8 <=? length radialXYEquatorial)%nat; split; reflexivity.
Qed.

(** X20. Every length in the dz2 descriptor is positive: the two axial
    extents and the tube radius are at least 1, the lobe radius at least
    0.9, both axial offsets are positive, the major radius of the ring is the
    midpoint of its inner and outer radii (so it lies strictly between them)
    and the tube is at least half the width of the ring. *)
Theorem overlayDz2_lengths_positive (sampled : list Vec3) :
  let d := overlayDz2 sampled in
  1 <= t80pos d /\ 1 <= t80neg d
  /\ 9 / 10 <= lobeRadial d
  /\ 0 < axialOffsetPos d /\ 0 < axialOffsetNeg d
  /\ 0 < innerRadius (ring d)
  /\ innerRadius (ring d) < majorRadius (ring d) < outerRadius (ring d)
  /\ 1 <= tubeRadius (ring d)
  /\ (outerRadius (ring d) - innerRadius (ring d)) / 2 <= tubeRadius (ring d).
Proof.
  cbn zeta. unfold overlayDz2.
  cbn [t80pos t80neg lobeRadial axialOffsetPos axialOffsetNeg ring].
  match goal with
  | |- context [ringOf ?xs] =>
      destruct (ringOf_bounds xs) as [Hlt Hin];
      destruct (ringOf_shape xs) as [Hmaj Htube];
      set (rg := ringOf xs) in *
  end.
  cbn zeta in *.
  unfold DZ2_RING_SHRINK_FACTOR, NUCLEUS_RADIUS, ELECTRON_MIN_GAP in Hin.
  set (tp := Rmax 1 _). set (tn := Rmax 1 _).
  assert (Htp : 1 <= tp) by apply Rmax_l.
  assert (Htn : 1 <= tn) by apply Rmax_l.
  unfold LOBE_Z_OFFSET_MULT, DZ2_AXIAL_OFFSET_SCALE.
  split; [exact Htp |]. split; [exact Htn |].
  split; [apply Rmax_l |].
  split; [nra |]. split; [nra |].
  split; [lra |]. split; [rewrite Hmaj; lra |].
  rewrite Htube.
  split; [apply Rmax_l |].
  eapply Rle_trans; [| apply Rmax_r]. lra.
Qed.

(** ** k-means *)

Lemma nearestFrom_spec (p : Vec3) :
  forall cents pre best bestD,
    match bestD with
    | None => pre = []
    | Some b =>
        (best < length pre)%nat
        /\ b = sqDist p (nth best pre origin)
        /\ (forall j, (j < length pre)%nat -> b <= sqDist p (nth j pre origin))
        /\ (forall j, (j < best)%nat -> b < sqDist p (nth j pre origin))
    end ->
    pre ++ cents <> [] ->
    let r := nearestFrom p cents (length pre) best bestD in
    (r < length (pre ++ cents))%nat
    /\ (forall j, (j < length (pre ++ cents))%nat ->
                  sqDist p (nth r (pre ++ cents) origin)
                  <= sqDist p (nth j (pre ++ cents) origin))
    /\ (forall j, (j < r)%nat ->
                  sqDist p (nth r (pre ++ cents) origin)
                  < sqDist p (nth j (pre ++ cents) origin)).
Proof.
  induction cents as [| q rest IH]; intros pre best bestD Hinv Hne;
    cbn [nearestFrom]; cbn zeta.
  - rewrite app_nil_r in *.
    destruct bestD as [b |]; [| congruence].
    destruct Hinv as (Hb & -> & Hmin & Hfirst). now repeat split.
  - assert (Happ : pre ++ q :: rest = (pre ++ [q]) ++ rest)
      by (rewrite <- app_assoc; reflexivity).
    assert (Hlen : length (pre ++ [q]) = S (length pre))
      by (rewrite length_app; cbn; lia).
    assert (Hq : nth (length pre) (pre ++ [q]) origin = q)
      by (rewrite app_nth2, Nat.sub_diag by lia; reflexivity).
    assert (Hold : forall j, (j < length pre)%nat ->
                             nth j (pre ++ [q]) origin = nth j pre origin)
      by (intros j Hj; now apply app_nth1).
    assert (Hne' : (pre ++ [q]) ++ rest <> [])
      by (destruct pre; discriminate).
    rewrite Happ, <- Hlen.
    destruct bestD as [b |].
    + destruct Hinv as (Hb & Hbv & Hmin & Hfirst).
      destruct (Rlt_dec (sqDist p q) b) as [Hlt | Hge].
      * apply IH; [| exact Hne'].
        split; [lia |]. split; [now rewrite Hq |]. split.
        -- intros j Hj. rewrite Hlen in Hj.
           destruct (Nat.eq_dec j (length pre)) as [-> | Hneq];
             [rewrite Hq; lra |].
           rewrite Hold by lia. specialize (Hmin j ltac:(lia)). lra.
        -- intros j Hj. rewrite Hold by lia.
           specialize (Hmin j ltac:(lia)). lra.
      * apply IH; [| exact Hne'].
        split; [lia |]. split; [now rewrite Hold by lia |]. split.
        -- intros j Hj. rewrite Hlen in Hj.
           destruct (Nat.eq_dec j (length pre)) as [-> | Hneq];
             [rewrite Hq; lra |].
           rewrite Hold by lia. apply Hmin. lia.
        -- intros j Hj. rewrite Hold by lia. now apply Hfirst.
    + subst pre. apply IH; [| exact Hne'].
      cbn [app length nth] in *.
      split; [lia |]. split; [reflexivity |]. split.
      * intros j Hj. assert (j = 0)%nat as -> by lia. cbn. lra.
      * intros j Hj. lia.
Qed.

Lemma nearest_spec (p : Vec3) (cents : list Vec3) :
  cents <> [] ->
  (nearest p cents < length cents)%nat
  /\ (forall j, (j < length cents)%nat ->
                sqDist p (pointAt cents (nearest p cents))
                <= sqDist p (pointAt cents j))
  /\ (forall j, (j < nearest p cents)%nat ->
                sqDist p (pointAt cents (nearest p cents))
                < sqDist p (pointAt cents j)).
Proof.
  intros Hne. unfold nearest, pointAt.
  exact (nearestFrom_spec p cents [] 0%nat None eq_refl Hne).
Qed.

(** X21. The assignment step of k-means picks, for every point, the index
    of a centroid at the least squared distance, and among centroids at
    that distance the first one. *)
Theorem nearest_is_first_closest (p : Vec3) (cents : list Vec3)
    (Hne : cents <> []) :
  (nearest p cents < length cents)%nat
  /\ (forall j, (j < length cents)%nat ->
                sqDist p (pointAt cents (nearest p cents))
                <= sqDist p (pointAt cents j))
  /\ (forall j, (j < nearest p cents)%nat ->
                sqDist p (pointAt cents (nearest p cents))
                < sqDist p (pointAt cents j)).
Proof.
  destruct (nearest_spec p cents Hne) as (Hlt & Hmin & Hfirst).
  split; [exact Hlt |]. split; [exact Hmin | exact Hfirst].
Qed.

Lemma nearest_is_first_closest_witness :
  twoCentroids <> []
  /\ (nearest (mkVec3 25 0 0) twoCentroids < length twoCentroids)%nat.
Proof.
  assert (Hne : twoCentroids <> []) by discriminate.
  split; [exact Hne |].
  exact (proj1 (nearest_is_first_closest (mkVec3 25 0 0) twoCentroids Hne)).
Defined.

Lemma membersOf_In (assignments : list nat) (cl i : nat) :
  In i (membersOf assignments cl)
  <-> (i < length assignments)%nat /\ nth i assignments 0%nat = cl.
Proof.
  unfold membersOf. rewrite filter_In, in_seq, Nat.eqb_eq. intuition lia.
Qed.

Section KMeansShape.

Variable rnd : nat -> R.

Lemma initCentroids_length (pts : list Vec3) (n : nat) :
  forall k used c, length (fst (initCentroids rnd k used pts n c)) = k.
Proof.
  induction k as [| k IH]; intros used c; cbn [initCentroids]; [reflexivity |].
  destruct (pickUnused rnd 9 used n c) as [idx c1].
  specialize (IH (idx :: used) c1).
  destruct (initCentroids rnd k (idx :: used) pts n c1) as [rest c2].
  cbn [fst length] in *. now rewrite IH.
Qed.

Lemma updateCentroids_length (pts : list Vec3) (n : nat) (assignments : list nat) :
  forall cents cIdx c,
    length (fst (updateCentroids rnd pts n assignments cents cIdx c))
    = length cents.
Proof.
  induction cents as [| q rest IH]; intros cIdx c; cbn [updateCentroids];
    [reflexivity |].
  destruct (membersOf assignments cIdx) as [| i0 idxs];
    [destruct (randomIndex rnd n c) as [idx cr] |];
    match goal with
    | |- context [updateCentroids rnd pts n assignments rest (S cIdx) ?cn] =>
        specialize (IH (S cIdx) cn);
        destruct (updateCentroids rnd pts n assignments rest (S cIdx) cn)
          as [rest' c2]
    end;
    cbn [fst length] in *; now rewrite IH.
Qed.

Lemma kmeansIter_assignments (pts : list Vec3) (n k : nat) :
  (0 < k)%nat ->
  forall maxIter assignments cents c,
    length cents = k ->
    length assignments = n ->
    Forall (fun v => (v < k)%nat) assignments ->
    length (fst (kmeansIter rnd maxIter pts n assignments cents c)) = n
    /\ Forall (fun v => (v < k)%nat)
              (fst (kmeansIter rnd maxIter pts n assignments cents c)).
Proof.
  intros Hk. induction maxIter as [| it IH];
    intros assignments cents c Hcents Hlen Hall; cbn [kmeansIter].
  - now split.
  - set (a' := map (fun i => nearest (pointAt pts i) cents) (seq 0 n)).
    assert (Hlen' : length a' = n)
      by (unfold a'; now rewrite length_map, length_seq).
    assert (Hall' : Forall (fun v => (v < k)%nat) a').
    { unfold a'. apply Forall_map, Forall_forall. intros i _.
      rewrite <- Hcents. apply nearest_spec.
      destruct cents; [cbn in Hcents; lia | discriminate]. }
    pose proof (updateCentroids_length pts n a' cents 0 c) as Hup.
    destruct (updateCentroids rnd pts n a' cents 0 c) as [cents' c1].
    cbn [fst] in Hup.
    destruct (negb (natListEqb assignments a')).
    + apply IH; [congruence | exact Hlen' | exact Hall'].
    + now split.
Qed.

Lemma kmeans_clusters (pts : list Vec3) (count k maxIter c : nat) :
  (0 < count)%nat -> (0 < k)%nat ->
  exists assignments,
    length assignments = count
    /\ Forall (fun v => (v < k)%nat) assignments
    /\ fst (kmeans rnd pts count k maxIter c)
       = map (membersOf assignments) (seq 0 k).
Proof.
  intros Hc Hk. unfold kmeans.
  destruct count as [| n]; [lia |].
  pose proof (initCentroids_length pts (S n) k [] c) as Hinit.
  destruct (initCentroids rnd k [] pts (S n) c) as [cents c1]. cbn [fst] in Hinit.
  destruct (kmeansIter_assignments pts (S n) k Hk maxIter
              (repeat 0%nat (S n)) cents c1 Hinit (repeat_length _ _))
    as [Hlen Hall].
  { apply Forall_forall. intros v Hv. apply repeat_spec in Hv. lia. }
  destruct (kmeansIter rnd maxIter pts (S n) (repeat 0%nat (S n)) cents c1)
    as [assignments c2].
  cbn [fst] in *. now exists assignments.
Qed.

End KMeansShape.

(** X22. For at least one point and one cluster, k-means returns exactly k
    clusters that partition the indices below [count]: every index is in
    some cluster, no index is in two, no cluster lists an index twice or an
    index out of range. *)
Theorem kmeans_partitions
    (rnd : nat -> R) (pts : list Vec3) (count k maxIter c : nat)
    (Hcount : (0 < count)%nat) (Hk : (0 < k)%nat) :
  let clusters := fst (kmeans rnd pts count k maxIter c) in
  length clusters = k
  /\ (forall i, (i < count)%nat ->
                exists cl, (cl < k)%nat /\ In i (nth cl clusters []))
  /\ (forall cl i, In i (nth cl clusters []) -> (i < count)%nat)
  /\ (forall c1 c2 i, In i (nth c1 clusters []) -> In i (nth c2 clusters []) ->
                      c1 = c2)
  /\ (forall cl, NoDup (nth cl clusters [])).
Proof.
  cbn zeta.
  destruct (kmeans_clusters rnd pts count k maxIter c Hcount Hk)
    as (a & Hlen & Hall & ->).
  assert (Hnth : forall cl, (cl < k)%nat ->
                   nth cl (map (membersOf a) (seq 0 k)) [] = membersOf a cl).
  { intros cl Hcl.
    rewrite (nth_indep _ [] (membersOf a 0%nat))
      by (now rewrite length_map, length_seq).
    rewrite map_nth, seq_nth by exact Hcl. reflexivity. }
  assert (Hout : forall cl, (k <= cl)%nat ->
                   nth cl (map (membersOf a) (seq 0 k)) [] = []).
  { intros cl Hcl. apply nth_overflow. now rewrite length_map, length_seq. }
  assert (Hmem : forall cl i, In i (nth cl (map (membersOf a) (seq 0 k)) []) ->
                   (cl < k)%nat /\ (i < count)%nat /\ nth i a 0%nat = cl).
  { intros cl i Hin. destruct (Nat.lt_ge_cases cl k) as [Hcl | Hcl].
    - rewrite Hnth in Hin by exact Hcl. apply membersOf_In in Hin.
      split; [exact Hcl |]. now rewrite <- Hlen.
    - rewrite Hout in Hin by exact Hcl. contradiction. }
  split; [now rewrite length_map, length_seq |].
  split; [| split; [| split]].
  - intros i Hi. exists (nth i a 0%nat).
    assert (Hv : (nth i a 0 < k)%nat).
    { apply (proj1 (Forall_forall _ _) Hall). apply nth_In. lia. }
    split; [exact Hv |]. rewrite Hnth by exact Hv.
    apply membersOf_In. split; [lia | reflexivity].
  - intros cl i Hin. apply (Hmem cl i Hin).
  - intros c1 c2 i H1 H2.
    destruct (Hmem c1 i H1) as (_ & _ & <-).
    destruct (Hmem c2 i H2) as (_ & _ & <-). reflexivity.
  - intros cl. destruct (Nat.lt_ge_cases cl k) as [Hcl | Hcl].
    + rewrite Hnth by exact Hcl. unfold membersOf.
      apply NoDup_filter, seq_NoDup.
    + rewrite Hout by exact Hcl. constructor.
Qed.

Lemma kmeans_partitions_witness :
  (0 < 8)%nat /\ (0 < 2)%nat
  /\ length (fst (kmeans halfDraws eightOnX 8 2 30 0)) = 2%nat.
Proof.
  assert (H8 : (0 < 8)%nat) by lia.
  assert (H2 : (0 < 2)%nat) by lia.
  split; [exact H8 |]. split; [exact H2 |].
  exact (proj1 (kmeans_partitions halfDraws eightOnX 8 2 30 0 H8 H2)).
Defined.

(** ** Validated inputs *)

Lemma inputChangedHandler_fields (u : UIInputs) :
  exists n l m ne,
    inputChangedHandler u
    = mkUIInputs (Some n) (Some l) (Some m) (electronSizeInput u) (Some ne)
                 (orbitalMode u)
    /\ (0 <= l < n)%Z /\ (Z.abs m <= l)%Z /\ (0 <= ne <= MAX_ELECTRONS)%Z.
Proof.
  unfold inputChangedHandler. cbv zeta.
  match goal with
  | |- context [mkUIInputs ?a _ _ _ _ _] =>
      assert (Hn : exists n, a = Some n /\ (1 <= n)%Z)
  end.
  { destruct (nInput u) as [n |]; [destruct (Z.ltb_spec n 1) |];
      eexists; (split; [reflexivity | lia]). }
  destruct Hn as (n & -> & Hn1).
  assert (Hor : Z.max 1 (orElse (Some n) 1) = n).
  { unfold orElse. destruct (Z.eqb_spec n 0); lia. }
  rewrite Hor.
  match goal with
  | |- context [mkUIInputs _ ?b _ _ _ _] =>
      assert (Hl : exists l, b = Some l /\ (0 <= l < n)%Z)
  end.
  { destruct (lInput u) as [l |];
      [destruct (Z.gtb_spec l (n - 1)); [| destruct (Z.ltb_spec l 0)] |];
      eexists; (split; [reflexivity | lia]). }
  destruct Hl as (l & -> & Hl).
  assert (Hor0 : Z.max 0 (orElse (Some l) 0) = l).
  { unfold orElse. destruct (Z.eqb_spec l 0); lia. }
  rewrite Hor0.
  match goal with
  | |- context [mkUIInputs _ _ ?c _ _ _] =>
      assert (Hm : exists m, c = Some m /\ (Z.abs m <= l)%Z)
  end.
  { destruct (mInput u) as [m |]; [destruct (Z.gtb_spec (Z.abs m) l) |];
      eexists; (split; [reflexivity | lia]). }
  destruct Hm as (m & -> & Hm).
  match goal with
  | |- context [mkUIInputs _ _ _ _ ?d _] =>
      assert (He : exists ne, d = Some ne /\ (0 <= ne <= MAX_ELECTRONS)%Z)
  end.
  { unfold MAX_ELECTRONS.
    destruct (numElectronsInput u) as [ne |]; [| eexists; split; [reflexivity | lia]].
    destruct (Z.ltb_spec ne 0);
      match goal with
      | |- context [(?x >? 30000)%Z] => destruct (Z.gtb_spec x 30000)
      end; eexists; (split; [reflexivity | lia]). }
  destruct He as (ne & -> & He).
  exists n, l, m, ne. now repeat split.
Qed.

Lemma inputChangedHandler_valid (u : UIInputs) :
  let u' := inputChangedHandler u in
  nInput u' = Some (guardedN u')
  /\ lInput u' = Some (guardedL u')
  /\ mInput u' = Some (guardedM u')
  /\ numElectronsInput u' = Some (guardedCount u')
  /\ (0 <= guardedL u' < guardedN u')%Z
  /\ (Z.abs (guardedM u') <= guardedL u')%Z
  /\ (0 <= guardedCount u' <= MAX_ELECTRONS)%Z.
Proof.
  cbn zeta.
  destruct (inputChangedHandler_fields u) as (n & l & m & ne & -> & Hl & Hm & He).
  unfold guardedN, guardedL, guardedM, guardedCount, MAX_ELECTRONS in *.
  cbn [nInput lInput mInput numElectronsInput].
  destruct (Z.ltb_spec n 1); [lia |].
  destruct (Z.ltb_spec l 0); [lia |].
  destruct (Z.ltb_spec ne 0); [lia |].
  destruct (Z.gtb_spec ne 30000); [lia |].
  repeat split; lia.
Qed.

(** X23. Whatever the input fields hold, [inputChangedHandler] leaves
    quantum numbers with 1 <= n, 0 <= l < n and |m| <= l and a count within
    [0, MAX_ELECTRONS]; the guards of [createOrbitalFromUI] then change none
    of the four, and a request with these inputs is never rejected: with a
    new hash and a count other than 0 it starts a session. *)
Theorem validated_inputs_are_accepted (w : World) (u : UIInputs)
    (Hnew : hashIsNew w (inputChangedHandler u))
    (Hcount : guardedCount (inputChangedHandler u) <> 0%Z) :
  let u' := inputChangedHandler u in
  nInput u' = Some (guardedN u')
  /\ lInput u' = Some (guardedL u')
  /\ mInput u' = Some (guardedM u')
  /\ numElectronsInput u' = Some (guardedCount u')
  /\ (0 <= guardedL u' < guardedN u')%Z
  /\ (Z.abs (guardedM u') <= guardedL u')%Z
  /\ (0 < guardedCount u' <= MAX_ELECTRONS)%Z
  /\ startedSession w (step w (EvRequest u'))
  /\ sampleTarget (step w (EvRequest u')) = Z.to_nat (guardedCount u').
Proof.
  cbn zeta.
  destruct (inputChangedHandler_valid u)
    as (Hn & Hl & Hm & Hc & Hlr & Hmr & Hcr).
  cbn zeta in *.
  set (u' := inputChangedHandler u) in *.
  split; [exact Hn |]. split; [exact Hl |]. split; [exact Hm |].
  split; [exact Hc |]. split; [exact Hlr |]. split; [exact Hmr |].
  split; [lia |].
  cbn [step].
  rewrite (createOrbitalFromUI_starts (setUI w (Some u')) u' eq_refl
             (proj2 Hlr) Hmr Hnew Hcount).
  split; reflexivity.
Qed.

Lemma validated_inputs_are_accepted_witness :
  hashIsNew initialWorld (inputChangedHandler badSubshellInputs)
  /\ guardedCount (inputChangedHandler badSubshellInputs) <> 0%Z
  /\ lInput (inputChangedHandler badSubshellInputs) = Some 0%Z
  /\ startedSession initialWorld
       (step initialWorld (EvRequest (inputChangedHandler badSubshellInputs))).
Proof.
  assert (Hnew : hashIsNew initialWorld (inputChangedHandler badSubshellInputs))
    by exact I.
  assert (Hcount : guardedCount (inputChangedHandler badSubshellInputs) <> 0%Z)
    by (cbn; lia).
  split; [exact Hnew |]. split; [exact Hcount |]. split; [reflexivity |].
  destruct (validated_inputs_are_accepted initialWorld badSubshellInputs
              Hnew Hcount) as (_ & _ & _ & _ & _ & _ & _ & Hstart & _).
  exact Hstart.
Defined.

(** ** Inner orbitals *)

Lemma zRange_In (lo hi v : Z) : In v (zRange lo hi) <-> (lo <= v < hi)%Z.
Proof.
  unfold zRange. rewrite in_map_iff. split.
  - intros (i & <- & Hi). apply in_seq in Hi. lia.
  - intros Hv. exists (Z.to_nat (v - lo)). split; [lia |].
    apply in_seq. lia.
Qed.

Lemma subshell_In (n l : Z) (o : QState) :
  In o (subshell n l)
  <-> q_n o = n /\ q_l o = l /\ (Z.abs (q_m o) <= l)%Z.
Proof.
  unfold subshell. rewrite in_map_iff. split.
  - intros (m & <- & Hm). apply zRange_In in Hm. cbn. lia.
  - intros (Hn & Hl & Hm). exists (q_m o). split.
    + destruct o; cbn in *. now subst.
    + apply zRange_In. lia.
Qed.

Lemma getAllInnerOrbitalsSimple_In (targetN targetL targetM : Z) (o : QState) :
  In o (getAllInnerOrbitalsSimple targetN targetL targetM)
  <-> (1 <= q_n o < targetN /\ 0 <= q_l o < q_n o
       /\ Z.abs (q_m o) <= q_l o)%Z
      \/ (q_n o = targetN /\ 0 <= q_l o < targetL
          /\ Z.abs (q_m o) <= q_l o)%Z
      \/ o = mkQState targetN targetL targetM.
Proof.
  unfold getAllInnerOrbitalsSimple. rewrite !in_app_iff, !in_flat_map. split.
  - intros [(n & Hn & Hin) | [(l & Hl & Ho) | [<- | []]]].
    + apply in_flat_map in Hin. destruct Hin as (l & Hl & Ho).
      apply zRange_In in Hn, Hl. apply subshell_In in Ho. left. lia.
    + apply zRange_In in Hl. apply subshell_In in Ho. right; left. lia.
    + right; right. reflexivity.
  - intros [(Hn & Hl & Hm) | [(Hn & Hl & Hm) | ->]].
    + left. exists (q_n o). split; [apply zRange_In; lia |].
      apply in_flat_map. exists (q_l o). split; [apply zRange_In; lia |].
      apply subshell_In. lia.
    + right; left. exists (q_l o). split; [apply zRange_In; lia |].
      apply subshell_In. lia.
    + right; right. now left.
Qed.

(** X24. The simple fill lists exactly the states of the shells below the
    target shell, the states of the subshells of the target shell below the
    target subshell, and the target itself, which comes last. *)
Theorem getAllInnerOrbitalsSimple_lists_lower_states
    (targetN targetL targetM : Z) :
  (forall o,
      In o (getAllInnerOrbitalsSimple targetN targetL targetM)
      <-> (1 <= q_n o < targetN /\ 0 <= q_l o < q_n o
           /\ Z.abs (q_m o) <= q_l o)%Z
          \/ (q_n o = targetN /\ 0 <= q_l o < targetL
              /\ Z.abs (q_m o) <= q_l o)%Z
          \/ o = mkQState targetN targetL targetM)
  /\ exists inner,
       getAllInnerOrbitalsSimple targetN targetL targetM
       = inner ++ [mkQState targetN targetL targetM].
Proof.
  split; [intros o; apply getAllInnerOrbitalsSimple_In |].
  unfold getAllInnerOrbitalsSimple. rewrite app_assoc. now eexists.
Qed.

Lemma findTarget_spec (targetN targetL : Z) :
  forall order i idx,
    findTarget order i targetN targetL = Some idx ->
    (i <= idx)%nat /\ nth_error order (idx - i) = Some (targetN, targetL).
Proof.
  induction order as [| [n l] rest IH]; intros i idx Hf; cbn [findTarget] in Hf;
    [discriminate |].
  destruct (Z.eqb_spec n targetN) as [-> | Hn];
    [destruct (Z.eqb_spec l targetL) as [-> | Hl] |]; cbn [andb] in Hf.
  - injection Hf as <-. rewrite Nat.sub_diag. split; [lia | reflexivity].
  - destruct (IH (S i) idx Hf) as [Hle Hnth]. split; [lia |].
    replace (idx - i)%nat with (S (idx - S i)) by lia. exact Hnth.
  - destruct (IH (S i) idx Hf) as [Hle Hnth]. split; [lia |].
    replace (idx - i)%nat with (S (idx - S i)) by lia. exact Hnth.
Qed.

Lemma aufbauLoop_In (targetN targetL targetM : Z) (o : QState) :
  forall order i idx,
    In o (aufbauLoop order i idx targetN targetL targetM) ->
    o = mkQState targetN targetL targetM
    \/ exists k n l,
         nth_error order k = Some (n, l) /\ (i + k < idx)%nat
         /\ (n <= targetN)%Z
         /\ q_n o = n /\ q_l o = l /\ (Z.abs (q_m o) <= l)%Z.
Proof.
  induction order as [| [n l] rest IH]; intros i idx Hin;
    cbn [aufbauLoop] in Hin; [contradiction |].
  destruct (Nat.ltb_spec idx i) as [Hpast | Hnot]; [contradiction |].
  apply in_app_iff in Hin. destruct Hin as [Hin | Hin].
  - destruct (Z.gtb_spec n targetN) as [Hgt | Hle]; [contradiction |].
    destruct (Nat.ltb_spec i idx) as [Hlt | Hge].
    + right. exists 0%nat, n, l. apply subshell_In in Hin.
      split; [reflexivity |]. split; [lia |]. split; [lia | exact Hin].
    + left. destruct Hin as [<- | []]. reflexivity.
  - destruct (IH (S i) idx Hin) as [-> | (k & n' & l' & Hnth & Hk & H)];
      [now left |].
    right. exists (S k), n', l'. split; [exact Hnth |]. split; [lia | exact H].
Qed.

Lemma aufbauLoop_last (targetN targetL targetM : Z) :
  forall order i idx,
    (i <= idx)%nat ->
    (exists l, nth_error order (idx - i) = Some (targetN, l)) ->
    exists inner,
      aufbauLoop order i idx targetN targetL targetM
      = inner ++ [mkQState targetN targetL targetM].
Proof.
  induction order as [| [n l] rest IH]; intros i idx Hle (l0 & Hnth).
  - destruct (idx - i)%nat; discriminate.
  - cbn [aufbauLoop].
    destruct (Nat.ltb_spec idx i) as [Hpast | _]; [lia |].
    destruct (Nat.eq_dec i idx) as [-> | Hne].
    + rewrite Nat.sub_diag in Hnth. injection Hnth as -> ->.
      destruct (Z.gtb_spec targetN targetN); [lia |].
      rewrite Nat.ltb_irrefl.
      assert (Hend : aufbauLoop rest (S idx) idx targetN targetL targetM = []).
      { destruct rest as [| [n' l'] rest']; [reflexivity |].
        cbn [aufbauLoop].
        destruct (Nat.ltb_spec idx (S idx)); [reflexivity | lia]. }
      rewrite Hend. exists []. reflexivity.
    + replace (idx - i)%nat with (S (idx - S i)) in Hnth by lia.
      cbn [nth_error] in Hnth.
      destruct (IH (S i) idx ltac:(lia) (ex_intro _ l0 Hnth)) as [inner ->].
      eexists. rewrite app_assoc. reflexivity.
Qed.

Lemma orderedBefore_spec :
  forall order k j n l n' l',
    orderedBefore order = true ->
    (k < j)%nat ->
    nth_error order k = Some (n, l) ->
    nth_error order j = Some (n', l') ->
    (1 <= n /\ 0 <= l < n)%Z
    /\ ((n <= n')%Z -> (n < n' \/ (n = n' /\ l < l'))%Z).
Proof.
  induction order as [| [n0 l0] rest IH]; intros k j n l n' l' Hok Hkj Hk Hj;
    [destruct k; discriminate |].
  cbn [orderedBefore] in Hok.
  apply andb_prop in Hok. destruct Hok as [Hok Hrest].
  apply andb_prop in Hok. destruct Hok as [Hhead Hall].
  destruct k as [| k]; cbn [nth_error] in Hk.
  - injection Hk as -> ->.
    destruct j as [| j]; [lia |]. cbn [nth_error] in Hj.
    apply nth_error_In in Hj.
    pose proof (proj1 (forallb_forall _ _) Hall _ Hj) as Hp. cbn in Hp.
    split; lia.
  - destruct j as [| j]; [lia |]. cbn [nth_error] in Hj.
    apply (IH k j n l n' l' Hrest); [lia | exact Hk | exact Hj].
Qed.

Lemma AUFBAU_ORDER_ordered : orderedBefore AUFBAU_ORDER = true.
Proof. reflexivity. Qed.

(** X25. The Aufbau fill always ends with the target state and lists only
    states the simple fill lists as well: its other states are valid states
    of a lower shell, or of the target shell and a lower subshell. *)
Theorem getAllInnerOrbitalsAufbau_within_simple (targetN targetL targetM : Z) :
  (exists inner,
      getAllInnerOrbitalsAufbau targetN targetL targetM
      = inner ++ [mkQState targetN targetL targetM])
  /\ forall o,
       In o (getAllInnerOrbitalsAufbau targetN targetL targetM) ->
       In o (getAllInnerOrbitalsSimple targetN targetL targetM).
Proof.
  unfold getAllInnerOrbitalsAufbau.
  destruct (findTarget AUFBAU_ORDER 0 targetN targetL) as [idx |] eqn:Hf.
  2:{ split; [| now intros o Ho].
      unfold getAllInnerOrbitalsSimple. rewrite app_assoc. now eexists. }
  destruct (findTarget_spec targetN targetL AUFBAU_ORDER 0 idx Hf) as [_ Hnth].
  rewrite Nat.sub_0_r in Hnth.
  split.
  - apply aufbauLoop_last; [lia |]. exists targetL. now rewrite Nat.sub_0_r.
  - intros o Ho. apply getAllInnerOrbitalsSimple_In.
    destruct (aufbauLoop_In targetN targetL targetM o AUFBAU_ORDER 0 idx Ho)
      as [-> | (k & n & l & Hk & Hlt & Hle & Hn & Hl & Hm)];
      [right; right; reflexivity |].
    destruct (orderedBefore_spec AUFBAU_ORDER k idx n l targetN targetL
                AUFBAU_ORDER_ordered ltac:(lia) Hk Hnth) as [Hvalid Hlow].
    destruct (Hlow Hle) as [Hsh | [Hsh Hsub]]; [left | right; left]; lia.
Qed.

(** ** Sampling of the inner orbital objects *)

Section ObjectSamplerProofs.

Variable rnd : nat -> R.

Lemma objPushPoint_clearance (p : Vec3) (c : nat) :
  minAllowed <= r3D (fst (objPushPoint rnd p c)).
Proof.
  pose proof minAllowed_value as Hmin. pose proof EPS_pos as Heps.
  unfold objPushPoint, randomRange.
  destruct (Rle_dec (r3D p) EPS) as [Hz | Hnz]; cbn [fst].
  - rewrite r3D_planar; [apply Rmax_l |].
    eapply Rle_trans; [| apply Rmax_l]. lra.
  - rewrite r3D_rescaled; [apply Rmax_l | lra |].
    eapply Rle_trans; [| apply Rmax_l]. lra.
Qed.

Lemma objPushLoop_spec :
  forall count pts c,
    length (fst (objPushLoop rnd count pts c)) = length pts
    /\ Forall clear (firstn count (fst (objPushLoop rnd count pts c))).
Proof.
  induction count as [| k IH]; intros pts c; [split; [reflexivity | constructor] |].
  destruct pts as [| p rest]; cbn [objPushLoop];
    [split; [reflexivity | constructor] |].
  pose proof (objPushPoint_clearance p c) as Hp.
  destruct (objPushPoint rnd p c) as [p' c1]. cbn [fst] in Hp.
  destruct (IH rest c1) as [Hlen Hall].
  destruct (objPushLoop rnd k rest c1) as [rest' c2].
  cbn [fst firstn length] in *. split; [now rewrite Hlen | now constructor].
Qed.

Lemma objFallbackFill_lengths (orbital : Orbital) :
  forall slots i buf sz c,
    length (fst (fst (objFallbackFill rnd slots orbital i buf sz c))) = length buf
    /\ length (snd (fst (objFallbackFill rnd slots orbital i buf sz c)))
       = length sz.
Proof.
  induction slots as [| k IH]; intros i buf sz c; cbn [objFallbackFill];
    [split; reflexivity |].
  destruct (objFallbackPoint rnd orbital c) as [p c1].
  destruct (IH (S i) (store i p buf) (store i (o_electronSize orbital) sz) c1)
    as [Hb Hs].
  rewrite Hb, Hs, !store_length. split; reflexivity.
Qed.

Lemma objLoop_spec (orbital : Orbital) (maxAngular : R) (numSamples : nat) :
  forall budget buf sz sampleCount c,
    (sampleCount <= numSamples)%nat ->
    exists buf' sz' count' c',
      objLoop rnd budget false orbital maxAngular numSamples buf sz sampleCount c
      = ObjDone buf' sz' count' c'
      /\ length buf' = length buf /\ length sz' = length sz
      /\ (sampleCount <= count' <= numSamples)%nat.
Proof.
  induction budget as [| b IH]; intros buf sz sampleCount c Hle;
    cbn [objLoop].
  - destruct (sampleCount <? numSamples)%nat;
      exists buf, sz, sampleCount, c; repeat split; lia.
  - destruct (Nat.ltb_spec sampleCount numSamples) as [Hlt | Hge];
      [| exists buf, sz, sampleCount, c; repeat split; lia].
    destruct (objAttempt rnd orbital maxAngular c) as [[p |] c1].
    + destruct (IH (store sampleCount p buf)
                   (store sampleCount (o_electronSize orbital) sz)
                   (S sampleCount) c1 ltac:(lia))
        as (buf' & sz' & count' & c' & Heq & Hb & Hs & Hc).
      exists buf', sz', count', c'. rewrite !store_length in *.
      repeat split; try assumption; lia.
    + destruct (IH buf sz sampleCount c1 Hle)
        as (buf' & sz' & count' & c' & Heq & Hb & Hs & Hc).
      exists buf', sz', count', c'. repeat split; try assumption; lia.
Qed.

Lemma objLoop_stale (orbital : Orbital) (maxAngular : R) (numSamples : nat)
    (budget : nat) (buf : list Vec3) (sz : list R) (c : nat) :
  (0 < numSamples)%nat ->
  objLoop rnd (S budget) true orbital maxAngular numSamples buf sz 0 c
  = ObjReturned buf sz.
Proof.
  intros Hn. cbn [objLoop].
  destruct (Nat.ltb_spec 0 numSamples); [reflexivity | lia].
Qed.

Lemma sampleOrbitalForObject_current (orbital : Orbital) (id : Z) (c : nat) :
  (0 < electronCount orbital)%Z ->
  let o' := fst (sampleOrbitalForObject rnd orbital id id c) in
  fullySampled o'
  /\ o_n o' = o_n orbital /\ o_l o' = o_l orbital /\ o_m o' = o_m orbital
  /\ electronCount o' = electronCount orbital.
Proof.
  intros Hpos. cbn zeta. unfold sampleOrbitalForObject.
  destruct (Z.leb_spec (electronCount orbital) 0) as [Hle | _]; [lia |].
  destruct (estimateMaxAngular rnd (o_l orbital) (o_m orbital) 500 c)
    as [est c1].
  rewrite Z.eqb_refl. cbn [negb].
  set (numSamples := Z.to_nat (electronCount orbital)).
  destruct (objLoop_spec orbital (est * (12 / 10)) numSamples
              (ATTEMPTS_PER_CHUNK * 5) (repeat origin numSamples)
              (repeat 0 numSamples) 0 c1 ltac:(lia))
    as (buf & sz & count & c2 & -> & Hb & Hs & Hc).
  rewrite repeat_length in Hb, Hs.
  assert (Hfill : exists buf1 sz1 c3,
             (if (count <? numSamples)%nat
              then let '(b, s, c') :=
                     objFallbackFill rnd (numSamples - count) orbital count
                                     buf sz c2 in
                   (b, s, numSamples, c')
              else (buf, sz, count, c2))
             = (buf1, sz1, numSamples, c3)
             /\ length buf1 = numSamples /\ length sz1 = numSamples).
  { destruct (Nat.ltb_spec count numSamples) as [Hlt | Hge].
    - destruct (objFallbackFill_lengths orbital (numSamples - count) count
                  buf sz c2) as [Hfb Hfs].
      destruct (objFallbackFill rnd (numSamples - count) orbital count buf sz c2)
        as [[b s] c']. cbn [fst snd] in *.
      exists b, s, c'. split; [reflexivity |]. split; congruence.
    - exists buf, sz, c2. replace count with numSamples by lia.
      split; [reflexivity |]. split; assumption. }
  destruct Hfill as (buf1 & sz1 & c3 & -> & Hb1 & Hs1).
  destruct (objPushLoop_spec numSamples buf1 c3) as [Hlen Hall].
  destruct (objPushLoop rnd numSamples buf1 c3) as [buf2 c4].
  cbn [fst] in *.
  split; [| now repeat split].
  split; [reflexivity |].
  exists buf2, sz1. cbn [o_positions o_sizes o_sampleCount].
  split; [reflexivity |]. split; [reflexivity |].
  split; [congruence |]. split; [exact Hs1 |].
  rewrite <- Hb1, <- Hlen, firstn_all in Hall. exact Hall.
Qed.

Lemma ATTEMPTS_PER_CHUNK_times_5 :
  exists b, (ATTEMPTS_PER_CHUNK * 5 = S b)%nat.
Proof.
  unfold ATTEMPTS_PER_CHUNK. exists (25 * 1000 * 5 - 1)%nat. lia.
Qed.

Lemma sampleOrbitalForObject_stale (orbital : Orbital) (id cur : Z) (c : nat) :
  (0 < electronCount orbital)%Z ->
  id <> cur ->
  let o' := fst (sampleOrbitalForObject rnd orbital id cur c) in
  leftEmpty o'
  /\ o_n o' = o_n orbital /\ o_l o' = o_l orbital /\ o_m o' = o_m orbital
  /\ electronCount o' = electronCount orbital.
Proof.
  intros Hpos Hne. cbn zeta. unfold sampleOrbitalForObject.
  destruct (Z.leb_spec (electronCount orbital) 0) as [Hle | _]; [lia |].
  destruct (estimateMaxAngular rnd (o_l orbital) (o_m orbital) 500 c)
    as [est c1].
  destruct (Z.eqb_spec id cur) as [| _]; [contradiction |]. cbn [negb].
  destruct ATTEMPTS_PER_CHUNK_times_5 as [b ->].
  rewrite objLoop_stale by lia. cbn [fst].
  now repeat split.
Qed.

End ObjectSamplerProofs.

(** X26. For an orbital with at least one electron, [sampleOrbitalForObject]
    run under the current session id always ends with exactly
    [electronCount] points, every one at or beyond NUCLEUS_RADIUS +
    ELECTRON_MIN_GAP, whatever the generator draws; run under a stale id it
    returns at once, leaving zeroed buffers and a count of 0. *)
Theorem sampleOrbitalForObject_outcome
    (rnd : nat -> R) (orbital : Orbital) (samplingId currentSamplingId : Z)
    (c : nat)
    (Hpos : (0 < electronCount orbital)%Z) :
  let o' :=
    fst (sampleOrbitalForObject rnd orbital samplingId currentSamplingId c) in
  (samplingId = currentSamplingId -> fullySampled o')
  /\ (samplingId <> currentSamplingId -> leftEmpty o')
  /\ electronCount o' = electronCount orbital.
Proof.
  cbn zeta. destruct (Z.eq_dec samplingId currentSamplingId) as [-> | Hne].
  - destruct (sampleOrbitalForObject_current rnd orbital currentSamplingId c Hpos)
      as (Hfull & _ & _ & _ & Hcount).
    split; [now intros _ |]. split; [now intros H | exact Hcount].
  - destruct (sampleOrbitalForObject_stale rnd orbital samplingId
                currentSamplingId c Hpos Hne) as (Hempty & _ & _ & _ & Hcount).
    split; [now intros H |]. split; [now intros _ | exact Hcount].
Qed.

Lemma sampleOrbitalForObject_outcome_witness :
  (0 < electronCount (newOrbital 1 0 0 800 1))%Z
  /\ fullySampled
       (fst (sampleOrbitalForObject halfDraws (newOrbital 1 0 0 800 1) 1 1 0)).
Proof.
  assert (Hpos : (0 < electronCount (newOrbital 1 0 0 800 1))%Z) by (cbn; lia).
  split; [exact Hpos |].
  exact (proj1 (sampleOrbitalForObject_outcome halfDraws (newOrbital 1 0 0 800 1)
                  1 1 0 Hpos) eq_refl).
Defined.

Lemma innerElectronCount_range (outerN outerL outerM numElectrons : Z)
    (totalOrbitals : nat) (q : QState) :
  (800 <= innerElectronCount outerN outerL outerM numElectrons totalOrbitals q
   <= MAX_INNER_ELECTRONS)%Z.
Proof.
  unfold innerElectronCount, MAX_INNER_ELECTRONS. cbv zeta. lia.
Qed.

Lemma createInnerLoop_spec (rnd : nat -> R)
    (outerN outerL outerM numElectrons : Z) (totalOrbitals : nat)
    (electronSize : R) (samplingId currentSamplingId : Z) :
  forall states innerOrbitals c,
    exists created,
      fst (createInnerLoop rnd states outerN outerL outerM numElectrons
             totalOrbitals electronSize samplingId currentSamplingId
             innerOrbitals c)
      = innerOrbitals ++ created
      /\ Forall2 (createdFor samplingId currentSamplingId) states created.
Proof.
  induction states as [| q rest IH]; intros innerOrbitals c;
    cbn [createInnerLoop].
  - exists []. rewrite app_nil_r. split; [reflexivity | constructor].
  - pose proof (innerElectronCount_range outerN outerL outerM numElectrons
                  totalOrbitals q) as Hrange.
    set (cnt := innerElectronCount outerN outerL outerM numElectrons
                  totalOrbitals q) in *.
    destruct (Z.leb_spec cnt 0) as [Hle | Hpos]; [lia |].
    set (orbital := newOrbital (q_n q) (q_l q) (q_m q) cnt electronSize).
    assert (Hcnt : (0 < electronCount orbital)%Z) by exact Hpos.
    assert (Hmade : createdFor samplingId currentSamplingId q
                      (fst (sampleOrbitalForObject rnd orbital samplingId
                              currentSamplingId c))).
    { destruct (Z.eq_dec samplingId currentSamplingId) as [Heq | Hne].
      - rewrite Heq.
        destruct (sampleOrbitalForObject_current rnd orbital
                    currentSamplingId c Hcnt) as (Hfull & Hn & Hl & Hm & Hc).
        unfold createdFor. rewrite Hn, Hl, Hm, Hc.
        split; [reflexivity |]. split; [reflexivity |]. split; [reflexivity |].
        split; [exact Hrange |].
        split; [intros _; exact Hfull | intros Hx; now contradiction Hx].
      - destruct (sampleOrbitalForObject_stale rnd orbital samplingId
                    currentSamplingId c Hcnt Hne) as (Hempty & Hn & Hl & Hm & Hc).
        unfold createdFor. rewrite Hn, Hl, Hm, Hc.
        split; [reflexivity |]. split; [reflexivity |]. split; [reflexivity |].
        split; [exact Hrange |].
        split; [intros Hx; now contradiction Hne | intros _; exact Hempty]. }
    destruct (sampleOrbitalForObject rnd orbital samplingId currentSamplingId c)
      as [sampled c1]. cbn [fst] in Hmade.
    destruct (IH (innerOrbitals ++ [sampled]) c1) as (created & -> & Hall).
    exists (sampled :: created). rewrite <- app_assoc.
    split; [reflexivity | now constructor].
Qed.

(** X27. [createAllInnerOrbitals] skips none of the listed states: it
    appends one orbital per state of the Aufbau fill, in order, each with
    between 800 and MAX_INNER_ELECTRONS electrons whatever count was
    requested; under the current session id each is sampled in full, every
    point at or beyond the clearance, and under a stale id each is left
    allocated and empty. *)
Theorem createAllInnerOrbitals_one_orbital_per_state
    (rnd : nat -> R) (outerN outerL outerM numElectrons : Z)
    (electronSize : R) (samplingId currentSamplingId : Z)
    (innerOrbitals : list Orbital) (c : nat) :
  exists created,
    fst (createAllInnerOrbitals rnd outerN outerL outerM numElectrons
           electronSize samplingId currentSamplingId innerOrbitals c)
    = innerOrbitals ++ created
    /\ length created = length (getAllInnerOrbitalsAufbau outerN outerL outerM)
    /\ Forall2 (createdFor samplingId currentSamplingId)
               (getAllInnerOrbitalsAufbau outerN outerL outerM) created.
Proof.
  unfold createAllInnerOrbitals.
  destruct (createInnerLoop_spec rnd outerN outerL outerM numElectrons
              (length (getAllInnerOrbitalsAufbau outerN outerL outerM))
              electronSize samplingId currentSamplingId
              (getAllInnerOrbitalsAufbau outerN outerL outerM) innerOrbitals c)
    as (created & Heq & Hall).
  exists created. split; [exact Heq |]. split; [| exact Hall].
  symmetry. eapply Forall2_length. exact Hall.
Qed.

(** ** The axis length and the zoom *)

Lemma maxRadius_spec :
  forall pts maxR,
    maxR <= maxRadius maxR pts
    /\ forall p, In p pts -> r3D p <= maxRadius maxR pts.
Proof.
  unfold maxRadius.
  induction pts as [| q rest IH]; intros maxR; cbn [fold_left].
  - split; [lra | intros p []].
  - destruct (Rgt_dec (r3D q) maxR) as [Hgt | Hle].
    + destruct (IH (r3D q)) as [Hacc Hall].
      split; [lra |]. intros p [<- | Hin]; [exact Hacc | now apply Hall].
    + destruct (IH maxR) as [Hacc Hall].
      split; [exact Hacc |]. intros p [<- | Hin]; [lra | now apply Hall].
Qed.

Lemma step_is_one (n d : nat) :
  (0 < d)%nat -> (n < 2 * d)%nat -> Nat.max 1 (n / d) = 1%nat.
Proof.
  intros Hd Hn.
  assert (n / d < 2)%nat by (apply Nat.Div0.div_lt_upper_bound; lia).
  lia.
Qed.

Lemma innerScan_spec :
  forall innerOrbitals maxR,
    Forall (fun o => (o_sampleCount o < 2 * (10 * 1000))%nat) innerOrbitals ->
    let scan :=
      fold_left
        (fun acc orbital =>
           match o_positions orbital, o_sampleCount orbital with
           | Some pts, S _ =>
               let innerStep := Nat.max 1 (o_sampleCount orbital / (10 * 1000)) in
               maxRadius acc (everyNth innerStep 0
                                       (firstn (o_sampleCount orbital) pts))
           | _, _ => acc
           end)
        innerOrbitals maxR in
    maxR <= scan
    /\ forall o p, In o innerOrbitals -> In p (writtenPoints o) ->
                   r3D p <= scan.
Proof.
  induction innerOrbitals as [| o rest IH]; intros maxR Hall; cbn zeta;
    cbn [fold_left].
  - split; [lra | intros o p []].
  - inversion Hall as [| ? ? Ho Hrest]; subst.
    set (acc := match o_positions o, o_sampleCount o with
                | Some pts, S _ =>
                    maxRadius maxR
                      (everyNth (Nat.max 1 (o_sampleCount o / (10 * 1000))) 0
                                (firstn (o_sampleCount o) pts))
                | _, _ => maxR
                end).
    assert (Hacc : maxR <= acc
                   /\ forall p, In p (writtenPoints o) -> r3D p <= acc).
    { unfold acc, writtenPoints.
      destruct (o_positions o) as [pts |]; [| split; [lra | intros p []]].
      destruct (o_sampleCount o) as [| k] eqn:Hk;
        [split; [lra | intros p []] |].
      rewrite step_is_one by lia. rewrite everyNth_all.
      apply maxRadius_spec. }
    destruct Hacc as [Hle Hpts].
    destruct (IH acc Hrest) as [Hmono Hcover]. cbn zeta in Hmono, Hcover.
    fold acc.
    split; [lra |].
    intros o' p [<- | Hin] Hp.
    + specialize (Hpts p Hp). lra.
    + now apply (Hcover o' p).
Qed.

Lemma computeAxisMax_spec (positions : option (list Vec3)) (sampleCount : nat)
    (innerOrbitals : list Orbital) :
  (sampleCount < 2 * (100 * 1000))%nat ->
  Forall (fun o => (o_sampleCount o < 2 * (10 * 1000))%nat) innerOrbitals ->
  let axisLen := computeAxisMax positions sampleCount innerOrbitals in
  120 <= axisLen
  /\ NUCLEUS_RADIUS * (102 / 100) <= axisLen
  /\ (forall pts p, positions = Some pts -> In p (firstn sampleCount pts) ->
                    r3D p * (102 / 100) <= axisLen)
  /\ (forall o p, In o innerOrbitals -> In p (writtenPoints o) ->
                  r3D p * (102 / 100) <= axisLen).
Proof.
  intros Hn Hinner. cbn zeta. unfold computeAxisMax.
  set (maxR1 := match positions, sampleCount with
                | Some pts, S _ => _
                | _, _ => NUCLEUS_RADIUS
                end).
  assert (H1 : NUCLEUS_RADIUS <= maxR1
               /\ forall pts p, positions = Some pts ->
                                In p (firstn sampleCount pts) -> r3D p <= maxR1).
  { unfold maxR1. destruct positions as [pts |];
      [| split; [lra | intros ? ? [=]]].
    destruct sampleCount as [| k] eqn:Hk.
    - split; [lra |]. intros pts0 p _ [].
    - rewrite step_is_one by lia. rewrite everyNth_all.
      destruct (maxRadius_spec (firstn (S k) pts) NUCLEUS_RADIUS) as [Ha Hb].
      split; [exact Ha |]. intros pts0 p [= <-] Hin. now apply Hb. }
  destruct H1 as [Hnuc Hmain].
  destruct (innerScan_spec innerOrbitals maxR1 Hinner) as [Hmono Hcover].
  cbn zeta in Hmono, Hcover.
  match goal with
  | |- context [Rmax (?scan * _) 120] => set (maxR2 := scan) in *
  end.
  pose proof (Rmax_l (maxR2 * (102 / 100)) 120) as Hl.
  pose proof (Rmax_r (maxR2 * (102 / 100)) 120) as Hr.
  split; [exact Hr |]. split; [lra |]. split.
  - intros pts p Hp Hin. specialize (Hmain pts p Hp Hin). lra.
  - intros o p Ho Hin. specialize (Hcover o p Ho Hin). lra.
Qed.

(** X28. With fewer than 200000 main samples and fewer than 20000 samples
    per inner orbital (the script allows 30000 and 8000), the axis length is
    at least 120 and at least 1.02 times the distance of every written
    point, of the main buffer and of every inner orbital, from the
    nucleus. *)
Theorem computeAxisMax_covers_every_point
    (positions : option (list Vec3)) (sampleCount : nat)
    (innerOrbitals : list Orbital)
    (Hmain : (sampleCount < 2 * (100 * 1000))%nat)
    (Hinner : Forall (fun o => (o_sampleCount o < 2 * (10 * 1000))%nat)
                     innerOrbitals) :
  let axisLen := computeAxisMax positions sampleCount innerOrbitals in
  120 <= axisLen
  /\ (forall pts p, positions = Some pts -> In p (firstn sampleCount pts) ->
                    r3D p * (102 / 100) <= axisLen)
  /\ (forall o p, In o innerOrbitals -> In p (writtenPoints o) ->
                  r3D p * (102 / 100) <= axisLen).
Proof.
  cbn zeta.
  destruct (computeAxisMax_spec positions sampleCount innerOrbitals Hmain Hinner)
    as (H120 & _ & Hm & Hi).
  split; [exact H120 |]. split; [exact Hm | exact Hi].
Qed.

Lemma computeAxisMax_covers_every_point_witness :
  (8 < 2 * (100 * 1000))%nat
  /\ 120 <= computeAxisMax (Some eightOnX) 8 [].
Proof.
  assert (Hmain : (8 < 2 * (100 * 1000))%nat) by lia.
  split; [exact Hmain |].
  exact (proj1 (computeAxisMax_covers_every_point (Some eightOnX) 8 []
                  Hmain (Forall_nil _))).
Defined.

Lemma constrain_range (x lo hi : R) :
  lo <= hi -> lo <= constrain x lo hi <= hi.
Proof.
  intros Hlh. unfold constrain. split; [apply Rmax_r |].
  apply Rmax_lub; [apply Rmin_r | exact Hlh].
Qed.

Lemma computeAxisMax_floor (positions : option (list Vec3)) (sampleCount : nat)
    (innerOrbitals : list Orbital) :
  120 <= computeAxisMax positions sampleCount innerOrbitals.
Proof. unfold computeAxisMax. apply Rmax_r. Qed.

Lemma maxRadius_upper (bound : R) :
  forall pts maxR,
    maxR <= bound -> (forall p, In p pts -> r3D p <= bound) ->
    maxRadius maxR pts <= bound.
Proof.
  unfold maxRadius.
  induction pts as [| q rest IH]; intros maxR Hm Hall; cbn [fold_left];
    [exact Hm |].
  apply IH; [| intros p Hp; apply Hall; now right].
  destruct (Rgt_dec (r3D q) maxR); [apply Hall; now left | exact Hm].
Qed.

(** X29. [fitViewToPoints] leaves a zoom target between 0.01 and 40 when
    zooming in is allowed, and never a larger one than before when it is
    not; with [immediate] the zoom itself takes the target, otherwise it is
    untouched.  Moreover, when there are fewer than 200000 main samples and
    fewer than 20000 samples per inner orbital (so that the axis length
    scans every point), the window sides are not negative and the unclamped
    zoom halfScreen * VIEW_MARGIN / axisLen is not below the floor 0.01,
    every written point of the main buffer and of every inner orbital,
    scaled by the new zoom target, lies within VIEW_MARGIN of half the
    smaller window side, whether zooming in is allowed or not. *)
Theorem fitViewToPoints_fits_every_point
    (windowWidth windowHeight : R) (positions : option (list Vec3))
    (sampleCount : nat) (innerOrbitals : list Orbital)
    (immediate allowZoomIn : bool) (cam : Camera) :
  let cam' := fitViewToPoints windowWidth windowHeight positions sampleCount
                              innerOrbitals immediate allowZoomIn cam in
  let halfScreen := Rmin windowWidth windowHeight * (5 / 10) in
  let axisLen := computeAxisMax positions sampleCount innerOrbitals in
  (allowZoomIn = true -> / 100 <= camZoomTarget cam' <= 40)
  /\ (allowZoomIn = false -> camZoomTarget cam' <= camZoomTarget cam)
  /\ camZoom cam' = (if immediate then camZoomTarget cam' else camZoom cam)
  /\ ((sampleCount < 2 * (100 * 1000))%nat ->
      Forall (fun o => (o_sampleCount o < 2 * (10 * 1000))%nat) innerOrbitals ->
      0 <= Rmin windowWidth windowHeight ->
      / 100 <= halfScreen * VIEW_MARGIN / axisLen ->
      (forall pts p, positions = Some pts -> In p (firstn sampleCount pts) ->
                     r3D p * camZoomTarget cam' <= halfScreen * VIEW_MARGIN)
      /\ (forall o p, In o innerOrbitals -> In p (writtenPoints o) ->
                      r3D p * camZoomTarget cam' <= halfScreen * VIEW_MARGIN)).
Proof.
  cbn zeta. unfold fitViewToPoints.
  pose proof (computeAxisMax_floor positions sampleCount innerOrbitals) as H120.
  set (axisLen := computeAxisMax positions sampleCount innerOrbitals) in *.
  destruct (Rgt_dec axisLen 0) as [_ | Hbad]; [| lra].
  unfold fitViewToAxisLen.
  destruct (Rle_dec axisLen 0) as [Hbad | _]; [lra |].
  set (hs := Rmin windowWidth windowHeight * (5 / 10)).
  set (tz := constrain (hs * VIEW_MARGIN / axisLen) (/ 100) 40).
  assert (Htz : / 100 <= tz <= 40) by (apply constrain_range; lra).
  set (nt := if negb allowZoomIn
                && (if Rgt_dec tz (camZoomTarget cam) then true else false)
             then camZoomTarget cam else tz).
  assert (Hnt : nt <= tz
                /\ (allowZoomIn = true -> nt = tz)
                /\ (allowZoomIn = false -> nt <= camZoomTarget cam)).
  { unfold nt. destruct allowZoomIn; cbn [negb andb].
    - split; [lra |]. split; [reflexivity | discriminate].
    - destruct (Rgt_dec tz (camZoomTarget cam)); (split; [lra |]);
        (split; [discriminate | intros _; lra]). }
  destruct Hnt as (Hle & Hin & Hout).
  assert (Hnew : camZoom (if immediate then mkCamera nt nt
                          else mkCamera (camZoom cam) nt)
                 = (if immediate then nt else camZoom cam)
                 /\ camZoomTarget (if immediate then mkCamera nt nt
                                   else mkCamera (camZoom cam) nt) = nt).
  { destruct immediate; split; reflexivity. }
  destruct Hnew as [Hz Ht]. rewrite Ht.
  split; [intros Ha; rewrite (Hin Ha); exact Htz |].
  split; [exact Hout |].
  split; [exact Hz |].
  intros Hmain Hinner Hwin Hratio.
  destruct (computeAxisMax_spec positions sampleCount innerOrbitals Hmain Hinner)
    as (_ & _ & Hcover & Hcoveri).
  fold axisLen in Hcover, Hcoveri.
  assert (Hq : tz <= hs * VIEW_MARGIN / axisLen).
  { unfold tz, constrain.
    destruct (Rle_dec (hs * VIEW_MARGIN / axisLen) 40) as [Hsmall | Hbig].
    - rewrite Rmin_left by exact Hsmall. rewrite Rmax_left by exact Hratio. lra.
    - rewrite Rmin_right by lra. rewrite Rmax_left by lra. lra. }
  assert (Hhv : 0 <= hs * VIEW_MARGIN) by (unfold hs, VIEW_MARGIN; nra).
  assert (Hfit : forall p, r3D p * (102 / 100) <= axisLen ->
                           r3D p * nt <= hs * VIEW_MARGIN).
  { intros p Hp. pose proof (r3D_nonneg p) as Hr.
    assert (Hstep : r3D p * nt <= r3D p * (hs * VIEW_MARGIN / axisLen)).
    { apply Rmult_le_compat_l; [exact Hr | lra]. }
    assert (Hfrac : r3D p * (hs * VIEW_MARGIN / axisLen) <= hs * VIEW_MARGIN).
    { unfold Rdiv.
      replace (r3D p * (hs * VIEW_MARGIN * / axisLen))
        with (hs * VIEW_MARGIN * (r3D p * / axisLen)) by ring.
      rewrite <- (Rmult_1_r (hs * VIEW_MARGIN)) at 2.
      apply Rmult_le_compat_l; [exact Hhv |].
      apply (Rmult_le_reg_r axisLen); [lra |].
      rewrite Rmult_assoc, Rinv_l by lra. lra. }
    lra. }
  split.
  - intros pts p Hp Hin'. apply Hfit. now apply (Hcover pts).
  - intros o p Ho Hin'. apply Hfit. now apply (Hcoveri o).
Qed.

Lemma fitViewToPoints_fits_every_point_witness :
  / 100 <= Rmin 800 600 * (5 / 10) * VIEW_MARGIN
           / computeAxisMax (Some eightOnX) 8 []
  /\ forall p, In p (firstn 8 eightOnX) ->
                r3D p * camZoomTarget
                          (fitViewToPoints 800 600 (Some eightOnX) 8 [] false
                                           false (mkCamera 1 1))
                <= Rmin 800 600 * (5 / 10) * VIEW_MARGIN.
Proof.
  assert (Hmain : (8 < 2 * (100 * 1000))%nat) by lia.
  assert (Hwin : 0 <= Rmin 800 600) by (apply Rmin_glb; lra).
  assert (Hmin : Rmin 800 600 = 600) by (apply Rmin_right; lra).
  assert (Haxis : 120 <= computeAxisMax (Some eightOnX) 8 [] <= 1000).
  { split; [apply computeAxisMax_floor |].
    unfold computeAxisMax. cbn [fold_left].
    apply Rmax_lub; [| lra].
    assert (Hscan : forall pts, (forall p, In p pts -> In p eightOnX) ->
                                maxRadius NUCLEUS_RADIUS pts <= 25).
    { intros pts Hsub. apply maxRadius_upper; [unfold NUCLEUS_RADIUS; lra |].
      intros p Hp. apply Hsub in Hp. apply repeat_spec in Hp. subst p.
      unfold r3D; cbn [vx vy vz]. rewrite sqrt_sq_plus_zeros; lra. }
    assert (H25 : maxRadius NUCLEUS_RADIUS
                    (everyNth (Nat.max 1 (8 / Nat.min 8 (100 * 1000))) 0
                              (firstn 8 eightOnX)) <= 25).
    { apply Hscan. intros p Hp. apply everyNth_incl in Hp.
      change (firstn 8 eightOnX) with eightOnX in Hp. exact Hp. }
    lra. }
  assert (Hratio : / 100 <= Rmin 800 600 * (5 / 10) * VIEW_MARGIN
                            / computeAxisMax (Some eightOnX) 8 []).
  { rewrite Hmin. unfold VIEW_MARGIN.
    set (ax := computeAxisMax (Some eightOnX) 8 []) in *.
    apply (Rmult_le_reg_r ax); [lra |].
    unfold Rdiv. rewrite Rmult_assoc, Rinv_l by lra. lra. }
  split; [exact Hratio |].
  destruct (fitViewToPoints_fits_every_point 800 600 (Some eightOnX) 8 []
              false false (mkCamera 1 1)) as (_ & _ & _ & Hcover).
  destruct (Hcover Hmain (Forall_nil _) Hwin Hratio) as [Hpts _].
  intros p Hp. now apply (Hpts eightOnX).
Defined.

(** X30. The axis length estimated from the quantum numbers, which frames
    the view while sampling runs, is at least 120, never decreases with n,
    and is at least 1.12 times the radius the sampler proposes when the sum
    of its k exponential variates equals its mean k. *)
Theorem estimateAxisLenFromQuantum_covers_mean_radius (n n' l : Z)
    (Hn : (0 <= n <= n')%Z) (Hl : (0 <= l)%Z) :
  120 <= estimateAxisLenFromQuantum n l
  /\ estimateAxisLenFromQuantum n l <= estimateAxisLenFromQuantum n' l
  /\ proposedRadius n l (INR (kOf l)) * (112 / 100)
     <= estimateAxisLenFromQuantum n l.
Proof.
  pose proof (radialLScale_floor l) as Hfloor.
  assert (Hk : INR (kOf l) = IZR (2 * l + 3)).
  { unfold kOf. rewrite INR_IZR_INZ, Z2Nat.id by lia. f_equal. lia. }
  unfold estimateAxisLenFromQuantum, proposedRadius, thetaScale, radialScale,
    ELECTRON_DISTANCE_MULTIPLIER, a0 in *. cbv zeta.
  rewrite Hk, !plus_IZR, !mult_IZR.
  destruct Hn as [Hn0 Hnn]. apply IZR_le in Hn0, Hnn, Hl.
  set (rn := IZR n) in *. set (rn' := IZR n') in *. set (rl := IZR l) in *.
  set (rs := radialLScale l) in *.
  split; [apply Rmax_r |]. split.
  - apply Rmax_lub; [| apply Rmax_r].
    eapply Rle_trans; [| apply Rmax_l].
    assert (0 <= (2 * rl + 1) * 3 * (rs * (16 / 10))) by nra.
    nra.
  - eapply Rle_trans; [| apply Rmax_l].
    assert (Hcmp : (2 * rl + 3) <= (2 * rl + 1) * 3) by lra.
    assert (Hpos : 0 <= rn * 40 / 2 * (rs * (16 / 10))) by nra.
    nra.
Qed.

Lemma estimateAxisLenFromQuantum_covers_mean_radius_witness :
  (0 <= 2 <= 3)%Z /\ (0 <= 1)%Z
  /\ estimateAxisLenFromQuantum 2 1 <= estimateAxisLenFromQuantum 3 1.
Proof.
  assert (Hn : (0 <= 2 <= 3)%Z) by lia.
  assert (Hl : (0 <= 1)%Z) by lia.
  split; [exact Hn |]. split; [exact Hl |].
  exact (proj1 (proj2 (estimateAxisLenFromQuantum_covers_mean_radius 2 3 1 Hn Hl))).
Defined.

(** * The normaliser and the single-precision buffer *)














(** *** A point the store leaves inside the clearance *)





(** * The p overlay of a single cluster *)



Section SingleCluster.

Variable rnd : nat -> R.
Hypothesis rnd_unit : forall j, 0 <= rnd j < 1.

Variable p : Vec3.
Variable n : nat.
Hypothesis n_pos : (0 < n)%nat.








End SingleCluster.




(** * The fallback fill of a starved chunk *)

Lemma fallbackFill_spec_keep (rnd : nat -> R) (s : Session) :
  forall slots i buf sz c j,
    (j < i)%nat ->
    nth_error (fst (fst (fallbackFill rnd slots s i buf sz c))) j
    = nth_error buf j.
Proof.
  induction slots as [| k IH]; intros i buf sz c j Hj; cbn [fallbackFill];
    [reflexivity |].
  destruct (fallbackPoint rnd s c) as [p c1].
  rewrite IH by lia. apply nth_error_store_other. lia.
Qed.

Section FallbackShape.

Variable rnd : nat -> R.
Hypothesis rnd_unit : forall j, 0 <= rnd j < 1.

Lemma fallbackPoint_shape (s : Session) (c : nat) :
  (1 <= s_n s)%Z -> fallbackShape rnd s (fst (fallbackPoint rnd s c)).
Proof.
  intros Hn.
  pose proof (fallbackPoint_radius rnd rnd_unit s c Hn) as Hbound.
  assert (Hdir : forall rr i3 i4,
             mkVec3 (rr * sin (acos (rnd i3 * (1 - -1) + -1))
                        * cos (rnd i4 * (TWO_PI - 0) + 0))
                    (rr * sin (acos (rnd i3 * (1 - -1) + -1))
                        * sin (rnd i4 * (TWO_PI - 0) + 0))
                    (rr * cos (acos (rnd i3 * (1 - -1) + -1)))
             = mkVec3 (rr * sqrt (1 - (2 * rnd i3 - 1) * (2 * rnd i3 - 1))
                          * cos (TWO_PI * rnd i4))
                      (rr * sqrt (1 - (2 * rnd i3 - 1) * (2 * rnd i3 - 1))
                          * sin (TWO_PI * rnd i4))
                      (rr * (2 * rnd i3 - 1))).
  { intros rr i3 i4. pose proof (rnd_unit i3) as Hu.
    replace (rnd i3 * (1 - -1) + -1) with (2 * rnd i3 - 1) by ring.
    replace (rnd i4 * (TWO_PI - 0) + 0) with (TWO_PI * rnd i4) by ring.
    rewrite sin_acos, cos_acos by lra. reflexivity. }
  unfold fallbackShape. cbv zeta.
  revert Hbound. unfold fallbackPoint, fallbackRadius, random, randomRange.
  cbv zeta.
  set (rMax := Rmax 1 (IZR (s_n s) * IZR (s_n s) * a0 * (18 / 10))).
  destruct (Rlt_dec (rMax * cbrtDraw (rnd c) * radialScale (s_l s)) minAllowed)
    as [Hlow | Hok]; cbn [fst]; intros Hbound.
  - exists c, (S c), (S (S c)), (S (S (S c))).
    destruct (Rlt_dec (rMax * cbrtDraw (rnd c) * radialScale (s_l s)) minAllowed);
      [| contradiction].
    rewrite Hdir in Hbound |- *.
    pose proof minAllowed_value as Hmin.
    assert (Hr : r3D (mkVec3
                   ((minAllowed + (rMax - minAllowed) * cbrtDraw (rnd (S c)))
                    * sqrt (1 - (2 * rnd (S (S c)) - 1) * (2 * rnd (S (S c)) - 1))
                    * cos (TWO_PI * rnd (S (S (S c)))))
                   ((minAllowed + (rMax - minAllowed) * cbrtDraw (rnd (S c)))
                    * sqrt (1 - (2 * rnd (S (S c)) - 1) * (2 * rnd (S (S c)) - 1))
                    * sin (TWO_PI * rnd (S (S (S c)))))
                   ((minAllowed + (rMax - minAllowed) * cbrtDraw (rnd (S c)))
                    * (2 * rnd (S (S c)) - 1)))
                 = minAllowed + (rMax - minAllowed) * cbrtDraw (rnd (S c))).
    { rewrite <- Hdir. apply r3D_spherical.
      pose proof (cbrtDraw_range (rnd (S c)) (rnd_unit (S c))) as [H0 H1].
      assert (1 <= rMax) by apply Rmax_l.
      destruct (Rle_dec minAllowed rMax); nra. }
    split; [reflexivity |]. split; [exact Hr |]. now rewrite <- Hr.
  - exists c, (S c), (S c), (S (S c)).
    destruct (Rlt_dec (rMax * cbrtDraw (rnd c) * radialScale (s_l s)) minAllowed);
      [contradiction |].
    rewrite Hdir in Hbound |- *.
    pose proof minAllowed_value as Hmin.
    assert (Hr : r3D (mkVec3
                   (rMax * cbrtDraw (rnd c) * radialScale (s_l s)
                    * sqrt (1 - (2 * rnd (S c) - 1) * (2 * rnd (S c) - 1))
                    * cos (TWO_PI * rnd (S (S c))))
                   (rMax * cbrtDraw (rnd c) * radialScale (s_l s)
                    * sqrt (1 - (2 * rnd (S c) - 1) * (2 * rnd (S c) - 1))
                    * sin (TWO_PI * rnd (S (S c))))
                   (rMax * cbrtDraw (rnd c) * radialScale (s_l s)
                    * (2 * rnd (S c) - 1)))
                 = rMax * cbrtDraw (rnd c) * radialScale (s_l s)).
    { rewrite <- Hdir. apply r3D_spherical. lra. }
    split; [reflexivity |]. split; [exact Hr |]. now rewrite <- Hr.
Qed.

(** Every slot the fill writes holds a point drawn by [fallbackPoint]. *)
Lemma fallbackFill_slots (s : Session) :
  forall slots i buf sz c j p,
    (i <= j < i + slots)%nat ->
    nth_error (fst (fst (fallbackFill rnd slots s i buf sz c))) j = Some p ->
    exists cj, p = fst (fallbackPoint rnd s cj).
Proof.
  induction slots as [| k IH]; intros i buf sz c j p Hj Hp; [lia |].
  cbn [fallbackFill] in Hp.
  destruct (fallbackPoint rnd s c) as [q c1] eqn:Hq.
  destruct (Nat.eq_dec j i) as [-> | Hne].
  - exists c. rewrite Hq. cbn [fst].
    pose proof (fallbackFill_spec_keep rnd s k (S i) (store i q buf)
                  (store i (electronSize s) sz) c1 i ltac:(lia)) as Hkeep.
    rewrite Hkeep in Hp. now apply nth_error_store_same in Hp.
  - eapply IH; [| exact Hp]. lia.
Qed.

End FallbackShape.

(** The completion callback multiplies every counted point that is off the
    origin by a positive factor. *)
Lemma onDone_scales (rnd : nat -> R) (s : Session) (w : World) (c : nat)
    (pts : list Vec3) (j : nat) (p : Vec3) :
  samplingId s = currentSamplingId w ->
  positions w = Some pts ->
  (j < sampleCount w)%nat ->
  nth_error pts j = Some p ->
  EPS < r3D p ->
  exists t pts',
    0 < t
    /\ positions (fst (onDone rnd s w c)) = Some pts'
    /\ nth_error pts' j = Some (scaleVec t p).
Proof.
  intros Hid Hpos Hj Hp Hr. unfold onDone. rewrite Hid, Z.eqb_refl.
  cbn [negb setSampling positions sizes sampleCount]. rewrite Hpos.
  unfold pushElectronsOutward.
  destruct (sampleCount w) as [| k] eqn:Hk; [lia |].
  match goal with
  | |- context [pushLoop rnd ?a ?eqT (S k) pts c] =>
      destruct (pushLoop_scales rnd a eqT (S k) pts c j p Hj Hp Hr)
        as (t & Ht & Hnth);
      destruct (pushLoop rnd a eqT (S k) pts c) as [pts' c']
  end.
  cbn [fst setBuffers positions] in *. exists t, pts'. now repeat split.
Qed.

(** C2 (as amended). In the later copy of the sampler (lines 5085-5181), for
    a session with n >= 1 whose id is current and whose two buffers are
    allocated: when a chunk has spent its whole attempt budget
    (ATTEMPTS_PER_CHUNK) and the requested count is not reached, then
    - if the chunk accepted no point, every remaining slot is filled with a
      fallback point: a radius drawn through a cube root of a uniform draw
      (redrawn above the clearance when it falls inside it), between the
      clearance and the cutoff 1.6 * (1.8 * a0 * n^2), times the direction
      whose polar cosine is 2 u - 1 and whose azimuth is 2 pi u' for two
      further draws; the slots already sampled are kept, the count becomes
      the requested one, and the completion callback runs: it multiplies
      each point off the origin by a positive factor, leaves every point at
      least NUCLEUS_RADIUS + ELECTRON_MIN_GAP away, and ends the session
      with no timer added;
    - if the chunk accepted a point, nothing is filled: the chunk is
      rescheduled with delay 10 and the callback does not run. *)
Theorem starved_chunk_falls_back
    (rnd : nat -> R) (s : Session) (maxAngular : R) (w : World) (c : nat)
    (buf : list Vec3) (sz : list R) (w1 : World) (c1 : nat)
    (Hrnd : forall j, 0 <= rnd j < 1)
    (Hn : (1 <= s_n s)%Z)
    (Hid : samplingId s = currentSamplingId w)
    (Hpos : positions w = Some buf)
    (Hsz : sizes w = Some sz)
    (Hloop : chunkLoop rnd ATTEMPTS_PER_CHUNK s maxAngular
                       (Nat.min (numSamples s) (sampleCount w + CHUNK_SAMPLES))
                       w c
             = LoopDone w1 0 c1)
    (Hunfilled : (sampleCount w1 < numSamples s)%nat) :
  (sampleCount w1 = sampleCount w ->
   let filled := filledBuffer rnd s w buf sz c1 in
   exists w' final,
     chunk rnd s maxAngular w c = (w', FallbackFilled)
     /\ firedCallback FallbackFilled = true
     /\ sampleCount w' = numSamples s
     /\ sampling w' = false
     /\ timers w' = timers w
     /\ length filled = length buf
     /\ (forall j, (j < sampleCount w)%nat -> nth_error filled j = nth_error buf j)
     /\ (forall j p,
            (sampleCount w <= j < numSamples s)%nat ->
            nth_error filled j = Some p ->
            fallbackShape rnd s p)
     /\ positions w' = Some final
     /\ length final = length buf
     /\ (forall j p,
            (j < numSamples s)%nat -> nth_error filled j = Some p ->
            EPS < r3D p ->
            exists t, 0 < t /\ nth_error final j = Some (scaleVec t p))
     /\ Forall (fun p => minAllowed <= r3D p) (firstn (numSamples s) final))
  /\ (sampleCount w1 <> sampleCount w ->
      chunk rnd s maxAngular w c
      = (addTimer w1 (TChunk s maxAngular), Rescheduled 10)
      /\ firedCallback (Rescheduled 10) = false).
Proof.
  apply Nat.ltb_lt in Hunfilled as Hlt.
  split.
  - (* no point accepted: the fill *)
    intros Hstarved. cbn zeta.
    destruct (chunkLoop_progress rnd s maxAngular _ _ _ _ _ _ _ Hloop)
      as [_ Hsame].
    specialize (Hsame Hstarved). subst w1.
    unfold chunk, filledBuffer.
    rewrite Hid, Z.eqb_refl. cbn [negb]. rewrite Hloop, Hlt.
    rewrite !Nat.eqb_refl. cbn [andb]. rewrite Hpos, Hsz.
    pose proof (fallbackFill_length rnd s (numSamples s - sampleCount w)
                  (sampleCount w) buf sz c1) as Hlen.
    pose proof (fallbackFill_spec_keep rnd s (numSamples s - sampleCount w)
                  (sampleCount w) buf sz c1) as Hkeep.
    pose proof (fallbackFill_slots rnd s (numSamples s - sampleCount w)
                  (sampleCount w) buf sz c1) as Hslots.
    destruct (fallbackFill rnd (numSamples s - sampleCount w) s (sampleCount w)
                buf sz c1) as [[buf' sz'] c2].
    cbn [fst] in *.
    set (w2 := setBuffers w (Some buf') (Some sz') (numSamples s)).
    assert (Hid2 : samplingId s = currentSamplingId w2) by exact Hid.
    destruct (onDone_frame rnd s w2 c2) as (_ & Hdt & Hdc).
    pose proof (onDone_current rnd s w2 c2 Hid2) as Hds.
    destruct (onDone_clearance rnd s w2 c2 buf' Hid2 eq_refl)
      as (final & Hfinal & Hclear).
    pose proof (onDone_frame rnd s w2 c2) as ((_ & _ & _ & _ & Hsize) & _).
    unfold bufferSize in Hsize. rewrite Hfinal in Hsize.
    cbn [w2 setBuffers positions] in Hsize.
    exists (fst (onDone rnd s w2 c2)), final.
    split; [reflexivity |]. split; [reflexivity |].
    split; [exact Hdc |]. split; [exact Hds |]. split; [exact Hdt |].
    split; [exact Hlen |]. split; [exact Hkeep |].
    split.
    { intros j p Hj Hp.
      destruct (Hslots j p ltac:(lia) Hp) as [cj ->].
      now apply fallbackPoint_shape. }
    split; [exact Hfinal |]. split; [congruence |].
    split; [| exact Hclear].
    intros j p Hj Hp Hr.
    destruct (onDone_scales rnd s w2 c2 buf' j p Hid2 eq_refl Hj Hp Hr)
      as (t & pts' & Ht & Hpts' & Hnth).
    rewrite Hfinal in Hpts'. injection Hpts' as <-.
    exists t. now split.
  - (* a point was accepted: rescheduled *)
    intros Hmoved.
    pose proof (chunkLoop_frame rnd s maxAngular
                  (Nat.min (numSamples s) (sampleCount w + CHUNK_SAMPLES))
                  ATTEMPTS_PER_CHUNK w c) as Hframe.
    rewrite Hloop in Hframe. destruct Hframe as ((Hcur & _) & _).
    split; [| reflexivity].
    unfold chunk. rewrite Hid, Z.eqb_refl. cbn [negb]. rewrite Hloop, Hlt.
    apply Nat.eqb_neq in Hmoved. rewrite Hmoved.
    cbn [Nat.eqb andb]. rewrite Hcur, Z.eqb_refl. reflexivity.
Qed.

Lemma starved_chunk_falls_back_witness :
  exists w' final,
    chunk highDraws firstSession (12 / 10) firstWorld 0 = (w', FallbackFilled)
    /\ sampleCount w' = 2%nat
    /\ sampling w' = false
    /\ positions w' = Some final
    /\ Forall (fun p => minAllowed <= r3D p) (firstn 2 final).
Proof.
  assert (Hloop : chunkLoop highDraws ATTEMPTS_PER_CHUNK firstSession (12 / 10)
                            (Nat.min (numSamples firstSession)
                                     (sampleCount firstWorld + CHUNK_SAMPLES))
                            firstWorld 0
                  = LoopDone firstWorld 0 (0 + 3 * ATTEMPTS_PER_CHUNK)).
  { apply chunkLoop_starved; try reflexivity.
    cbn [numSamples firstSession sampleCount firstWorld]. unfold CHUNK_SAMPLES. lia. }
  assert (Hn : (1 <= s_n firstSession)%Z) by (cbn; lia).
  assert (Hunfilled : (sampleCount firstWorld < numSamples firstSession)%nat)
    by (cbn; lia).
  destruct (proj1 (starved_chunk_falls_back highDraws firstSession (12 / 10)
                     firstWorld 0 (repeat origin 2) (repeat 0 2) firstWorld
                     (0 + 3 * ATTEMPTS_PER_CHUNK)
                     highDraws_unit Hn eq_refl eq_refl eq_refl Hloop Hunfilled)
                  eq_refl)
    as (w' & final & Hchunk & _ & Hcount & Hsampling & _ & _ & _ & _ & Hfinal
        & _ & _ & Hclear).
  exists w', final. split; [exact Hchunk |]. split; [exact Hcount |].
  split; [exact Hsampling |]. split; [exact Hfinal | exact Hclear].
Defined.
